(** * InSAR correlated-noise covariance: a shallow embedding

    Embedding of the two notebooks of [10_error_analysis]:
    - [insar_correlated_noise_covariance.ipynb]: plane removal (cell 4),
      Fourier-domain autocorrelation, distance grid and truncation (cell 5),
      radial averaging and the penalty functions of the fits (cell 6);
    - [make_inverse_covariance_matrix.ipynb]: pairwise distances, the
      variance-covariance matrix [E] and its pseudoinverse.

    Number model.  A numpy [float64] is modelled by an exact real number
    ([R]) or one of the three IEEE specials (+inf, -inf, nan); rounding is
    not modelled.  A raster pixel is [option R]: [None] is the [np.nan]
    that the masking cell writes into bad pixels.  Integers are [nat]/[Z].
    Library routines ([fft2], [ifft2], [fftshift], [np.linalg.inv],
    [np.linalg.pinv], [minimize]) are modelled from their documented
    mathematical definition.

    What the number model leaves out.  [np.linalg.inv] stops with
    [LinAlgError] when the elimination meets a pivot that is exactly zero.
    Without rounding that is the case exactly when the determinant is
    zero, and so [inv] is written; in [float64] it is certain only for a
    matrix with a row or a column of zeros, and a singular matrix of
    another kind can pass with a rounding error for a pivot.  The
    statements on a raised [LinAlgError] are therefore made for matrices
    with a row of zeros.  Values are those of the exact operations: a
    [float64] run returns their roundings, and [np.exp] there overflows to
    +inf and underflows to 0. *)

From Stdlib Require Import Reals Lra Lia ZArith List String Bool.
From stdpp Require Import gmap strings.
Import ListNotations.
Open Scope R_scope.

(* ================================================================== *)
(** * Part I: definitions *)
(* ================================================================== *)

(** ** Floating-point values with the IEEE specials *)

Module Floats.

Inductive fval : Type :=
| Fin (r : R)
| PInf
| NInf
| NaN.

Definition isnan (v : fval) : bool :=
  match v with NaN => true | _ => false end.

Definition fneg (v : fval) : fval :=
  match v with
  | Fin r => Fin (- r)
  | PInf => NInf
  | NInf => PInf
  | NaN => NaN
  end.

Definition fadd (a b : fval) : fval :=
  match a, b with
  | NaN, _ | _, NaN => NaN
  | Fin x, Fin y => Fin (x + y)
  | PInf, NInf | NInf, PInf => NaN
  | PInf, _ | _, PInf => PInf
  | NInf, _ | _, NInf => NInf
  end.

Definition fsub (a b : fval) : fval := fadd a (fneg b).

(** sign of a real: [Gt] positive, [Lt] negative, [Eq] zero *)
Definition Rsign (x : R) : comparison :=
  if Rlt_dec 0 x then Gt else if Rlt_dec x 0 then Lt else Eq.

Definition signed_inf (pos : bool) : fval := if pos then PInf else NInf.

Definition inf_times (pos : bool) (x : R) : fval :=
  match Rsign x with
  | Gt => signed_inf pos
  | Lt => signed_inf (negb pos)
  | Eq => NaN
  end.

Definition fmul (a b : fval) : fval :=
  match a, b with
  | NaN, _ | _, NaN => NaN
  | Fin x, Fin y => Fin (x * y)
  | PInf, Fin y => inf_times true y
  | NInf, Fin y => inf_times false y
  | Fin x, PInf => inf_times true x
  | Fin x, NInf => inf_times false x
  | PInf, PInf | NInf, NInf => PInf
  | PInf, NInf | NInf, PInf => NInf
  end.

(** Division; a zero divisor is the positive zero (every divisor of the
    notebooks is a count). *)
Definition fdiv (a b : fval) : fval :=
  match a, b with
  | NaN, _ | _, NaN => NaN
  | Fin x, Fin y =>
      match Rsign y with
      | Eq => inf_times true x
      | _ => Fin (x / y)
      end
  | Fin _, _ => Fin 0
  | PInf, Fin y => match Rsign y with Lt => NInf | _ => PInf end
  | NInf, Fin y => match Rsign y with Lt => PInf | _ => NInf end
  | _, _ => NaN
  end.

Definition fsqrt (a : fval) : fval :=
  match a with
  | Fin x => match Rsign x with Lt => NaN | _ => Fin (sqrt x) end
  | PInf => PInf
  | _ => NaN
  end.

(** [np.sum] of a vector, accumulated from 0.0 *)
Definition fsum (l : list fval) : fval := fold_left fadd l (Fin 0).

(** [np.mean]: the sum divided by the number of items; the mean of an
    empty selection is 0.0/0 = nan. *)
Definition mean (l : list fval) : fval :=
  fdiv (fsum l) (Fin (INR (length l))).

(** [np.ceil] and [np.floor] followed by the conversion to an integer *)
Definition ceil (x : R) : Z := (1 - up (- x))%Z.
Definition floor (x : R) : Z := (up x - 1)%Z.

Definition Rltb (x y : R) : bool := if Rlt_dec x y then true else false.
Definition Reqb (x y : R) : bool := if Req_dec_T x y then true else false.

End Floats.
Export Floats.

(** ** Arrays: vectors are lists, 2-D arrays are lists of rows *)

Module Arrays.

Definition grid (A : Type) : Type := list (list A).

(** [np.shape] of a 2-D array *)
Definition nrows_of {A} (g : grid A) : nat := length g.
Definition ncols_of {A} (g : grid A) : nat :=
  match g with [] => 0%nat | r :: _ => length r end.

(** [np.ravel]: row-major flattening *)
Definition ravel {A} (g : grid A) : list A := concat g.

Definition grid_map2 {A B C} (f : A -> B -> C) (g : grid A) (h : grid B) : grid C :=
  map (fun rs => map (fun ab => f (fst ab) (snd ab)) (combine (fst rs) (snd rs)))
      (combine g h).

Definition grid_map {A B} (f : A -> B) (g : grid A) : grid B := map (map f) g.

(** [np.meshgrid(np.arange(0,ncols,1), np.arange(0,nrows,1))]:
    [xx[r][c] = c] and [yy[r][c] = r]. *)
Definition meshgrid_xx (nrows ncols : nat) : grid nat :=
  map (fun _ => seq 0 ncols) (seq 0 nrows).
Definition meshgrid_yy (nrows ncols : nat) : grid nat :=
  map (fun r => map (fun _ => r) (seq 0 ncols)) (seq 0 nrows).

(** transpose of a matrix given with its number of columns *)
Definition column {A} (d : A) (g : grid A) (j : nat) : list A :=
  map (fun row => nth j row d) g.
Definition transpose {A} (d : A) (ncols : nat) (g : grid A) : grid A :=
  map (column d g) (seq 0 ncols).

Definition dot (u v : list R) : R :=
  fold_left Rplus (map (fun ab => fst ab * snd ab) (combine u v)) 0.

(** [np.matmul(M, N)] with [N] given by its transpose [Nt] (the list of the
    columns of [N]): entry (i,j) is the dot product of row i of [M] and
    column j of [N]. *)
Definition matmul_cols (M Nt : grid R) : grid R :=
  map (fun row => map (fun col => dot row col) Nt) M.
Definition matvec (M : grid R) (v : list R) : list R :=
  map (fun row => dot row v) M.

(** a 2-D array of [nrows] rows and [ncols] columns *)
Definition is_shape {A} (nrows ncols : nat) (g : grid A) : Prop :=
  length g = nrows /\ Forall (fun r => length r = ncols) g.

(** element [g[i][j]] *)
Definition at2 {A} (d : A) (g : grid A) (i j : nat) : A := nth j (nth i g []) d.

End Arrays.
Export Arrays.

(** ** Exceptions *)

(** [LinAlgError], [ValueError] and [IndexError] are the exceptions that
    numpy and Python raise in the modelled cells.  [InsufficientDataError]
    is a name of the error taxonomy of the specification; no statement of
    the notebooks raises it. *)
Inductive exn : Type :=
| LinAlgError
| ValueError
| IndexError
| InsufficientDataError.

Definition result (A : Type) : Type := (exn + A)%type.

(** ** Cell 4: flatten the cropped interferogram *)

Module Detrend.

Definition pixel : Type := option R.

Definition isnan_px (p : pixel) : bool :=
  match p with None => true | Some _ => false end.

Definition px_lift2 (f : R -> R -> R) (a b : pixel) : pixel :=
  match a, b with
  | Some x, Some y => Some (f x y)
  | _, _ => None
  end.
Definition px_add : pixel -> pixel -> pixel := px_lift2 Rplus.
Definition px_sub : pixel -> pixel -> pixel := px_lift2 Rminus.
Definition px_mul : pixel -> pixel -> pixel := px_lift2 Rmult.

(** [xx = xx.astype('float'); xx[np.isnan(cropifg)] = np.nan] *)
Definition nan_out (coords : grid nat) (cropifg : grid pixel) : grid pixel :=
  grid_map2 (fun c p => if isnan_px p then None else Some (INR c)) coords cropifg.

(** [v = v.ravel(); v = v[~np.isnan(v)]] *)
Definition keep_valid (v : list pixel) : list R :=
  flat_map (fun p => match p with Some r => [r] | None => [] end) v.

(** determinant and adjugate of the 3x3 normal matrix *)
Definition m3 (M : grid R) (i j : nat) : R := at2 0 M i j.

Definition det3 (M : grid R) : R :=
  let a := m3 M 0 0 in let b := m3 M 0 1 in let c := m3 M 0 2 in
  let d := m3 M 1 0 in let e := m3 M 1 1 in let f := m3 M 1 2 in
  let g := m3 M 2 0 in let h := m3 M 2 1 in let i := m3 M 2 2 in
  a * (e * i - f * h) - b * (d * i - f * g) + c * (d * h - e * g).

Definition adj3 (M : grid R) : grid R :=
  let a := m3 M 0 0 in let b := m3 M 0 1 in let c := m3 M 0 2 in
  let d := m3 M 1 0 in let e := m3 M 1 1 in let f := m3 M 1 2 in
  let g := m3 M 2 0 in let h := m3 M 2 1 in let i := m3 M 2 2 in
  [ [ e * i - f * h; c * h - b * i; b * f - c * e ];
    [ f * g - d * i; a * i - c * g; c * d - a * f ];
    [ d * h - e * g; b * g - a * h; a * e - b * d ] ].

(** [np.linalg.inv] on a 3x3 matrix: raises [LinAlgError] ("Singular
    matrix") when the matrix has no inverse, and returns the inverse
    otherwise (computed without rounding; see the number model above). *)
Definition inv (M : grid R) : result (grid R) :=
  if Reqb (det3 M) 0 then inl LinAlgError
  else inr (grid_map (fun c => c / det3 M) (adj3 M)).

Record flattened : Type := {
  planeparams : list R;
  plane : grid pixel;
  flatcropifg : grid pixel
}.

(** the whole cell, from [nrows,ncols = np.shape(cropifg)] to
    [flatcropifg = cropifg-plane] *)
Definition flatten_crop (cropifg : grid pixel) : result flattened :=
  let nrows := nrows_of cropifg in
  let ncols := ncols_of cropifg in
  let xx := nan_out (meshgrid_xx nrows ncols) cropifg in
  let yy := nan_out (meshgrid_yy nrows ncols) cropifg in
  let xx1d := keep_valid (ravel xx) in
  let yy1d := keep_valid (ravel yy) in
  let cropifg1d := keep_valid (ravel cropifg) in
  (* A = np.vstack((np.ones_like(xx1d),xx1d,yy1d)).T ; [At] is A.T *)
  let At := [map (fun _ => 1) xx1d; xx1d; yy1d] in
  let ATA := matmul_cols At At in
  let ATd := matvec At cropifg1d in
  match inv ATA with
  | inl e => inl e
  | inr ATAinv =>
      let params := matvec ATAinv ATd in
      let p := fun k => Some (nth k params 0) in
      let pl :=
        grid_map2 (fun x y => px_add (px_add (p 0%nat) (px_mul x (p 1%nat)))
                                     (px_mul y (p 2%nat))) xx yy in
      inr {| planeparams := params;
             plane := pl;
             flatcropifg := grid_map2 px_sub cropifg pl |}
  end.

End Detrend.
Export Detrend.

(** ** The plane fit in the words of the specification *)

Module PlaneSpec.

(** the cells of a field with their indices: (row, column, pixel) *)
Definition cells (g : grid pixel) : grid (nat * nat * pixel) :=
  map (fun rr =>
         map (fun cp => (fst rr, fst cp, snd cp))
             (combine (seq 0 (length (snd rr))) (snd rr)))
      (combine (seq 0 (length g)) g).

Definition cell_row (x : nat * nat * pixel) : nat := fst (fst x).
Definition cell_col (x : nat * nat * pixel) : nat := snd (fst x).
Definition cell_val (x : nat * nat * pixel) : pixel := snd x.

(** the valid pixels, in row-major order: (row, column, value) *)
Definition valid_of (l : list (nat * nat * pixel)) : list (nat * nat * R) :=
  flat_map (fun x => match cell_val x with
                     | Some v => [(cell_row x, cell_col x, v)]
                     | None => []
                     end) l.
Definition valid_pixels (g : grid pixel) : list (nat * nat * R) :=
  valid_of (ravel (cells g)).

(** the row of the design matrix [A] of a valid pixel: [1, column, row] *)
Definition design_row (x : nat * nat * R) : list R :=
  [1; INR (snd (fst x)); INR (fst (fst x))].

Definition Rsum (l : list R) : R := fold_right Rplus 0 l.

(** entry (k,j) of [A^T A] and entry k of [A^T d] *)
Definition normal_matrix (vp : list (nat * nat * R)) (k j : nat) : R :=
  Rsum (map (fun x => nth k (design_row x) 0 * nth j (design_row x) 0) vp).
Definition normal_rhs (vp : list (nat * nat * R)) (k : nat) : R :=
  Rsum (map (fun x => nth k (design_row x) 0 * snd x) vp).

(** [m] solves the normal equations [(A^T A) m = A^T d] *)
Definition solves_normal (vp : list (nat * nat * R)) (m0 m1 m2 : R) : Prop :=
  forall k, (k < 3)%nat ->
    normal_matrix vp k 0 * m0 + normal_matrix vp k 1 * m1
    + normal_matrix vp k 2 * m2 = normal_rhs vp k.

Definition normal_det (vp : list (nat * nat * R)) : R :=
  let n := normal_matrix vp in
  n 0%nat 0%nat * (n 1%nat 1%nat * n 2%nat 2%nat - n 1%nat 2%nat * n 2%nat 1%nat)
  - n 0%nat 1%nat * (n 1%nat 0%nat * n 2%nat 2%nat - n 1%nat 2%nat * n 2%nat 0%nat)
  + n 0%nat 2%nat * (n 1%nat 0%nat * n 2%nat 1%nat - n 1%nat 1%nat * n 2%nat 0%nat).

(** the valid pixels all lie on one line [a + b*column + c*row = 0] *)
Definition on_one_line (vp : list (nat * nat * R)) : Prop :=
  exists a b c,
    (a <> 0 \/ b <> 0 \/ c <> 0)
    /\ forall x, In x vp -> a + b * INR (snd (fst x)) + c * INR (fst (fst x)) = 0.

(** the value of [a + b*column + c*row] at a valid pixel *)
Definition line_value (a b c : R) (x : nat * nat * R) : R :=
  a + b * INR (snd (fst x)) + c * INR (fst (fst x)).

(** the field minus the plane [m0 + m1*column + m2*row], pixel by pixel;
    a missing pixel stays missing *)
Definition minus_plane (m0 m1 m2 : R) (g : grid pixel) : grid pixel :=
  grid_map (fun x => match cell_val x with
                     | Some v => Some (v - (m0 + INR (cell_col x) * m1
                                            + INR (cell_row x) * m2))
                     | None => None
                     end) (cells g).

(** the normal matrix and right-hand side as 3x3 and 3x1 arrays *)
Definition N3 (vp : list (nat * nat * R)) : grid R :=
  map (fun k => map (fun j => normal_matrix vp k j) (seq 0 3)) (seq 0 3).
Definition rhs3 (vp : list (nat * nat * R)) : list R :=
  map (fun k => normal_rhs vp k) (seq 0 3).

(** what the plane subtracts in one cell *)
Definition plane_cell (params : list R) (x : nat * nat * pixel) : pixel :=
  if isnan_px (cell_val x) then None
  else Some (nth 0 params 0 + INR (cell_col x) * nth 1 params 0
             + INR (cell_row x) * nth 2 params 0).

Definition rectangular {A} (g : grid A) : Prop :=
  is_shape (nrows_of g) (ncols_of g) g.

End PlaneSpec.
Export PlaneSpec.

(** ** Cell 5: autocorrelation in the Fourier domain *)

Module Fourier.

(** complex numbers as (real part, imaginary part) *)
Abbreviation Cx := (R * R)%type (only parsing).

Definition RtoC (x : R) : Cx := (x, 0).
Definition Cadd (a b : Cx) : Cx := (fst a + fst b, snd a + snd b).
Definition Cmul (a b : Cx) : Cx :=
  (fst a * fst b - snd a * snd b, fst a * snd b + snd a * fst b).
Definition Cscale (k : R) (a : Cx) : Cx := (k * fst a, k * snd a).
Definition Csum (l : list Cx) : Cx := fold_left Cadd l (0, 0).

(** [exp(i t)] *)
Definition cis (t : R) : Cx := (cos t, sin t).

(** The discrete Fourier sum of a vector [x] of length [n]:
    [X[k] = sum_j x[j] * exp(sgn * 2 pi i * j * k / n)]. *)
Definition dft (sgn : R) (x : list Cx) : list Cx :=
  let n := length x in
  map (fun k =>
         Csum (map (fun jx =>
                      Cmul (snd jx)
                           (cis (sgn * (2 * PI * INR (fst jx) * INR k / INR n))))
                   (combine (seq 0 n) x)))
      (seq 0 n).

(** forward transform: exponent [-2 pi i j k / n], no scaling *)
Definition fft (x : list Cx) : list Cx := dft (-1) x.
(** inverse transform: exponent [+2 pi i j k / n], scaled by [1/n] *)
Definition ifft (x : list Cx) : list Cx :=
  map (Cscale (/ INR (length x))) (dft 1 x).

(** a 1-D transform applied along the rows, then along the columns *)
Definition along_both (t : list Cx -> list Cx) (g : grid Cx) : grid Cx :=
  let nrows := nrows_of g in
  let ncols := ncols_of g in
  transpose (0, 0) nrows (map t (transpose (0, 0) ncols (map t g))).

Definition fft2 : grid Cx -> grid Cx := along_both fft.
Definition ifft2 : grid Cx -> grid Cx := along_both ifft.

(** [np.roll(l, k)]: the last [k] items come first *)
Definition roll {A} (k : nat) (l : list A) : list A :=
  skipn (length l - k) l ++ firstn (length l - k) l.

(** [fftshift]: every axis is rolled by half its length, rounded down *)
Definition fftshift1 {A} (l : list A) : list A := roll (length l / 2) l.
Definition fftshift {A} (g : grid A) : grid A := fftshift1 (map fftshift1 g).

End Fourier.
Export Fourier.

Module Autocov.

(** *** The variables of the cell and the arrays they name

    A numpy array is an object: a variable holds a reference to it, and
    [b = a] makes [b] name the array that [a] names. *)

Definition loc : Type := nat.

Record pystate : Type := {
  env : gmap string loc;
  heap : gmap loc (grid pixel)
}.

Definition read_var (st : pystate) (x : string) : option (grid pixel) :=
  match env st !! x with
  | Some l => heap st !! l
  | None => None
  end.

(** [dst = src] *)
Definition assign_name (dst src : string) (st : pystate) : option pystate :=
  match env st !! src with
  | Some l => Some {| env := <[dst := l]> (env st); heap := heap st |}
  | None => None
  end.

(** [a[mask] = v] on the values of an array *)
Definition put_masked (v : pixel) (a : grid pixel) (mask : grid bool) : grid pixel :=
  grid_map2 (fun p (m : bool) => if m then v else p) a mask.

(** [dst[np.isnan(src)] = 0]: the array named [dst] is updated in place *)
Definition assign_where_nan (dst src : string) (st : pystate) : option pystate :=
  match read_var st src, env st !! dst with
  | Some s, Some l =>
      match heap st !! l with
      | Some a =>
          Some {| env := env st;
                  heap := <[l := put_masked (Some 0) a (grid_map isnan_px s)]> (heap st) |}
      | None => None
      end
  | _, _ => None
  end.

(** the state in which cell 5 starts: [flatcropifg] names the array that
    cell 4 made *)
Definition after_cell4 (flat : grid pixel) : pystate :=
  {| env := {[ "flatcropifg"%string := 0%nat ]};
     heap := {[ 0%nat := flat ]} |}.

(** [flatcropifgzeros=flatcropifg; flatcropifgzeros[np.isnan(flatcropifg)]=0] *)
Definition zero_fill_stmts (st : pystate) : option pystate :=
  match assign_name "flatcropifgzeros" "flatcropifg" st with
  | Some st1 => assign_where_nan "flatcropifgzeros" "flatcropifg" st1
  | None => None
  end.

(** the values of an array after [a[np.isnan(a)] = 0] *)
Definition nan_to_zero (g : grid pixel) : grid pixel :=
  grid_map (fun p => if isnan_px p then Some 0 else p) g.

(** the state after the two statements of the zero fill: both names are
    bound to the one array, which now holds zeros for the nan *)
Definition filled_state (flat : grid pixel) : pystate :=
  {| env := <[ "flatcropifgzeros"%string := 0%nat ]>
              {[ "flatcropifg"%string := 0%nat ]};
     heap := <[ 0%nat := nan_to_zero flat ]> {[ 0%nat := flat ]} |}.

(** *** The numerical part *)

Definition is_zero_px (p : pixel) : bool :=
  match p with Some r => Reqb r 0 | None => false end.

(** [np.count_nonzero]: nan counts as non-zero *)
Definition count_nonzero (g : grid pixel) : nat :=
  length (List.filter (fun p => negb (is_zero_px p)) (ravel g)).

(** the values of an array without nan, [None] if there is one *)
Fixpoint all_some {A} (l : list (option A)) : option (list A) :=
  match l with
  | [] => Some []
  | Some x :: r =>
      match all_some r with
      | Some xs => Some (x :: xs)
      | None => None
      end
  | None :: _ => None
  end.
Definition finite_grid (g : grid pixel) : option (grid R) :=
  all_some (map all_some g).

(** [fft2] ... [fftshift(np.real(autocorr_grid))], before the division *)
Definition shifted_autocorr (z : grid R) : grid R :=
  let fft_flatgrid := fft2 (grid_map RtoC z) in
  (* pspec = np.real(fft_flatgrid)**2 + np.imag(fft_flatgrid)**2 *)
  let pspec := grid_map (fun c => fst c ^ 2 + snd c ^ 2) fft_flatgrid in
  let autocorr_grid := ifft2 (grid_map RtoC pspec) in
  fftshift (grid_map fst autocorr_grid).

(** From [fft_flatgrid = fft2(flatcropifgzeros)] to the division by
    [np.count_nonzero(flatcropifgzeros)].  A nan in the transformed array
    makes every entry of the result nan. *)
Definition autocorr_of (flatcropifgzeros : grid pixel) : grid fval :=
  let n := Fin (INR (count_nonzero flatcropifgzeros)) in
  match finite_grid flatcropifgzeros with
  | Some z => grid_map (fun v => fdiv (Fin v) n) (shifted_autocorr z)
  | None => grid_map (fun _ => NaN) flatcropifgzeros
  end.

(** the cell up to [autocorr_grid]: the final state and the grid *)
Definition run_autocorr (st : pystate) : option (pystate * grid fval) :=
  match zero_fill_stmts st with
  | Some st1 =>
      match read_var st1 "flatcropifgzeros" with
      | Some z => Some (st1, autocorr_of z)
      | None => None
      end
  | None => None
  end.

(** [autocorr_grid], as the cell computes it from the detrended field *)
Definition autocorr_grid_of (flat : grid pixel) : option (grid fval) :=
  match run_autocorr (after_cell4 flat) with
  | Some (_, ac) => Some ac
  | None => None
  end.

(** *** Distances from the centre, flattening and truncation *)

Definition xcent (ncols : nat) : R := IZR (floor (INR ncols / 2)) + 1.
Definition ycent (nrows : nat) : R := IZR (floor (INR nrows / 2)) + 1.

Definition radial_dist (nrows ncols : nat) (pixsize : R) : grid R :=
  grid_map2 (fun x y =>
               sqrt ((INR x - xcent ncols) ^ 2 + (INR y - ycent nrows) ^ 2) * pixsize)
            (meshgrid_xx nrows ncols) (meshgrid_yy nrows ncols).

(** [rdlen=nrows+np.ceil(len(rd)/2); rdlen=int(rdlen)] *)
Definition rdlen (nrows len : nat) : nat :=
  Z.to_nat (Z.of_nat nrows + ceil (INR len / 2)).

(** [rd = np.ravel(radial_dist)] and its length *)
Definition rd_full (nrows ncols : nat) (pixsize : R) : list R :=
  ravel (radial_dist nrows ncols pixsize).

(** [rd = rd[0:rdlen]] and [acg= acg[0:rdlen]]: a Python slice stops at the
    end of the vector when [rdlen] is beyond it *)
Definition rd_of (nrows ncols : nat) (pixsize : R) : list R :=
  let rd := rd_full nrows ncols pixsize in
  firstn (rdlen nrows (length rd)) rd.
Definition acg_of (nrows ncols : nat) (pixsize : R) (autocorr_grid : grid fval)
  : list fval :=
  let rd := rd_full nrows ncols pixsize in
  firstn (rdlen nrows (length rd)) (ravel autocorr_grid).

End Autocov.
Export Autocov.

(** ** The autocovariance estimate in the words of the specification *)

Module AutocovSpec.

(** the field with its missing pixels filled with zero *)
Definition zero_filled (g : grid pixel) : grid R :=
  grid_map (fun p => match p with Some v => v | None => 0 end) g.

(** the number of valid (not missing) pixels of the field *)
Definition count_valid (g : grid pixel) : nat :=
  length (List.filter (fun p => negb (isnan_px p)) (ravel g)).

(** the number of valid pixels whose value is exactly zero *)
Definition count_valid_zero (g : grid pixel) : nat :=
  length (List.filter is_zero_px (ravel g)).

(** squared magnitude of a complex number *)
Definition sqmag (c : Cx) : R := fst c ^ 2 + snd c ^ 2.

(** Fourier transform of the zero-filled field, power spectrum, inverse
    transform, real part, shift, division by the count of valid pixels *)
Definition autocov_spec (g : grid pixel) : grid fval :=
  let spectrum := fft2 (grid_map RtoC (zero_filled g)) in
  let power := grid_map sqmag spectrum in
  let back := ifft2 (grid_map RtoC power) in
  let shifted := fftshift (grid_map fst back) in
  grid_map (fun v => fdiv (Fin v) (Fin (INR (count_valid g)))) shifted.

End AutocovSpec.
Export AutocovSpec.

(** ** Cell 6: radial average and the penalty functions *)

Module RadialProfile.

(** [v[mask]] with a boolean mask *)
Definition select {A} (mask : list bool) (v : list A) : list A :=
  map snd (List.filter (fun mv => fst mv) (combine mask v)).

(** [np.where(mask)]: the positions at which the mask holds *)
Definition np_where (mask : list bool) : list nat :=
  select mask (seq 0 (length mask)).

(** [v[idx]] with a vector of positions *)
Definition pick {A} (d : A) (v : list A) (idx : list nat) : list A :=
  map (fun i => nth i v d) idx.

Definition bin_width (pixsize : R) : R := pixsize * 2.

Definition maxdist (nrows ncols : nat) (pixsize : R) : R :=
  if Rltb (xcent ncols) (ycent nrows) then xcent ncols * pixsize
  else ycent nrows * pixsize.

(** [np.int32(np.ceil(rdtrunc/w))]; the quotient is the exact one (in
    [float64] a distance on the edge of a bin can come out one bin
    higher) *)
Definition rdbin_of (w : R) (rdtrunc : list R) : list Z :=
  map (fun r => ceil (r / w)) rdtrunc.

(** the samples of bin [b]: [acgtrunc[np.where(rdbin==b+1)]] *)
Definition bin_samples (rdbin : list Z) (acgtrunc : list fval) (b : nat) : list fval :=
  pick NaN acgtrunc (np_where (map (fun k => Z.eqb k (Z.of_nat b + 1)) rdbin)).

(** one turn of the averaging loop: rows are (distance, mean covariance);
    the loop runs over the rows that [np.zeros] made, so every write is in
    range *)
Definition average_bin (w : R) (rdbin : list Z) (acgtrunc : list fval)
  (cvdav : list (R * fval)) (b : nat) : list (R * fval) :=
  (* cvdav[b,1] = np.mean(acgtrunc[np.where(rdbin==b+1)]) *)
  let cvdav1 := <[b := (fst (nth b cvdav (0, NaN)), mean (bin_samples rdbin acgtrunc b))]> cvdav in
  (* cvdav[b,0] = b*w *)
  <[b := (INR b * w, snd (nth b cvdav1 (0, NaN)))]> cvdav1.

(** From [w = pixsize*2] to the end of the averaging loop.  [max] of an
    empty [rdbin] raises [ValueError]. *)
Definition radial_average (nrows ncols : nat) (pixsize : R)
  (rd : list R) (acg : list fval) : result (list (R * fval)) :=
  let w := bin_width pixsize in
  let md := maxdist nrows ncols pixsize in
  let keep := map (fun r => Rltb r md) rd in
  let rdtrunc := select keep rd in
  let acgtrunc := select keep acg in
  let rdbin := rdbin_of w rdtrunc in
  match rdbin with
  | [] => inl ValueError
  | k :: ks =>
      let mx := fold_left Z.max ks k in
      let cvdav := repeat (0, Fin 0) (Z.to_nat mx) in
      let maxbin := (mx - 1)%Z in
      inr (fold_left (average_bin w rdbin acgtrunc)
                     (seq 0 (Z.to_nat (maxbin + 1))) cvdav)
  end.

(** cells 5 and 6 together, from the autocorrelation grid *)
Definition profile_of (nrows ncols : nat) (pixsize : R) (autocorr_grid : grid fval)
  : result (list (R * fval)) :=
  radial_average nrows ncols pixsize
    (rd_of nrows ncols pixsize) (acg_of nrows ncols pixsize autocorr_grid).

End RadialProfile.
Export RadialProfile.

(** ** The radial average in the words of the specification *)

Module ProfileSpec.

(** the samples of the truncated vectors: (position, (distance, value)) *)
Definition samples (rd : list R) (acg : list fval) : list (nat * (R * fval)) :=
  combine (seq 0 (length rd)) (combine rd acg).

Definition s_pos (s : nat * (R * fval)) : nat := fst s.
Definition s_dist (s : nat * (R * fval)) : R := fst (snd s).
Definition s_val (s : nat * (R * fval)) : fval := snd (snd s).

(** the shorter half-dimension: [min(row_center, col_center) * pixel size] *)
Definition half_extent (nrows ncols : nat) (pixsize : R) : R :=
  Rmin (ycent nrows) (xcent ncols) * pixsize.

(** a sample closer to the centre than the shorter half-dimension *)
Definition within (nrows ncols : nat) (pixsize : R) (s : nat * (R * fval)) : bool :=
  Rltb (s_dist s) (half_extent nrows ncols pixsize).

(** the bin index of a sample for bins of twice the pixel size *)
Definition bin_index (pixsize : R) (s : nat * (R * fval)) : Z :=
  ceil (s_dist s / (2 * pixsize)).

(** the samples that pass the distance cut *)
Definition kept (nrows ncols : nat) (pixsize : R) (rd : list R) (acg : list fval)
  : list (nat * (R * fval)) :=
  List.filter (within nrows ncols pixsize) (samples rd acg).

(** the samples that are averaged into row [b] of the profile *)
Definition members (nrows ncols : nat) (pixsize : R) (rd : list R) (acg : list fval)
  (b : nat) : list (nat * (R * fval)) :=
  List.filter (fun s => within nrows ncols pixsize s
                        && Z.eqb (bin_index pixsize s) (Z.of_nat b + 1))
              (samples rd acg).

(** the position of the zero-lag entry on the shifted, flattened grid:
    [fftshift] moves index 0 of an axis of length n to index n/2 *)
Definition zero_lag_pos (nrows ncols : nat) : nat :=
  (nrows / 2 * ncols + ncols / 2)%nat.

End ProfileSpec.
Export ProfileSpec.

Module Fit.

(** [np.linalg.norm(eff,2)] of a vector: the square root of [eff . eff] *)
Definition norm2 (eff : list fval) : fval :=
  fsqrt (fsum (map (fun e => fmul e e) eff)).

Definition zip_with {A B C} (f : A -> B -> C) (u : list A) (v : list B) : list C :=
  map (fun ab => f (fst ab) (snd ab)) (combine u v).

(** [pendiffexp(params, cvdav)]; [cvdav[0,1]] and [params[0]] raise
    [IndexError] on an empty array *)
Definition pendiffexp (params : list R) (cvdav : list (R * fval)) : result fval :=
  match cvdav, params with
  | (_, a) :: _, b :: _ =>
      let eff :=
        zip_with fsub (map snd cvdav)
                 (map (fun r => fmul a (Fin (exp (- b * r)))) (map fst cvdav)) in
      inr (norm2 eff)
  | _, _ => inl IndexError
  end.

(** [pendiffexpcos(params, cvdav)] *)
Definition pendiffexpcos (params : list R) (cvdav : list (R * fval)) : result fval :=
  match cvdav, params with
  | (_, a) :: _, b :: c :: _ =>
      let eff :=
        zip_with fsub (map snd cvdav)
                 (map (fun r => fmul (fmul a (Fin (exp (- b * r)))) (Fin (cos (c * r))))
                      (map fst cvdav)) in
      inr (norm2 eff)
  | _, _ => inl IndexError
  end.




Section Minimize.

(** [scipy.optimize.minimize(fun, x0, args)]: the search is not modelled;
    it receives the penalty function and the trial solution and returns
    the final simplex point or iterate. *)
Variable minimize : (list R -> result fval) -> list R -> list R.




End Minimize.

End Fit.
Export Fit.

(** ** The fits in the words of the specification *)

Module FitSpec.



(** the residuals of a model over the rows (distance, value) of a profile *)
Definition residuals (model : R -> fval) (cvdav : list (R * fval)) : list fval :=
  map (fun row => fsub (snd row) (model (fst row))) cvdav.


End FitSpec.
Export FitSpec.

(** ** The variance-covariance matrix and its pseudoinverse *)

Module CovMatrix.

(** [xx1, xx2 = np.meshgrid(x,x)]: [xx1[i][j] = x[j]], [xx2[i][j] = x[i]] *)
Definition mesh1 (x : list R) : grid R := map (fun _ => x) x.
Definition mesh2 (x : list R) : grid R := map (fun xi => map (fun _ => xi) x) x.

(** [x=data[:,0]*1000] and [y=data[:,1]*1000]; a row of [data] starts with
    the two coordinates in km *)
Definition xs_of (data : list (R * R)) : list R := map (fun p => fst p * 1000) data.
Definition ys_of (data : list (R * R)) : list R := map (fun p => snd p * 1000) data.

(** [rgrid = np.sqrt((xx1-xx2)**2+(yy1-yy2)**2)] *)
Definition rgrid (x y : list R) : grid R :=
  grid_map2 (fun dx dy => sqrt (dx ^ 2 + dy ^ 2))
            (grid_map2 Rminus (mesh1 x) (mesh2 x))
            (grid_map2 Rminus (mesh1 y) (mesh2 y)).

(** [E = maxvar*np.exp(-alpha*rgrid)*np.cos(beta*rgrid)] *)
Definition covariance (maxvar alpha beta : R) (x y : list R) : grid R :=
  grid_map (fun r => maxvar * exp (- alpha * r) * cos (beta * r)) (rgrid x y).

(** the distance in metres of two points given in km, and the covariance
    function, as the specification words them *)
Definition distance_m (p q : R * R) : R :=
  sqrt ((fst q * 1000 - fst p * 1000) ^ 2 + (snd q * 1000 - snd p * 1000) ^ 2).
Definition expcos (maxvar alpha beta r : R) : R :=
  maxvar * exp (- alpha * r) * cos (beta * r).

(** all pairs of points, row by row *)
Definition pairs (data : list (R * R)) : grid ((R * R) * (R * R)) :=
  map (fun p => map (fun q => (p, q)) data) data.

(** [np.matmul(M, N)] of two 2-D arrays *)
Definition matmul (M N : grid R) : grid R :=
  matmul_cols M (transpose 0 (ncols_of N) N).

(** *** [np.linalg.pinv]

    Modelled from numpy's documentation and source of [np.linalg.pinv]
    (the routine is not part of the repository):
    [u, s, vt = svd(a, full_matrices=False)];
    [cutoff = rcond * amax(s)]; the singular values above the cutoff are
    inverted, the others set to zero;
    [res = matmul(transpose(vt), multiply(s[..., newaxis], transpose(u)))].
    The decomposition itself is LAPACK's; it enters as the triple
    [(u, s, vt)] with the contract that numpy documents for it. *)

Definition amax (s : list R) : R := fold_left Rmax (tl s) (hd 0 s).

Definition inverted (rcond : R) (s : list R) : list R :=
  map (fun sv => if Rltb (rcond * amax s) sv then 1 / sv else 0) s.

Definition pinv_from (rcond : R) (u : grid R) (s : list R) (vt : grid R) : grid R :=
  (* multiply(s[..., newaxis], transpose(u)), given by its columns *)
  let su_cols := map (fun urow => map (fun p => fst p * snd p)
                                      (combine (inverted rcond s) urow)) u in
  matmul_cols (transpose 0 (ncols_of vt) vt) su_cols.

(** a singular value as it survives [E @ pinv(E) @ E]: kept above the
    cutoff, dropped otherwise *)
Definition surviving (rcond : R) (s : list R) (k : nat) : R :=
  if Rltb (rcond * amax s) (nth k s 0) then nth k s 0 else 0.

(** sum of [f k] for [k < n] *)
Definition sum_upto (n : nat) (f : nat -> R) : R :=
  fold_right Rplus 0 (map f (seq 0 n)).

Definition kronecker (k l : nat) : R := if Nat.eqb k l then 1 else 0.

(** the contract of [np.linalg.svd] on an n x n matrix:
    [a = u @ diag(s) @ vt], [u] and [vt] orthogonal, [s] non-negative *)
Record is_svd (n : nat) (a u : grid R) (s : list R) (vt : grid R) : Prop := {
  svd_shape_u : is_shape n n u;
  svd_shape_vt : is_shape n n vt;
  svd_length_s : length s = n;
  svd_nonneg : forall k, (k < n)%nat -> 0 <= nth k s 0;
  svd_product : forall i j, (i < n)%nat -> (j < n)%nat ->
      at2 0 a i j
      = sum_upto n (fun k => at2 0 u i k * nth k s 0 * at2 0 vt k j);
  svd_u_cols : forall k l, (k < n)%nat -> (l < n)%nat ->
      sum_upto n (fun i => at2 0 u i k * at2 0 u i l) = kronecker k l;
  svd_u_rows : forall i j, (i < n)%nat -> (j < n)%nat ->
      sum_upto n (fun k => at2 0 u i k * at2 0 u j k) = kronecker i j;
  svd_vt_rows : forall k l, (k < n)%nat -> (l < n)%nat ->
      sum_upto n (fun j => at2 0 vt k j * at2 0 vt l j) = kronecker k l;
  svd_vt_cols : forall i j, (i < n)%nat -> (j < n)%nat ->
      sum_upto n (fun k => at2 0 vt k i * at2 0 vt k j) = kronecker i j
}.

End CovMatrix.
Export CovMatrix.


(** ** Sample inputs *)

Module Samples.

Definition field_2x2 : grid pixel := [[Some 1; Some 2]; [Some 3; Some 5]].

(** a field of [nrows] by [ncols] pixels, all of one value *)
Definition constant_field {A} (nrows ncols : nat) (v : A) : grid A :=
  repeat (repeat v ncols) nrows.

Definition zero_one : grid pixel := [[Some 0; Some 1]].
(** a crop with a masked pixel, and its three valid pixels after the
    plane through them has been subtracted *)
Definition crop_with_gap : grid pixel := [[None; Some 1]; [Some 2; Some 4]].
Definition flat_with_gap : grid pixel := [[None; Some 0]; [Some 0; Some 0]].

(** a crop of one column *)
Definition column_2x1 : grid pixel := [[Some 1]; [Some 2]].


(** two observation points at one place, and the singular value
    decomposition of their covariance matrix [[1, 1], [1, 1]] *)
Definition twin_points : list (R * R) := [(0, 0); (0, 0)].
Definition twin_u : grid R :=
  [[/ sqrt 2; / sqrt 2]; [/ sqrt 2; - / sqrt 2]].
Definition twin_s : list R := [2; 0].

End Samples.
Export Samples.


(** ** Proof automation *)

(** equality of lists, pairs and wrapped reals, down to the real numbers *)
Ltac down_to_reals :=
  repeat match goal with
         | |- _ :: _ = _ :: _ => apply f_equal2
         | |- (_, _) = (_, _) => apply f_equal2
         | |- @nil _ = @nil _ => reflexivity
         | |- @None _ = @None _ => reflexivity
         | |- Some _ = Some _ => apply f_equal
         | |- Fin _ = Fin _ => apply f_equal
         end.

(** ** Cell 3: the masks and the crop *)

Module MaskCrop.

(** [a < t] on floats: [False] where [a] is nan *)
Definition px_ltb (p : pixel) (t : R) : bool :=
  match p with Some v => Rltb v t | None => false end.

(** [ifg[mask] = np.nan] with a boolean array [mask]: numpy raises
    [IndexError] when the mask has not the shape of the array *)
Definition mask_out (ifg : grid pixel) (mask : grid bool) : result (grid pixel) :=
  if bool_decide (map (@length bool) mask = map (@length pixel) ifg)
  then inr (put_masked None ifg mask)
  else inl IndexError.

(** [if use_water_mask==True: ifg[msk<1]=np.nan] and
    [ifg[cor<cor_thresh]=np.nan] *)
Definition apply_masks (use_water_mask : bool) (cor_thresh : R)
  (ifg msk cor : grid pixel) : result (grid pixel) :=
  match (if use_water_mask
         then mask_out ifg (grid_map (fun m => px_ltb m 1) msk)
         else inr ifg) with
  | inl e => inl e
  | inr ifg1 => mask_out ifg1 (grid_map (fun c => px_ltb c cor_thresh) cor)
  end.

(** A bound of a Python slice on a sequence of [n] items: a negative bound
    counts from the end, and the bound is clipped to [0, n]. *)
Definition slice_bound (n : nat) (i : Z) : nat :=
  Z.to_nat (Z.min (Z.max (if (i <? 0)%Z then i + Z.of_nat n else i) 0) (Z.of_nat n)).

(** [l[lo:hi]] *)
Definition py_slice {A} (lo hi : Z) (l : list A) : list A :=
  let start := slice_bound (length l) lo in
  let stop := slice_bound (length l) hi in
  firstn (stop - start) (skipn start l).

(** [nrows=corfile.RasterYSize; if ymax==-1: ymax=nrows;
    cropifg=ifg[ymin:ymax,xmin:xmax]] *)
Definition crop (ymin ymax xmin xmax : Z) (cor ifg : grid pixel) : grid pixel :=
  let nrows := nrows_of cor in
  let ymax1 := if (ymax =? -1)%Z then Z.of_nat nrows else ymax in
  map (py_slice xmin xmax) (py_slice ymin ymax1 ifg).

End MaskCrop.
Export MaskCrop.

(** ** Cells 6 and 7: the e-folding value and distance *)

Module EFold.

(** [a < b] on floats: [False] when one of them is nan *)
Definition fltb (a b : fval) : bool :=
  match a, b with
  | NaN, _ | _, NaN => false
  | Fin x, Fin y => Rltb x y
  | NInf, NInf | PInf, _ | _, NInf => false
  | NInf, _ | _, PInf => true
  end.

(** [np.abs] *)
Definition fabs (a : fval) : fval :=
  match a with
  | Fin x => Fin (Rabs x)
  | PInf | NInf => PInf
  | NaN => NaN
  end.

(** [np.max] of a vector: nan when an entry is nan; [ValueError] on an
    empty vector *)
Definition fmax2 (a b : fval) : fval :=
  if isnan a then NaN else if isnan b then NaN else if fltb a b then b else a.
Definition np_max (l : list fval) : result fval :=
  match l with
  | [] => inl ValueError
  | x :: r => inr (fold_left fmax2 r x)
  end.

(** [argmin] of a vector, as numpy scans it: an entry replaces the best one
    so far when it is not [>=] it (so when it is smaller, or nan), and the
    scan stops at the first nan. *)
Definition replaces (x best : fval) : bool :=
  match best with
  | NaN => false
  | _ => match x with NaN => true | _ => fltb x best end
  end.
Fixpoint argmin_from (i besti : nat) (best : fval) (l : list fval) : nat :=
  match l with
  | [] => besti
  | x :: r =>
      if replaces x best then argmin_from (S i) i x r
      else argmin_from (S i) besti best r
  end.
Definition argmin (l : list fval) : result nat :=
  match l with
  | [] => inl ValueError
  | x :: r => inr (argmin_from 1 0 x r)
  end.

(** [maxacg=np.max(acg)], [efold=maxacg/np.exp(1)],
    [idx = (np.abs(cvdav[:,1]-efold)).argmin()] and the printed pair
    [(efold, cvdav[idx,0])] *)
Definition efold_index (acg : list fval) (cvdav : list (R * fval))
  : result (fval * nat) :=
  match np_max acg with
  | inl e => inl e
  | inr maxacg =>
      let efold := fdiv maxacg (Fin (exp 1)) in
      match argmin (map (fun row => fabs (fsub (snd row) efold)) cvdav) with
      | inl e => inl e
      | inr idx => inr (efold, idx)
      end
  end.
Definition efold_distance (acg : list fval) (cvdav : list (R * fval))
  : result (fval * R) :=
  match efold_index acg cvdav with
  | inl e => inl e
  | inr (efold, idx) => inr (efold, fst (nth idx cvdav (0, NaN)))
  end.

End EFold.
Export EFold.

(** ** Cell 5: the autocorrelation in the spatial domain

    The notebook computes the autocorrelation in the Fourier domain ("fast")
    and names the spatial domain as the other way ("slow").  These are the
    sums of the spatial domain, against which the Fourier route is
    compared. *)

Module Lags.

(** sum of [f r c] over the cells of a grid of [nrows] by [ncols] *)
Definition sum2 (nrows ncols : nat) (f : nat -> nat -> R) : R :=
  sum_upto nrows (fun r => sum_upto ncols (fun c => f r c)).

(** The circular autocorrelation of a field at lag ([p] rows, [q]
    columns): every pixel times the pixel [p] rows down and [q] columns to
    the right, the grid being wrapped around at its edges. *)
Definition circular_autocorr (z : grid R) (p q : nat) : R :=
  sum2 (nrows_of z) (ncols_of z)
       (fun r c => at2 0 z r c
                   * at2 0 z ((r + p) mod nrows_of z) ((c + q) mod ncols_of z)).

(** the sum of the squares of a field *)
Definition sum_of_squares (z : grid R) : R :=
  sum2 (nrows_of z) (ncols_of z) (fun r c => at2 0 z r c * at2 0 z r c).

(** 1 when [n] divides [a], else 0 *)
Definition divides_ind (n : nat) (a : Z) : R :=
  if (a mod Z.of_nat n =? 0)%Z then 1 else 0.

(** the angle of the two-dimensional Fourier kernel that links cell
    (r, c) of one grid to cell (u, v) of the other *)
Definition grid_angle (sgn : R) (nrows ncols r c u v : nat) : R :=
  sgn * (2 * PI * INR r * INR u / INR nrows)
  + sgn * (2 * PI * INR c * INR v / INR ncols).

(** [np.real(ifft2(pspec))]: the autocorrelation before [fftshift] *)
Definition unshifted_autocorr (z : grid R) : grid R :=
  let fft_flatgrid := fft2 (grid_map RtoC z) in
  let pspec := grid_map (fun c => fst c ^ 2 + snd c ^ 2) fft_flatgrid in
  grid_map fst (ifft2 (grid_map RtoC pspec)).

End Lags.
Export Lags.

(** ** The perturbed data sets

    The notebook "Make perturbed data sets" builds the same matrix as [E]
    ([vcm]) and adds correlated noise to the phases:
    [Z = np.random.normal(0,1,[N,n])], [V = np.linalg.cholesky(vcm)],
    [X = np.matmul(Z,V)], [X = X.T],
    [temp, manypha = np.meshgrid(np.ones(N),pha)], [pha_pets = manypha+X].
    The draws [Z] are an input of the model.  [np.linalg.cholesky] is
    LAPACK's; as numpy documents it, it returns the lower-triangular factor
    [L] with [L @ L.T = vcm]. *)

Module Perturb.

Record is_cholesky (n : nat) (a v : grid R) : Prop := {
  chol_shape : is_shape n n v;
  chol_lower : forall i j, (i < j)%nat -> (j < n)%nat -> at2 0 v i j = 0;
  chol_product : forall i j, (i < n)%nat -> (j < n)%nat ->
      at2 0 a i j = sum_upto n (fun k => at2 0 v i k * at2 0 v j k)
}.

(** [X = np.matmul(Z,V); X = X.T] *)
Definition noise (Z V : grid R) : grid R :=
  let X := matmul Z V in
  transpose 0 (ncols_of X) X.

(** [temp, manypha = np.meshgrid(np.ones(N),pha)]: [manypha[j][i] = pha[j]] *)
Definition manypha (N : nat) (pha : list R) : grid R :=
  map (fun p => map (fun _ => p) (seq 0 N)) pha.

(** [pha_pets = manypha+X], [N] being the number of rows of [Z] *)
Definition pha_pets (Z V : grid R) (pha : list R) : grid R :=
  grid_map2 Rplus (manypha (nrows_of Z) pha) (noise Z V).

End Perturb.
Export Perturb.

(** ** Further sample inputs *)

Module Cases.

(** two observation points 5 km apart, and the lower Cholesky factor of
    their covariance matrix [[1, c], [c, 1]], [c = exp(-5)], for
    [maxvar = 1], [alpha = 1/1000] and [beta = 0] *)
Definition two_points : list (R * R) := [(0, 0); (3, 4)].
Definition two_points_chol : grid R :=
  [[1; 0]; [exp (- 5); sqrt (1 - exp (- 5) * exp (- 5))]].

End Cases.
Export Cases.

(* ================================================================== *)
(** * Part II: properties *)
(* ================================================================== *)

(** ** Rounding to integers *)

Section Rounding.

Lemma ceil_spec (x : R) : IZR (ceil x) - 1 < x <= IZR (ceil x).
Proof.
  unfold ceil. destruct (archimed (- x)) as [H1 H2].
  rewrite minus_IZR. lra.
Qed.

Lemma ceil_unique (x : R) (k : Z) : IZR k - 1 < x <= IZR k -> ceil x = k.
Proof.
  intros [H1 H2]. destruct (ceil_spec x) as [H3 H4].
  assert (Ha : (ceil x < k + 1)%Z) by (apply lt_IZR; rewrite plus_IZR; lra).
  assert (Hb : (k < ceil x + 1)%Z) by (apply lt_IZR; rewrite plus_IZR; lra).
  lia.
Qed.

Lemma floor_spec (x : R) : IZR (floor x) <= x < IZR (floor x) + 1.
Proof.
  unfold floor. destruct (archimed x) as [H1 H2].
  rewrite minus_IZR. lra.
Qed.

Lemma floor_unique (x : R) (k : Z) : IZR k <= x < IZR k + 1 -> floor x = k.
Proof.
  intros [H1 H2]. destruct (floor_spec x) as [H3 H4].
  assert (Ha : (floor x < k + 1)%Z) by (apply lt_IZR; rewrite plus_IZR; lra).
  assert (Hb : (k < floor x + 1)%Z) by (apply lt_IZR; rewrite plus_IZR; lra).
  lia.
Qed.

Lemma half_cases (n : nat) :
  (n = 2 * (n / 2) \/ n = 2 * (n / 2) + 1)%nat.
Proof.
  pose proof (Nat.div_mod_eq n 2) as H.
  pose proof (Nat.mod_upper_bound n 2 ltac:(lia)) as H'. lia.
Qed.

Lemma floor_half (n : nat) : floor (INR n / 2) = Z.of_nat (n / 2).
Proof.
  apply floor_unique. rewrite <- INR_IZR_INZ.
  destruct (half_cases n) as [H | H]; rewrite H at 2 3;
    [ rewrite mult_INR | rewrite plus_INR, mult_INR ]; simpl INR; lra.
Qed.

Lemma ceil_half (n : nat) : ceil (INR n / 2) = Z.of_nat ((n + 1) / 2).
Proof.
  apply ceil_unique. rewrite <- INR_IZR_INZ.
  assert (Hk : ((n + 1) / 2 = n / 2 /\ n = 2 * (n / 2)
             \/ (n + 1) / 2 = n / 2 + 1 /\ n = 2 * (n / 2) + 1)%nat).
  { pose proof (Nat.div_mod_eq n 2). pose proof (Nat.div_mod_eq (n + 1) 2).
    pose proof (Nat.mod_upper_bound n 2 ltac:(lia)).
    pose proof (Nat.mod_upper_bound (n + 1) 2 ltac:(lia)). lia. }
  destruct Hk as [[H1 H2] | [H1 H2]]; rewrite H1; rewrite H2 at 2 3.
  - rewrite mult_INR. simpl INR. lra.
  - rewrite !plus_INR, mult_INR. simpl INR. lra.
Qed.

Lemma rdlen_nat (nrows len : nat) : rdlen nrows len = (nrows + (len + 1) / 2)%nat.
Proof. unfold rdlen. rewrite ceil_half. lia. Qed.

End Rounding.

(** ** Shapes of the arrays *)

Section Shapes.

Lemma combine_map_same {X A B} (f : X -> A) (g : X -> B) (l : list X) :
  combine (map f l) (map g l) = map (fun x => (f x, g x)) l.
Proof. induction l as [| x l IH]; simpl; [reflexivity | now rewrite IH]. Qed.

(** a grid built over both coordinate grids, cell by cell *)
Lemma grid_map2_mesh {C} (f : nat -> nat -> C) (nrows ncols : nat) :
  grid_map2 f (meshgrid_xx nrows ncols) (meshgrid_yy nrows ncols)
  = map (fun r => map (fun c => f c r) (seq 0 ncols)) (seq 0 nrows).
Proof.
  unfold grid_map2, meshgrid_xx, meshgrid_yy.
  rewrite combine_map_same, map_map.
  apply map_ext. intros r. simpl.
  rewrite <- (map_id (seq 0 ncols)) at 1.
  rewrite combine_map_same, map_map. reflexivity.
Qed.

Lemma length_concat_rows {A} (g : grid A) (c : nat) :
  Forall (fun r => length r = c) g -> length (concat g) = (length g * c)%nat.
Proof.
  induction 1 as [| r g Hr _ IH]; simpl; [reflexivity |].
  rewrite length_app, IH, Hr. reflexivity.
Qed.

Lemma map_const_repeat {X Y} (y : Y) (l : list X) :
  map (fun _ => y) l = repeat y (length l).
Proof. induction l; simpl; congruence. Qed.

End Shapes.

Lemma radial_dist_cells (nrows ncols : nat) (pixsize : R) :
  radial_dist nrows ncols pixsize
  = map (fun r => map (fun c =>
        sqrt ((INR c - xcent ncols) ^ 2 + (INR r - ycent nrows) ^ 2) * pixsize)
        (seq 0 ncols)) (seq 0 nrows).
Proof. unfold radial_dist. apply grid_map2_mesh. Qed.

Lemma radial_dist_shape (nrows ncols : nat) (pixsize : R) :
  is_shape nrows ncols (radial_dist nrows ncols pixsize).
Proof.
  rewrite radial_dist_cells. split.
  - now rewrite length_map, length_seq.
  - apply List.Forall_forall. intros row Hin. apply in_map_iff in Hin.
    destruct Hin as [r [<- _]]. now rewrite length_map, length_seq.
Qed.

Lemma length_ravel {A} (nrows ncols : nat) (g : grid A) :
  is_shape nrows ncols g -> length (ravel g) = (nrows * ncols)%nat.
Proof.
  intros [Hn Hc]. unfold ravel. rewrite (length_concat_rows g ncols Hc).
  now rewrite Hn.
Qed.

Lemma length_rd_full (nrows ncols : nat) (pixsize : R) :
  length (rd_full nrows ncols pixsize) = (nrows * ncols)%nat.
Proof. apply length_ravel, radial_dist_shape. Qed.

(** ** C6: the truncation of the flattened grids *)

Section Truncation.

Lemma length_rd_of (nrows ncols : nat) (pixsize : R) :
  length (rd_of nrows ncols pixsize)
  = Nat.min (nrows + (nrows * ncols + 1) / 2) (nrows * ncols).
Proof.
  unfold rd_of. rewrite length_firstn, length_rd_full, rdlen_nat. reflexivity.
Qed.

Lemma length_acg_of (nrows ncols : nat) (pixsize : R) (g : grid fval) :
  is_shape nrows ncols g ->
  length (acg_of nrows ncols pixsize g)
  = Nat.min (nrows + (nrows * ncols + 1) / 2) (nrows * ncols).
Proof.
  intros Hg. unfold acg_of.
  rewrite length_firstn, length_rd_full, rdlen_nat, (length_ravel _ _ _ Hg).
  reflexivity.
Qed.

Lemma cut_fits (nrows ncols : nat) :
  (2 <= ncols)%nat ->
  (nrows + (nrows * ncols + 1) / 2 <= nrows * ncols)%nat.
Proof.
  intros Hc.
  pose proof (Nat.div_mod_eq (nrows * ncols + 1) 2) as Hd.
  pose proof (Nat.mod_upper_bound (nrows * ncols + 1) 2 ltac:(lia)) as Hm.
  nia.
Qed.

(** C6: on a grid with a row and two columns or more (a crop of one
    column does not pass the plane fit of cell 4), the flattened distances
    and the flattened autocorrelation are both cut to their first
    [rows + ceil(len/2)] entries, [len = rows * columns] being the length
    of either vector; the cut lies within the vectors, and it keeps more
    than the half [ceil(len/2)] of the entries. *)
Theorem truncation_length (nrows ncols : nat) (pixsize : R) (g : grid fval) :
  is_shape nrows ncols g -> (1 <= nrows)%nat -> (2 <= ncols)%nat ->
  let len := (nrows * ncols)%nat in
  let half := Z.to_nat (ceil (INR len / 2)) in
  let cut := (nrows + half)%nat in
  length (ravel (radial_dist nrows ncols pixsize)) = len
  /\ length (ravel g) = len
  /\ rd_of nrows ncols pixsize = firstn cut (ravel (radial_dist nrows ncols pixsize))
  /\ acg_of nrows ncols pixsize g = firstn cut (ravel g)
  /\ length (rd_of nrows ncols pixsize) = cut
  /\ length (acg_of nrows ncols pixsize g) = cut
  /\ (len <= 2 * half <= len + 1)%nat
  /\ (half < cut <= len)%nat.
Proof.
  intros Hg Hr Hc len half cut.
  assert (Hhalf : half = ((len + 1) / 2)%nat).
  { unfold half. rewrite ceil_half. lia. }
  assert (Hcut : rdlen nrows len = cut).
  { rewrite rdlen_nat. unfold cut. now rewrite Hhalf. }
  pose proof (cut_fits nrows ncols Hc) as Hfit. fold len in Hfit.
  rewrite <- Hhalf in Hfit.
  pose proof (length_rd_full nrows ncols pixsize) as Hlen. fold len in Hlen.
  pose proof (length_ravel nrows ncols g Hg) as Hleng. fold len in Hleng.
  split; [exact Hlen |]. split; [exact Hleng |].
  assert (Hrd : rd_of nrows ncols pixsize
                = firstn cut (ravel (radial_dist nrows ncols pixsize))).
  { unfold rd_of. cbv zeta. rewrite Hlen, Hcut. reflexivity. }
  assert (Hacg : acg_of nrows ncols pixsize g = firstn cut (ravel g)).
  { unfold acg_of. cbv zeta. rewrite Hlen, Hcut. reflexivity. }
  split; [exact Hrd |]. split; [exact Hacg |].
  split; [rewrite Hrd, length_firstn; unfold rd_full in Hlen; lia |].
  split; [rewrite Hacg, length_firstn; lia |].
  split.
  - rewrite Hhalf. pose proof (Nat.div_mod_eq (len + 1) 2) as Hd.
    pose proof (Nat.mod_upper_bound (len + 1) 2 ltac:(lia)) as Hm. lia.
  - unfold cut. lia.
Qed.

Lemma truncation_length_witness :
  let g := constant_field 3 3 (Fin 1) in
  rd_of 3 3 30 = firstn 8 (ravel (radial_dist 3 3 30))
  /\ acg_of 3 3 30 g = firstn 8 (ravel g)
  /\ length (ravel g) = 9%nat
  /\ length (acg_of 3 3 30 g) = 8%nat.
Proof.
  intros g.
  assert (Hs : is_shape 3 3 g) by (split; [reflexivity | repeat constructor]).
  assert (Hh : Z.to_nat (ceil (INR (3 * 3) / 2)) = 5%nat).
  { rewrite ceil_half. reflexivity. }
  destruct (truncation_length 3 3 30 g Hs ltac:(lia) ltac:(lia))
    as (_ & Hlen & Hrd & Hacg & _ & Hcut & _).
  rewrite Hh in Hrd, Hacg, Hcut.
  split; [exact Hrd |]. split; [exact Hacg |]. split; [exact Hlen | exact Hcut].
Defined.

End Truncation.

(** ** Cell 4: the grids of the plane fit, cell by cell *)

Section CellViews.

Lemma grid_map2_same {X A B C} (f : A -> B -> C) (a : X -> A) (b : X -> B)
  (G : grid X) :
  grid_map2 f (grid_map a G) (grid_map b G) = grid_map (fun x => f (a x) (b x)) G.
Proof.
  unfold grid_map2, grid_map. rewrite combine_map_same, map_map.
  apply map_ext. intros row. simpl. now rewrite combine_map_same, map_map.
Qed.

Lemma grid_map_map {X Y Z} (f : X -> Y) (h : Y -> Z) (G : grid X) :
  grid_map h (grid_map f G) = grid_map (fun x => h (f x)) G.
Proof.
  unfold grid_map. rewrite map_map. apply map_ext. intros row. apply map_map.
Qed.

Lemma ravel_grid_map {X Y} (f : X -> Y) (G : grid X) :
  ravel (grid_map f G) = map f (ravel G).
Proof. unfold ravel, grid_map. now rewrite concat_map. Qed.

Lemma map_combine_seq {B C} (F : nat * B -> C) (G : nat -> C) (g : list B) :
  forall s, (forall i b, In b g -> F (i, b) = G i) ->
  map F (combine (seq s (length g)) g) = map G (seq s (length g)).
Proof.
  induction g as [| b g IH]; intros s HF; simpl; [reflexivity |].
  rewrite (HF s b (or_introl eq_refl)). f_equal.
  apply IH. intros i b' Hin. apply HF. now right.
Qed.

Lemma map_snd_combine_seq {B} (g : list B) :
  forall s, map snd (combine (seq s (length g)) g) = g.
Proof.
  induction g as [| b g IH]; intros s; simpl; [reflexivity |]. now rewrite IH.
Qed.

Lemma cells_val (g : grid pixel) : grid_map cell_val (cells g) = g.
Proof.
  unfold grid_map, cells. rewrite map_map.
  rewrite <- (map_snd_combine_seq g 0%nat) at 3.
  apply map_ext. intros [r row]. simpl. rewrite map_map. simpl.
  apply map_snd_combine_seq.
Qed.

Lemma cells_col (g : grid pixel) :
  rectangular g ->
  grid_map cell_col (cells g) = meshgrid_xx (nrows_of g) (ncols_of g).
Proof.
  intros [_ Hc]. unfold grid_map, cells, meshgrid_xx, nrows_of.
  rewrite map_map. apply map_combine_seq.
  intros i row Hin. simpl. rewrite map_map. simpl.
  rewrite List.Forall_forall in Hc. rewrite <- (Hc row Hin).
  rewrite <- (map_id (seq 0 (length row))) at 2.
  apply map_combine_seq. reflexivity.
Qed.

Lemma cells_row (g : grid pixel) :
  rectangular g ->
  grid_map cell_row (cells g) = meshgrid_yy (nrows_of g) (ncols_of g).
Proof.
  intros [_ Hc]. unfold grid_map, cells, meshgrid_yy, nrows_of.
  rewrite map_map. apply map_combine_seq.
  intros i row Hin. simpl. rewrite map_map. simpl.
  rewrite List.Forall_forall in Hc. rewrite <- (Hc row Hin).
  apply map_combine_seq. reflexivity.
Qed.

(** [xx] and [yy] after the nan have been written into them *)
Lemma nan_out_cells (coord : nat * nat * pixel -> nat) (g : grid pixel) :
  nan_out (grid_map coord (cells g)) g
  = grid_map (fun x => if isnan_px (cell_val x) then None else Some (INR (coord x)))
             (cells g).
Proof.
  unfold nan_out. rewrite <- (cells_val g) at 2. apply grid_map2_same.
Qed.

Lemma keep_valid_coord (k : nat -> nat -> R) (l : list (nat * nat * pixel)) :
  keep_valid (map (fun x => if isnan_px (cell_val x) then None
                            else Some (k (cell_row x) (cell_col x))) l)
  = map (fun y => k (fst (fst y)) (snd (fst y))) (valid_of l).
Proof.
  unfold keep_valid, valid_of.
  induction l as [| [[r c] [v |]] l IH]; simpl; [reflexivity | | exact IH].
  now rewrite IH.
Qed.

Lemma keep_valid_vals (l : list (nat * nat * pixel)) :
  keep_valid (map cell_val l) = map snd (valid_of l).
Proof.
  unfold keep_valid, valid_of.
  induction l as [| [[r c] [v |]] l IH]; simpl; [reflexivity | | exact IH].
  now rewrite IH.
Qed.

End CellViews.

Section NormalEquations.

Lemma fold_left_Rplus (l : list R) (a : R) : fold_left Rplus l a = a + Rsum l.
Proof.
  revert a. induction l as [| x l IH]; intros a; simpl; [lra |].
  rewrite IH. lra.
Qed.

Lemma Rsum_zeros {X} (f : X -> R) (l : list X) :
  (forall x, In x l -> f x = 0) -> Rsum (map f l) = 0.
Proof.
  induction l as [| x l IH]; intros H; simpl; [reflexivity |].
  rewrite (H x (or_introl eq_refl)), IH; [lra |].
  intros y Hy. apply H. now right.
Qed.

Lemma dot_Rsum {X} (f h : X -> R) (l : list X) :
  dot (map f l) (map h l) = Rsum (map (fun x => f x * h x) l).
Proof.
  unfold dot. rewrite combine_map_same, map_map, fold_left_Rplus. simpl. lra.
Qed.

Lemma flatten_crop_unfold (g : grid pixel) :
  rectangular g ->
  flatten_crop g =
  match inv (N3 (valid_pixels g)) with
  | inl e => inl e
  | inr ATAinv =>
      let params := matvec ATAinv (rhs3 (valid_pixels g)) in
      inr {| planeparams := params;
             plane := grid_map (plane_cell params) (cells g);
             flatcropifg :=
               minus_plane (nth 0 params 0) (nth 1 params 0) (nth 2 params 0) g |}
  end.
Proof.
  intros Hrect. unfold flatten_crop.
  rewrite <- (cells_col g Hrect), <- (cells_row g Hrect), !nan_out_cells.
  rewrite !ravel_grid_map.
  rewrite (keep_valid_coord (fun _ c => INR c)), (keep_valid_coord (fun r _ => INR r)).
  replace (ravel g) with (ravel (grid_map cell_val (cells g)))
    by now rewrite cells_val.
  rewrite ravel_grid_map, keep_valid_vals.
  fold (valid_pixels g). set (vp := valid_pixels g).
  rewrite map_map.
  assert (HA : matmul_cols
                 [map (fun _ => 1) vp; map (fun y => INR (snd (fst y))) vp;
                  map (fun y => INR (fst (fst y))) vp]
                 [map (fun _ => 1) vp; map (fun y => INR (snd (fst y))) vp;
                  map (fun y => INR (fst (fst y))) vp] = N3 vp).
  { unfold matmul_cols, N3, normal_matrix. simpl.
    rewrite !dot_Rsum. reflexivity. }
  assert (Hd : matvec
                 [map (fun _ => 1) vp; map (fun y => INR (snd (fst y))) vp;
                  map (fun y => INR (fst (fst y))) vp] (map snd vp) = rhs3 vp).
  { unfold matvec, rhs3, normal_rhs. simpl. rewrite !dot_Rsum. reflexivity. }
  rewrite HA, Hd. destruct (inv (N3 vp)) as [e | Ai]; [reflexivity |].
  cbv zeta. f_equal.
  set (params := matvec Ai (rhs3 vp)).
  assert (Hpl : grid_map2
      (fun x y => px_add (px_add (Some (nth 0 params 0)) (px_mul x (Some (nth 1 params 0))))
                         (px_mul y (Some (nth 2 params 0))))
      (grid_map (fun x => if isnan_px (cell_val x) then None else Some (INR (cell_col x)))
                (cells g))
      (grid_map (fun x => if isnan_px (cell_val x) then None else Some (INR (cell_row x)))
                (cells g))
      = grid_map (plane_cell params) (cells g)).
  { rewrite grid_map2_same. unfold grid_map. apply map_ext. intros row.
    apply map_ext. intros x. unfold plane_cell.
    destruct (isnan_px (cell_val x)); reflexivity. }
  rewrite Hpl. f_equal.
  replace (grid_map2 px_sub g) with (grid_map2 px_sub (grid_map cell_val (cells g)))
    by now rewrite cells_val.
  rewrite grid_map2_same.
  unfold minus_plane, grid_map. apply map_ext. intros row.
  apply map_ext. intros x. unfold plane_cell.
  destruct (cell_val x); reflexivity.
Qed.

End NormalEquations.

Section PlaneFit.

Lemma det3_N3 (vp : list (nat * nat * R)) : det3 (N3 vp) = normal_det vp.
Proof. reflexivity. Qed.

Lemma Reqb_true (x y : R) : Reqb x y = true <-> x = y.
Proof. unfold Reqb. destruct (Req_dec_T x y); split; congruence. Qed.

Lemma Reqb_false (x y : R) : Reqb x y = false <-> x <> y.
Proof. unfold Reqb. destruct (Req_dec_T x y); split; congruence. Qed.

Lemma inv_singular (vp : list (nat * nat * R)) :
  normal_det vp = 0 -> inv (N3 vp) = inl LinAlgError.
Proof.
  intros H. unfold inv. rewrite det3_N3.
  now rewrite (proj2 (Reqb_true _ _) H).
Qed.

Lemma inv_regular (vp : list (nat * nat * R)) :
  normal_det vp <> 0 ->
  exists Ai m0 m1 m2,
    inv (N3 vp) = inr Ai /\ matvec Ai (rhs3 vp) = [m0; m1; m2]
    /\ solves_normal vp m0 m1 m2.
Proof.
  intros H. unfold inv. rewrite det3_N3, (proj2 (Reqb_false _ _) H).
  eexists. do 3 eexists. split; [reflexivity |]. split.
  - unfold matvec, adj3, grid_map, rhs3. simpl map. reflexivity.
  - unfold solves_normal, dot, m3, at2. simpl.
    unfold normal_det in H.
    set (a := normal_matrix vp 0 0) in *. set (b := normal_matrix vp 0 1) in *.
    set (c := normal_matrix vp 0 2) in *. set (d := normal_matrix vp 1 0) in *.
    set (e := normal_matrix vp 1 1) in *. set (f := normal_matrix vp 1 2) in *.
    set (p := normal_matrix vp 2 0) in *. set (q := normal_matrix vp 2 1) in *.
    set (r := normal_matrix vp 2 2) in *.
    set (u := normal_rhs vp 0). set (v := normal_rhs vp 1). set (w := normal_rhs vp 2).
    intros k Hk.
    destruct k as [| [| [| k]]]; [| | | lia]; cbv zeta in H |- *.
    all: unfold normal_det; cbv zeta; fold a b c d e f p q r u v w.
    all: field; exact H.
Qed.

(** with a regular normal matrix the normal equations have one solution *)
Lemma solves_normal_unique (vp : list (nat * nat * R)) (m0 m1 m2 n0 n1 n2 : R) :
  normal_det vp <> 0 ->
  solves_normal vp m0 m1 m2 -> solves_normal vp n0 n1 n2 ->
  m0 = n0 /\ m1 = n1 /\ m2 = n2.
Proof.
  intros H Hm Hn. unfold normal_det in H. cbv zeta in H.
  pose proof (Hm 0%nat ltac:(lia)) as M0. pose proof (Hm 1%nat ltac:(lia)) as M1.
  pose proof (Hm 2%nat ltac:(lia)) as M2.
  pose proof (Hn 0%nat ltac:(lia)) as E0. pose proof (Hn 1%nat ltac:(lia)) as E1.
  pose proof (Hn 2%nat ltac:(lia)) as E2.
  set (a := normal_matrix vp 0 0) in *. set (b := normal_matrix vp 0 1) in *.
  set (c := normal_matrix vp 0 2) in *. set (d := normal_matrix vp 1 0) in *.
  set (e := normal_matrix vp 1 1) in *. set (f := normal_matrix vp 1 2) in *.
  set (p := normal_matrix vp 2 0) in *. set (q := normal_matrix vp 2 1) in *.
  set (r := normal_matrix vp 2 2) in *.
  set (D := a * (e * r - f * q) - b * (d * r - f * p) + c * (d * q - e * p)) in *.
  assert (Z0 : a * (m0 - n0) + b * (m1 - n1) + c * (m2 - n2) = 0) by lra.
  assert (Z1 : d * (m0 - n0) + e * (m1 - n1) + f * (m2 - n2) = 0) by lra.
  assert (Z2 : p * (m0 - n0) + q * (m1 - n1) + r * (m2 - n2) = 0) by lra.
  set (x := m0 - n0) in *. set (y := m1 - n1) in *. set (z := m2 - n2) in *.
  assert (X : D * x = 0).
  { replace (D * x) with
      ((e * r - f * q) * (a * x + b * y + c * z)
       + (c * q - b * r) * (d * x + e * y + f * z)
       + (b * f - c * e) * (p * x + q * y + r * z)) by (unfold D; ring).
    rewrite Z0, Z1, Z2. ring. }
  assert (Y : D * y = 0).
  { replace (D * y) with
      ((f * p - d * r) * (a * x + b * y + c * z)
       + (a * r - c * p) * (d * x + e * y + f * z)
       + (c * d - a * f) * (p * x + q * y + r * z)) by (unfold D; ring).
    rewrite Z0, Z1, Z2. ring. }
  assert (Z : D * z = 0).
  { replace (D * z) with
      ((d * q - e * p) * (a * x + b * y + c * z)
       + (b * p - a * q) * (d * x + e * y + f * z)
       + (a * e - b * d) * (p * x + q * y + r * z)) by (unfold D; ring).
    rewrite Z0, Z1, Z2. ring. }
  apply Rmult_integral in X, Y, Z.
  destruct X as [X | X]; [contradiction |].
  destruct Y as [Y | Y]; [contradiction |].
  destruct Z as [Z | Z]; [contradiction |].
  unfold x, y, z in *. lra.
Qed.

End PlaneFit.

(** ** When the normal matrix is singular *)

Section Collinear.

Variable vp : list (nat * nat * R).

(** row [k] of [(A^T A) v] is the sum of [A[.,k] * (A v)] *)
Lemma normal_row (a b c : R) (k : nat) :
  normal_matrix vp k 0 * a + normal_matrix vp k 1 * b + normal_matrix vp k 2 * c
  = Rsum (map (fun x => nth k (design_row x) 0 * line_value a b c x) vp).
Proof.
  unfold normal_matrix, line_value.
  induction vp as [| x l IH]; simpl in *; [ring |].
  rewrite <- IH. ring.
Qed.

(** [v^T (A^T A) v] is the sum of the squares of [A v] *)
Lemma normal_quadratic (a b c : R) :
  Rsum (map (fun x => line_value a b c x * line_value a b c x) vp)
  = a * (normal_matrix vp 0 0 * a + normal_matrix vp 0 1 * b + normal_matrix vp 0 2 * c)
    + b * (normal_matrix vp 1 0 * a + normal_matrix vp 1 1 * b + normal_matrix vp 1 2 * c)
    + c * (normal_matrix vp 2 0 * a + normal_matrix vp 2 1 * b + normal_matrix vp 2 2 * c).
Proof.
  rewrite !normal_row. unfold line_value.
  induction vp as [| x l IH]; simpl in *; [ring |].
  rewrite IH. ring.
Qed.

Lemma normal_matrix_sym (k j : nat) : normal_matrix vp k j = normal_matrix vp j k.
Proof.
  unfold normal_matrix. f_equal. apply map_ext. intros x. ring.
Qed.

Lemma normal_matrix_00 : normal_matrix vp 0 0 = INR (length vp).
Proof.
  unfold normal_matrix. induction vp as [| x l IH]; [reflexivity |].
  cbn [map Rsum fold_right length]. unfold Rsum in IH. rewrite IH, S_INR.
  simpl. ring.
Qed.

Lemma squares_vanish (f : nat * nat * R -> R) (l : list (nat * nat * R)) :
  Rsum (map (fun x => f x * f x) l) = 0 -> forall x, In x l -> f x = 0.
Proof.
  assert (Hpos : forall l', 0 <= Rsum (map (fun x => f x * f x) l')).
  { induction l' as [| y l' IH]; simpl; [lra |]. nra. }
  induction l as [| y l IH]; intros H x Hin; [contradiction |].
  simpl in H. pose proof (Hpos l) as Hl.
  assert (Hy : f y * f y = 0) by nra.
  destruct Hin as [<- | Hin].
  - apply Rmult_integral in Hy. tauto.
  - apply IH; [nra | exact Hin].
Qed.

(** a vector that the normal matrix maps to zero puts the pixels on a line *)
Lemma null_vector_line (a b c : R) :
  (forall k, (k < 3)%nat ->
     normal_matrix vp k 0 * a + normal_matrix vp k 1 * b
     + normal_matrix vp k 2 * c = 0) ->
  forall x, In x vp -> line_value a b c x = 0.
Proof.
  intros H. apply squares_vanish. rewrite normal_quadratic.
  rewrite (H 0%nat), (H 1%nat), (H 2%nat) by lia. ring.
Qed.

Lemma line_singular : on_one_line vp -> normal_det vp = 0.
Proof.
  intros (a & b & c & Hne & Hline).
  assert (Hrow : forall k,
            normal_matrix vp k 0 * a + normal_matrix vp k 1 * b
            + normal_matrix vp k 2 * c = 0).
  { intros k. rewrite normal_row.
    assert (Hz : map (fun x => nth k (design_row x) 0 * line_value a b c x) vp
                 = map (fun _ => 0) vp).
    { apply map_ext_in. intros x Hx. unfold line_value. rewrite (Hline x Hx). ring. }
    rewrite Hz. clear. induction vp as [| x l IH]; [reflexivity |].
    cbn [map Rsum fold_right]. unfold Rsum in IH. rewrite IH. ring. }
  pose proof (Hrow 0%nat) as Z0. pose proof (Hrow 1%nat) as Z1.
  pose proof (Hrow 2%nat) as Z2.
  unfold normal_det. cbv zeta.
  set (n00 := normal_matrix vp 0 0) in *. set (n01 := normal_matrix vp 0 1) in *.
  set (n02 := normal_matrix vp 0 2) in *. set (n10 := normal_matrix vp 1 0) in *.
  set (n11 := normal_matrix vp 1 1) in *. set (n12 := normal_matrix vp 1 2) in *.
  set (n20 := normal_matrix vp 2 0) in *. set (n21 := normal_matrix vp 2 1) in *.
  set (n22 := normal_matrix vp 2 2) in *.
  set (D := n00 * (n11 * n22 - n12 * n21) - n01 * (n10 * n22 - n12 * n20)
            + n02 * (n10 * n21 - n11 * n20)).
  assert (X : D * a = 0).
  { replace (D * a) with
      ((n11 * n22 - n12 * n21) * (n00 * a + n01 * b + n02 * c)
       + (n02 * n21 - n01 * n22) * (n10 * a + n11 * b + n12 * c)
       + (n01 * n12 - n02 * n11) * (n20 * a + n21 * b + n22 * c)) by (unfold D; ring).
    rewrite Z0, Z1, Z2. ring. }
  assert (Y : D * b = 0).
  { replace (D * b) with
      ((n12 * n20 - n10 * n22) * (n00 * a + n01 * b + n02 * c)
       + (n00 * n22 - n02 * n20) * (n10 * a + n11 * b + n12 * c)
       + (n02 * n10 - n00 * n12) * (n20 * a + n21 * b + n22 * c)) by (unfold D; ring).
    rewrite Z0, Z1, Z2. ring. }
  assert (Z : D * c = 0).
  { replace (D * c) with
      ((n10 * n21 - n11 * n20) * (n00 * a + n01 * b + n02 * c)
       + (n01 * n20 - n00 * n21) * (n10 * a + n11 * b + n12 * c)
       + (n00 * n11 - n01 * n10) * (n20 * a + n21 * b + n22 * c)) by (unfold D; ring).
    rewrite Z0, Z1, Z2. ring. }
  apply Rmult_integral in X, Y, Z.
  destruct X as [X | X]; [exact X |]. destruct Y as [Y | Y]; [exact Y |].
  destruct Z as [Z | Z]; [exact Z |]. tauto.
Qed.

Lemma singular_line : normal_det vp = 0 -> on_one_line vp.
Proof.
  intros HD. unfold normal_det in HD. cbv zeta in HD.
  pose proof (normal_matrix_sym 0 1) as S01. pose proof (normal_matrix_sym 0 2) as S02.
  pose proof (normal_matrix_sym 1 2) as S12.
  pose proof normal_matrix_00 as H00.
  assert (Hcand : forall a b c,
            (a <> 0 \/ b <> 0 \/ c <> 0) ->
            (forall k, (k < 3)%nat ->
               normal_matrix vp k 0 * a + normal_matrix vp k 1 * b
               + normal_matrix vp k 2 * c = 0) ->
            on_one_line vp).
  { intros a b c Hne Hnull. exists a, b, c. split; [exact Hne |].
    intros x Hx. apply (null_vector_line a b c Hnull x Hx). }
  set (n00 := normal_matrix vp 0 0) in *. set (n01 := normal_matrix vp 0 1) in *.
  set (n02 := normal_matrix vp 0 2) in *. set (n10 := normal_matrix vp 1 0) in *.
  set (n11 := normal_matrix vp 1 1) in *. set (n12 := normal_matrix vp 1 2) in *.
  set (n20 := normal_matrix vp 2 0) in *. set (n21 := normal_matrix vp 2 1) in *.
  set (n22 := normal_matrix vp 2 2) in *.
  assert (Hk : forall (P : nat -> Prop), P 0%nat -> P 1%nat -> P 2%nat ->
                 forall k, (k < 3)%nat -> P k).
  { intros P P0 P1 P2 k Hk. destruct k as [| [| [| k]]]; try assumption. lia. }
  (* a column of the adjugate that is not zero *)
  destruct (Req_dec_T (n11 * n22 - n12 * n21) 0) as [A00 | A00];
    [| apply (Hcand (n11 * n22 - n12 * n21) (n12 * n20 - n10 * n22)
                    (n10 * n21 - n11 * n20)); [tauto |];
       apply Hk; fold n00 n01 n02 n10 n11 n12 n20 n21 n22; nra].
  destruct (Req_dec_T (n12 * n20 - n10 * n22) 0) as [A10 | A10];
    [| apply (Hcand (n11 * n22 - n12 * n21) (n12 * n20 - n10 * n22)
                    (n10 * n21 - n11 * n20)); [tauto |];
       apply Hk; fold n00 n01 n02 n10 n11 n12 n20 n21 n22; nra].
  destruct (Req_dec_T (n10 * n21 - n11 * n20) 0) as [A20 | A20];
    [| apply (Hcand (n11 * n22 - n12 * n21) (n12 * n20 - n10 * n22)
                    (n10 * n21 - n11 * n20)); [tauto |];
       apply Hk; fold n00 n01 n02 n10 n11 n12 n20 n21 n22; nra].
  destruct (Req_dec_T (n02 * n21 - n01 * n22) 0) as [A01 | A01];
    [| apply (Hcand (n02 * n21 - n01 * n22) (n00 * n22 - n02 * n20)
                    (n01 * n20 - n00 * n21)); [tauto |];
       apply Hk; fold n00 n01 n02 n10 n11 n12 n20 n21 n22; nra].
  destruct (Req_dec_T (n00 * n22 - n02 * n20) 0) as [A11 | A11];
    [| apply (Hcand (n02 * n21 - n01 * n22) (n00 * n22 - n02 * n20)
                    (n01 * n20 - n00 * n21)); [tauto |];
       apply Hk; fold n00 n01 n02 n10 n11 n12 n20 n21 n22; nra].
  destruct (Req_dec_T (n01 * n20 - n00 * n21) 0) as [A21 | A21];
    [| apply (Hcand (n02 * n21 - n01 * n22) (n00 * n22 - n02 * n20)
                    (n01 * n20 - n00 * n21)); [tauto |];
       apply Hk; fold n00 n01 n02 n10 n11 n12 n20 n21 n22; nra].
  destruct (Req_dec_T (n01 * n12 - n02 * n11) 0) as [A02 | A02];
    [| apply (Hcand (n01 * n12 - n02 * n11) (n02 * n10 - n00 * n12)
                    (n00 * n11 - n01 * n10)); [tauto |];
       apply Hk; fold n00 n01 n02 n10 n11 n12 n20 n21 n22; nra].
  destruct (Req_dec_T (n02 * n10 - n00 * n12) 0) as [A12 | A12];
    [| apply (Hcand (n01 * n12 - n02 * n11) (n02 * n10 - n00 * n12)
                    (n00 * n11 - n01 * n10)); [tauto |];
       apply Hk; fold n00 n01 n02 n10 n11 n12 n20 n21 n22; nra].
  destruct (Req_dec_T (n00 * n11 - n01 * n10) 0) as [A22 | A22];
    [| apply (Hcand (n01 * n12 - n02 * n11) (n02 * n10 - n00 * n12)
                    (n00 * n11 - n01 * n10)); [tauto |];
       apply Hk; fold n00 n01 n02 n10 n11 n12 n20 n21 n22; nra].
  (* the adjugate is zero: the matrix has rank one at most *)
  destruct (Req_dec_T n00 0) as [Z00 | Z00].
  - exists 1, 0, 0. split; [left; lra |].
    intros x Hx. rewrite H00 in Z00.
    replace 0 with (INR 0) in Z00 by reflexivity. apply INR_eq in Z00.
    apply length_zero_iff_nil in Z00. rewrite Z00 in Hx. contradiction.
  - apply (Hcand n01 (- n00) 0); [right; left; lra |].
    apply Hk; fold n00 n01 n02 n10 n11 n12 n20 n21 n22; nra.
Qed.

(** the normal matrix is singular exactly when the valid pixels lie on
    one line *)
Lemma normal_det_line : normal_det vp = 0 <-> on_one_line vp.
Proof. split; [apply singular_line | apply line_singular]. Qed.

End Collinear.

(** ** C2 and C9: the plane fit *)

Section PlaneFitClaims.

Lemma few_pixels_singular (vp : list (nat * nat * R)) :
  (length vp < 3)%nat -> normal_det vp = 0.
Proof.
  intros H.
  destruct vp as [| [[r1 c1] v1] [| [[r2 c2] v2] [| x vp]]]; simpl in H; try lia;
    unfold normal_det, normal_matrix; simpl; ring.
Qed.

(** C2, as the code has it: on a field whose valid pixels do not all lie
    on one line (so there are three of them at least), the cell returns
    coefficients (offset, x-slope, y-slope) that solve the normal equations
    [(A^T A) m = A^T d] over the valid pixels, they are the only solution,
    and the returned field is the input minus
    [offset + x-slope*column + y-slope*row] in every pixel. *)
Theorem plane_fit_normal_equations (g : grid pixel) :
  rectangular g ->
  ~ on_one_line (valid_pixels g) ->
  exists m0 m1 m2 pl,
    flatten_crop g = inr {| planeparams := [m0; m1; m2]; plane := pl;
                            flatcropifg := minus_plane m0 m1 m2 g |}
    /\ solves_normal (valid_pixels g) m0 m1 m2
    /\ (forall n0 n1 n2, solves_normal (valid_pixels g) n0 n1 n2 ->
                         n0 = m0 /\ n1 = m1 /\ n2 = m2)
    /\ (3 <= length (valid_pixels g))%nat.
Proof.
  intros Hrect Hline.
  assert (Hdet : normal_det (valid_pixels g) <> 0).
  { intros H. apply Hline. now apply normal_det_line. }
  rewrite (flatten_crop_unfold g Hrect).
  destruct (inv_regular _ Hdet) as (Ai & m0 & m1 & m2 & Hinv & Hm & Hsol).
  rewrite Hinv. cbv zeta. rewrite Hm. simpl nth.
  exists m0, m1, m2. eexists. split; [reflexivity |]. split; [exact Hsol |]. split.
  - intros n0 n1 n2 Hn.
    apply (solves_normal_unique (valid_pixels g)); assumption.
  - destruct (Nat.lt_ge_cases (length (valid_pixels g)) 3) as [Hfew | Hok];
      [| exact Hok].
    exfalso. apply Hdet. now apply few_pixels_singular.
Qed.

(** without rounding, a singular normal matrix (pixels on one line) makes
    [np.linalg.inv] raise *)
Lemma plane_fit_singular (g : grid pixel) :
  rectangular g ->
  normal_det (valid_pixels g) = 0 ->
  flatten_crop g = inl LinAlgError.
Proof.
  intros Hrect Hdet. rewrite (flatten_crop_unfold g Hrect).
  now rewrite (inv_singular _ Hdet).
Qed.

(** the result of the cell from a solution of the normal equations *)
Lemma flatten_crop_solution (g : grid pixel) (m0 m1 m2 : R) :
  rectangular g ->
  normal_det (valid_pixels g) <> 0 ->
  solves_normal (valid_pixels g) m0 m1 m2 ->
  exists pl,
    flatten_crop g = inr {| planeparams := [m0; m1; m2]; plane := pl;
                            flatcropifg := minus_plane m0 m1 m2 g |}.
Proof.
  intros Hrect Hdet Hsol. rewrite (flatten_crop_unfold g Hrect).
  destruct (inv_regular _ Hdet) as (Ai & n0 & n1 & n2 & Hinv & Hm & Hn).
  rewrite Hinv. cbv zeta. rewrite Hm. simpl nth.
  destruct (solves_normal_unique _ m0 m1 m2 n0 n1 n2 Hdet Hsol Hn) as (E0 & E1 & E2).
  subst n0 n1 n2. eexists. reflexivity.
Qed.

Lemma rectangular_intro {A} (g : grid A) :
  Forall (fun r => length r = ncols_of g) g -> rectangular g.
Proof. intros H. split; [reflexivity | exact H]. Qed.

Lemma field_2x2_regular : normal_det (valid_pixels field_2x2) <> 0.
Proof.
  unfold normal_det, normal_matrix, field_2x2. simpl. lra.
Qed.

Lemma field_2x2_not_on_line : ~ on_one_line (valid_pixels field_2x2).
Proof.
  intros H. apply field_2x2_regular. now apply normal_det_line.
Qed.

Lemma plane_fit_normal_equations_witness :
  exists m0 m1 m2 pl,
    flatten_crop field_2x2
    = inr {| planeparams := [m0; m1; m2]; plane := pl;
             flatcropifg := minus_plane m0 m1 m2 field_2x2 |}
    /\ solves_normal (valid_pixels field_2x2) m0 m1 m2
    /\ (forall n0 n1 n2, solves_normal (valid_pixels field_2x2) n0 n1 n2 ->
                         n0 = m0 /\ n1 = m1 /\ n2 = m2)
    /\ (3 <= length (valid_pixels field_2x2))%nat.
Proof.
  apply plane_fit_normal_equations.
  - apply rectangular_intro. repeat constructor.
  - exact field_2x2_not_on_line.
Defined.

(** C2 as stated fails on three valid pixels in one row: the normal matrix
    is singular and the cell raises instead of returning coefficients. *)
Lemma plane_fit_three_in_a_row :
  let g : grid pixel := [[Some 1; Some 2; Some 3]] in
  (3 <= length (valid_pixels g))%nat
  /\ ~ (exists res, flatten_crop g = inr res).
Proof.
  intros g. split; [simpl; lia |].
  intros [res Hres].
  rewrite plane_fit_singular in Hres; [discriminate | |].
  - apply rectangular_intro. repeat constructor.
  - unfold normal_det, normal_matrix, g. simpl. lra.
Qed.

(** the only exception of the cell is the one of [np.linalg.inv] *)
Lemma flatten_crop_exception (g : grid pixel) (e : exn) :
  flatten_crop g = inl e -> e = LinAlgError.
Proof.
  unfold flatten_crop, inv. cbv zeta.
  destruct (Reqb _ 0); intros H; [now injection H | discriminate].
Qed.

(** valid pixels that all lie in the first row, or all in the first
    column, of the field: the normal matrix has a row and a column of
    zeros, and [np.linalg.inv] raises *)
Lemma plane_fit_first_row_or_column (g : grid pixel) :
  rectangular g ->
  (forall x, In x (valid_pixels g) -> fst (fst x) = 0%nat)
  \/ (forall x, In x (valid_pixels g) -> snd (fst x) = 0%nat) ->
  flatten_crop g = inl LinAlgError.
Proof.
  intros Hrect Hzero. apply plane_fit_singular; [exact Hrect |].
  apply line_singular. destruct Hzero as [Hrow | Hcol].
  - exists 0, 0, 1. split; [right; right; lra |].
    intros x Hx. rewrite (Hrow x Hx). simpl. ring.
  - exists 0, 1, 0. split; [right; left; lra |].
    intros x Hx. rewrite (Hcol x Hx). simpl. ring.
Qed.

(** a valid pixel lies within the shape of the field *)
Lemma valid_pixels_in_range (g : grid pixel) (x : nat * nat * R) :
  rectangular g -> In x (valid_pixels g) ->
  (fst (fst x) < nrows_of g)%nat /\ (snd (fst x) < ncols_of g)%nat.
Proof.
  intros [_ Hcols] Hin. unfold valid_pixels, valid_of in Hin.
  apply in_flat_map in Hin. destruct Hin as (y & Hy & Hx).
  unfold ravel in Hy. apply in_concat in Hy. destruct Hy as (row & Hrow & Hy).
  unfold cells in Hrow. apply in_map_iff in Hrow. destruct Hrow as (rr & <- & Hrr).
  apply in_map_iff in Hy. destruct Hy as (cp & <- & Hcp).
  destruct rr as [r row0], cp as [c p]. cbn [fst snd] in *.
  pose proof (in_combine_l _ _ _ _ Hrr) as Hr. apply in_seq in Hr.
  pose proof (in_combine_r _ _ _ _ Hrr) as Hg.
  pose proof (in_combine_l _ _ _ _ Hcp) as Hc. apply in_seq in Hc.
  rewrite List.Forall_forall in Hcols. rewrite (Hcols _ Hg) in Hc.
  unfold cell_val, cell_row, cell_col in Hx. cbn [fst snd] in Hx.
  destruct p; [| contradiction].
  destruct Hx as [<- | []]. cbn [fst snd]. unfold nrows_of. lia.
Qed.

(** a crop of one row or of one column does not pass the cell: all its
    pixels are in the first row or in the first column *)
Lemma thin_crop_raises (g : grid pixel) :
  rectangular g ->
  (nrows_of g <= 1)%nat \/ (ncols_of g <= 1)%nat ->
  flatten_crop g = inl LinAlgError.
Proof.
  intros Hrect Hthin. apply plane_fit_first_row_or_column; [exact Hrect |].
  destruct Hthin as [Hr | Hc]; [left | right]; intros x Hx;
    destruct (valid_pixels_in_range g x Hrect Hx); lia.
Qed.

(** C9, as the code has it: with fewer than 3 valid pixels the normal
    matrix is singular; the cell does not count the valid pixels, and the
    only exception it raises is the [LinAlgError] of the matrix inversion,
    never [InsufficientDataError]; it raises it, and returns no result,
    when the valid pixels all lie in the first row or all in the first
    column of the field, where the normal matrix has a row of zeros. *)
Theorem plane_fit_few_pixels (g : grid pixel) :
  rectangular g ->
  (length (valid_pixels g) < 3)%nat ->
  det3 (N3 (valid_pixels g)) = 0
  /\ (forall e, flatten_crop g = inl e -> e = LinAlgError)
  /\ flatten_crop g <> inl InsufficientDataError
  /\ ((forall x, In x (valid_pixels g) -> fst (fst x) = 0%nat)
      \/ (forall x, In x (valid_pixels g) -> snd (fst x) = 0%nat) ->
      flatten_crop g = inl LinAlgError
      /\ exists j, (j = 1 \/ j = 2)%nat
           /\ forall k, (k < 3)%nat -> normal_matrix (valid_pixels g) k j = 0).
Proof.
  intros Hrect Hfew.
  split; [rewrite det3_N3; now apply few_pixels_singular |].
  split; [apply flatten_crop_exception |].
  split.
  - intros H. apply flatten_crop_exception in H. discriminate.
  - intros Hzero. split; [now apply plane_fit_first_row_or_column |].
    destruct Hzero as [Hrow | Hcol]; [exists 2%nat | exists 1%nat];
      (split; [lia |]); intros k Hk; unfold normal_matrix;
      apply Rsum_zeros; intros x Hx; unfold design_row; cbn [nth].
    + rewrite (Hrow x Hx). simpl. ring.
    + rewrite (Hcol x Hx). simpl. ring.
Qed.

Lemma plane_fit_few_pixels_witness :
  flatten_crop column_2x1 = inl LinAlgError.
Proof.
  assert (Hrect : rectangular column_2x1)
    by (apply rectangular_intro; repeat constructor).
  assert (Hfew : (length (valid_pixels column_2x1) < 3)%nat) by (simpl; lia).
  apply (plane_fit_few_pixels _ Hrect Hfew).
  right. intros x Hx. simpl in Hx.
  destruct Hx as [<- | [<- | []]]; reflexivity.
Defined.

(** C9 as stated fails: the error of a field with two valid pixels is not
    [InsufficientDataError]. *)
Lemma plane_fit_two_pixels_error :
  let g : grid pixel := [[Some 1; Some 2]] in
  (length (valid_pixels g) < 3)%nat
  /\ flatten_crop g <> inl InsufficientDataError.
Proof.
  intros g. split; [simpl; lia |].
  rewrite plane_fit_first_row_or_column; [discriminate | |].
  - apply rectangular_intro. repeat constructor.
  - left. intros x Hx. simpl in Hx.
    destruct Hx as [<- | [<- | []]]; reflexivity.
Qed.

End PlaneFitClaims.

(** ** Cell 5: the zero fill and the array it writes to *)

Section ZeroFill.

Lemma combine_map_r {X B} (b : X -> B) (l : list X) :
  combine l (map b l) = map (fun x => (x, b x)) l.
Proof. induction l as [| x l IH]; simpl; [reflexivity | now rewrite IH]. Qed.

Lemma grid_map2_self {X B C} (f : X -> B -> C) (b : X -> B) (a : grid X) :
  grid_map2 f a (grid_map b a) = grid_map (fun x => f x (b x)) a.
Proof.
  unfold grid_map2, grid_map. rewrite combine_map_r, map_map.
  apply map_ext. intros row. simpl. now rewrite combine_map_r, map_map.
Qed.

Lemma put_masked_isnan (a : grid pixel) :
  put_masked (Some 0) a (grid_map isnan_px a) = nan_to_zero a.
Proof. unfold put_masked, nan_to_zero. apply grid_map2_self. Qed.

Lemma zero_fill_stmts_state (flat : grid pixel) :
  zero_fill_stmts (after_cell4 flat) = Some (filled_state flat).
Proof.
  unfold zero_fill_stmts, assign_name, assign_where_nan, read_var, after_cell4.
  simpl. simplify_map_eq. simpl. simplify_map_eq.
  unfold filled_state. now rewrite put_masked_isnan.
Qed.

Lemma read_filled (flat : grid pixel) :
  read_var (filled_state flat) "flatcropifg" = Some (nan_to_zero flat)
  /\ read_var (filled_state flat) "flatcropifgzeros" = Some (nan_to_zero flat).
Proof.
  unfold read_var, filled_state. simpl. split; simplify_map_eq; reflexivity.
Qed.

Lemma run_autocorr_eq (flat : grid pixel) :
  run_autocorr (after_cell4 flat)
  = Some (filled_state flat, autocorr_of (nan_to_zero flat)).
Proof.
  unfold run_autocorr. rewrite zero_fill_stmts_state.
  destruct (read_filled flat) as [_ ->]. reflexivity.
Qed.

End ZeroFill.

(** ** C1: what the autocorrelation is divided by *)

Section Normalisation.

Lemma all_some_filled (r : list pixel) :
  all_some (map (fun p => if isnan_px p then Some 0 else p) r)
  = Some (map (fun p => match p with Some v => v | None => 0 end) r).
Proof.
  induction r as [| [v |] r IH]; simpl; [reflexivity | |]; now rewrite IH.
Qed.

Lemma finite_grid_filled (g : grid pixel) :
  finite_grid (nan_to_zero g) = Some (zero_filled g).
Proof.
  unfold finite_grid, nan_to_zero, zero_filled, grid_map.
  induction g as [| r g IH]; simpl; [reflexivity |].
  now rewrite all_some_filled, IH.
Qed.

Lemma autocorr_grid_of_eq (flat : grid pixel) :
  autocorr_grid_of flat
  = Some (grid_map (fun v => fdiv (Fin v)
                               (Fin (INR (count_nonzero (nan_to_zero flat)))))
                   (shifted_autocorr (zero_filled flat))).
Proof.
  unfold autocorr_grid_of. rewrite run_autocorr_eq.
  unfold autocorr_of. now rewrite finite_grid_filled.
Qed.

Lemma autocov_spec_eq (flat : grid pixel) :
  autocov_spec flat
  = grid_map (fun v => fdiv (Fin v) (Fin (INR (count_valid flat))))
             (shifted_autocorr (zero_filled flat)).
Proof. reflexivity. Qed.

(** the divisor of the code: the valid pixels that are not zero *)
Lemma count_nonzero_filled (flat : grid pixel) :
  (count_nonzero (nan_to_zero flat) + count_valid_zero flat)%nat = count_valid flat.
Proof.
  unfold count_nonzero, count_valid_zero, count_valid, nan_to_zero.
  rewrite ravel_grid_map.
  induction (ravel flat) as [| [v |] l IH]; simpl; [reflexivity | |].
  - destruct (Reqb v 0); simpl; lia.
  - assert (H0 : Reqb 0 0 = true) by now apply Reqb_true.
    rewrite H0. simpl. exact IH.
Qed.

(** when no valid pixel is exactly zero, the code divides by the count of
    valid pixels and computes the estimate of the specification *)
Lemma autocorr_matches_spec (flat : grid pixel) :
  count_valid_zero flat = 0%nat ->
  autocorr_grid_of flat = Some (autocov_spec flat).
Proof.
  intros H. rewrite autocorr_grid_of_eq, autocov_spec_eq.
  pose proof (count_nonzero_filled flat) as Hc. rewrite H in Hc.
  rewrite Nat.add_0_r in Hc. now rewrite Hc.
Qed.

End Normalisation.

(** ** The transforms of vectors of one and two entries *)

Section SmallTransforms.

Lemma cis_zero (t : R) : t = 0 -> cis t = (1, 0).
Proof. intros ->. unfold cis. now rewrite cos_0, sin_0. Qed.

Lemma cis_half_turn (sgn : R) :
  sgn = 1 \/ sgn = -1 -> cis (sgn * PI) = (-1, 0).
Proof.
  unfold cis. intros [-> | ->].
  - rewrite Rmult_1_l, cos_PI, sin_PI. reflexivity.
  - replace (-1 * PI) with (- PI) by ring.
    rewrite cos_neg, sin_neg, cos_PI, sin_PI. f_equal. ring.
Qed.

Lemma dft_one (sgn : R) (a : Cx) : dft sgn [a] = [a].
Proof.
  unfold dft, Csum. simpl.
  rewrite (cis_zero (sgn * (2 * PI * 0 * 0 / 1))) by (field).
  destruct a as [x y]. unfold Cadd, Cmul. simpl. repeat f_equal; ring.
Qed.

Lemma dft_two (sgn : R) (a b : Cx) :
  sgn = 1 \/ sgn = -1 ->
  dft sgn [a; b] = [Cadd a b; Cadd a (Cscale (-1) b)].
Proof.
  intros Hs. unfold dft, Csum. simpl.
  rewrite (cis_zero (sgn * (2 * PI * 0 * 0 / (1 + 1)))) by field.
  rewrite (cis_zero (sgn * (2 * PI * 1 * 0 / (1 + 1)))) by field.
  rewrite (cis_zero (sgn * (2 * PI * 0 * 1 / (1 + 1)))) by field.
  replace (sgn * (2 * PI * 1 * 1 / (1 + 1))) with (sgn * PI) by field.
  rewrite (cis_half_turn sgn Hs).
  destruct a as [x y], b as [u v]. unfold Cadd, Cmul, Cscale. simpl.
  repeat f_equal; ring.
Qed.

(** a grid of one row and two columns *)
Lemma fft2_row2 (a b : Cx) :
  fft2 [[a; b]] = [[Cadd a b; Cadd a (Cscale (-1) b)]].
Proof.
  unfold fft2, along_both, fft, nrows_of, ncols_of. cbn [map length].
  rewrite (dft_two (-1) a b) by (right; reflexivity).
  unfold transpose, column. cbn [seq map nth]. now rewrite !dft_one.
Qed.

Lemma ifft2_row2 (a b : Cx) :
  ifft2 [[a; b]]
  = [[Cscale (/ 2) (Cadd a b); Cscale (/ 2) (Cadd a (Cscale (-1) b))]].
Proof.
  unfold ifft2, along_both, ifft, nrows_of, ncols_of. cbn [map length].
  rewrite (dft_two 1 a b) by (left; reflexivity).
  unfold transpose, column. cbn [seq map nth length]. rewrite !dft_one.
  cbn [map length INR].
  destruct a as [x y], b as [u v]. unfold Cscale, Cadd. cbn [fst snd nth].
  down_to_reals; field.
Qed.

Lemma shifted_autocorr_row2 (x y : R) :
  shifted_autocorr [[x; y]]
  = [[ / 2 * ((x + y) ^ 2 - (x - y) ^ 2); / 2 * ((x + y) ^ 2 + (x - y) ^ 2) ]].
Proof.
  unfold shifted_autocorr, grid_map. cbn [map].
  rewrite fft2_row2. cbn [map]. rewrite ifft2_row2.
  unfold fftshift, fftshift1, roll, grid_map, Cadd, Cscale, RtoC, sqmag.
  cbn [map length Nat.div Nat.divmod fst snd Nat.sub skipn firstn app].
  down_to_reals; field.
Qed.

End SmallTransforms.

(** ** Division by a count *)

Section CountDivision.

Lemma Rsign_pos (x : R) : 0 < x -> Rsign x = Gt.
Proof. intros H. unfold Rsign. destruct (Rlt_dec 0 x); [reflexivity | contradiction]. Qed.


Lemma Rsign_neg (x : R) : x < 0 -> Rsign x = Lt.
Proof.
  intros H. unfold Rsign. destruct (Rlt_dec 0 x) as [H' | _]; [lra |].
  destruct (Rlt_dec x 0); [reflexivity | contradiction].
Qed.

Lemma fdiv_pos (x y : R) : 0 < y -> fdiv (Fin x) (Fin y) = Fin (x / y).
Proof. intros H. unfold fdiv. now rewrite (Rsign_pos y H). Qed.


Lemma Rltb_true (x y : R) : Rltb x y = true <-> x < y.
Proof. unfold Rltb. destruct (Rlt_dec x y); split; intros; congruence. Qed.

Lemma Reqb_refl (x : R) : Reqb x x = true.
Proof. now apply Reqb_true. Qed.

End CountDivision.

(** ** C1: the divisor on fields with zeros *)

Section ZeroPixels.

(** C1 on the code.  On every field the code and the estimate of the
    specification divide the same shifted inverse transform of the power
    spectrum, the code by the count of the valid pixels that are not zero,
    the specification by the count of the valid pixels.  The field
    [[0, 1]] has two valid pixels: the code divides by one and returns
    [[0, 1]] where the specification has [[0, 1/2]]. *)
Theorem autocorr_divides_by_nonzero_count :
  (forall flat,
     autocorr_grid_of flat
     = Some (grid_map
               (fun v => fdiv (Fin v)
                           (Fin (INR (count_valid flat - count_valid_zero flat))))
               (shifted_autocorr (zero_filled flat)))
     /\ autocov_spec flat
        = grid_map (fun v => fdiv (Fin v) (Fin (INR (count_valid flat))))
                   (shifted_autocorr (zero_filled flat)))
  /\ count_valid zero_one = 2%nat
  /\ count_valid_zero zero_one = 1%nat
  /\ autocorr_grid_of zero_one = Some [[Fin 0; Fin 1]]
  /\ autocov_spec zero_one = [[Fin 0; Fin (1 / 2)]]
  /\ autocorr_grid_of zero_one <> Some (autocov_spec zero_one).
Proof.
  assert (Hn : count_nonzero (nan_to_zero zero_one) = 1%nat).
  { unfold count_nonzero, nan_to_zero, zero_one. simpl.
    rewrite Reqb_refl. rewrite (proj2 (Reqb_false 1 0)) by lra. reflexivity. }
  assert (Hz : count_valid_zero zero_one = 1%nat).
  { pose proof (count_nonzero_filled zero_one) as H. rewrite Hn in H.
    change (count_valid zero_one) with 2%nat in H. lia. }
  assert (Hcode : autocorr_grid_of zero_one = Some [[Fin 0; Fin 1]]).
  { rewrite autocorr_grid_of_eq, Hn. change (zero_filled zero_one) with [[0; 1]].
    rewrite shifted_autocorr_row2. unfold grid_map. cbn [map INR].
    rewrite !fdiv_pos by lra. down_to_reals; field. }
  assert (Hspec : autocov_spec zero_one = [[Fin 0; Fin (1 / 2)]]).
  { rewrite autocov_spec_eq. change (count_valid zero_one) with 2%nat.
    change (zero_filled zero_one) with [[0; 1]].
    rewrite shifted_autocorr_row2. unfold grid_map. cbn [map INR].
    rewrite !fdiv_pos by lra. down_to_reals; field. }
  split; [| repeat split; try assumption].
  - intros flat. split; [| apply autocov_spec_eq].
    rewrite autocorr_grid_of_eq.
    pose proof (count_nonzero_filled flat) as H.
    replace (count_valid flat - count_valid_zero flat)%nat
      with (count_nonzero (nan_to_zero flat)) by lia.
    reflexivity.
  - rewrite Hcode, Hspec. intros H. injection H as H. lra.
Qed.

(** ** C8: the array the zero fill writes to *)

Lemma crop_with_gap_flat :
  exists pl,
    flatten_crop crop_with_gap
    = inr {| planeparams := [-1; 2; 3]; plane := pl; flatcropifg := flat_with_gap |}.
Proof.
  destruct (flatten_crop_solution crop_with_gap (-1) 2 3) as [pl Heq].
  - apply rectangular_intro. repeat constructor.
  - unfold normal_det, normal_matrix, crop_with_gap. simpl. lra.
  - intros k Hk. destruct k as [| [| [| k]]]; [| | | lia];
      unfold normal_matrix, normal_rhs, crop_with_gap; simpl; lra.
  - exists pl. rewrite Heq. do 2 f_equal.
    unfold minus_plane, crop_with_gap, flat_with_gap, grid_map,
      cell_val, cell_col, cell_row.
    simpl. down_to_reals; ring.
Qed.

(** C8 on the code: [flatcropifgzeros] names the array of [flatcropifg].
    The crop [[nan, 1], [2, 4]] is flattened to [[nan, 0], [0, 0]]; after
    the zero fill the detrended field itself reads [[0, 0], [0, 0]], its
    nan marker is gone. *)
Theorem zero_fill_overwrites_field :
  exists pl st ac,
    flatten_crop crop_with_gap
    = inr {| planeparams := [-1; 2; 3]; plane := pl; flatcropifg := flat_with_gap |}
    /\ run_autocorr (after_cell4 flat_with_gap) = Some (st, ac)
    /\ read_var st "flatcropifg" = Some (constant_field 2 2 (Some 0))
    /\ read_var st "flatcropifg" <> Some flat_with_gap
    /\ read_var st "flatcropifgzeros" = read_var st "flatcropifg".
Proof.
  destruct crop_with_gap_flat as [pl Hflat].
  exists pl, (filled_state flat_with_gap), (autocorr_of (nan_to_zero flat_with_gap)).
  destruct (read_filled flat_with_gap) as [H1 H2].
  split; [exact Hflat |]. split; [apply run_autocorr_eq |]. rewrite H1, H2.
  repeat split. discriminate.
Qed.

(** on every field: both names read the zero-filled values afterwards *)
Lemma zero_fill_aliases (flat : grid pixel) :
  exists st ac,
    run_autocorr (after_cell4 flat) = Some (st, ac)
    /\ read_var st "flatcropifg" = Some (nan_to_zero flat)
    /\ read_var st "flatcropifgzeros" = Some (nan_to_zero flat).
Proof.
  exists (filled_state flat), (autocorr_of (nan_to_zero flat)).
  split; [apply run_autocorr_eq | apply read_filled].
Qed.

End ZeroPixels.

(** ** Cell 6: masks, positions and the averaging loop *)

Section Selections.

Lemma select_map {X Y} (P : X -> bool) (g : X -> Y) (l : list X) :
  select (map P l) (map g l) = map g (List.filter P l).
Proof.
  unfold select. rewrite combine_map_same.
  induction l as [| x l IH]; simpl; [reflexivity |].
  destruct (P x); simpl; now rewrite IH.
Qed.

Lemma select_nil_r {X} (mask : list bool) : select mask (@nil X) = [].
Proof. unfold select. now rewrite combine_nil. Qed.

Lemma select_cons {X} (m : bool) (mask : list bool) (x : X) (v : list X) :
  select (m :: mask) (x :: v) = if m then x :: select mask v else select mask v.
Proof. unfold select. simpl. now destruct m. Qed.

Lemma select_seq_shift (mask : list bool) (s n : nat) :
  select mask (seq (S s) n) = map S (select mask (seq s n)).
Proof.
  revert s mask. induction n as [| n IH]; intros s mask; simpl.
  - now rewrite !select_nil_r.
  - destruct mask as [| m mask]; [reflexivity |].
    rewrite !select_cons, IH. now destruct m.
Qed.

(** picking the positions of a mask is indexing by the mask *)
Lemma pick_where {X} (d : X) (mask : list bool) (v : list X) :
  length mask = length v -> pick d v (np_where mask) = select mask v.
Proof.
  unfold np_where, pick. revert v.
  induction mask as [| m mask IH]; intros [| x v] Hlen; simpl in Hlen;
    try discriminate; [reflexivity |].
  injection Hlen as Hlen. cbn [length seq].
  rewrite !select_cons, select_seq_shift.
  destruct m; cbn [map nth]; rewrite map_map; cbn [nth]; now rewrite IH.
Qed.

Lemma filter_filter {X} (P Q : X -> bool) (l : list X) :
  List.filter Q (List.filter P l) = List.filter (fun x => P x && Q x) l.
Proof.
  induction l as [| x l IH]; simpl; [reflexivity |].
  destruct (P x); simpl; [destruct (Q x) |]; now rewrite IH.
Qed.

End Selections.

Section AveragingLoop.

Lemma map_fst_combine_eq {X Y} (l : list X) (l' : list Y) :
  length l = length l' -> map fst (combine l l') = l.
Proof.
  revert l'. induction l as [| x l IH]; intros [| y l'] H; simpl in *;
    try discriminate; [reflexivity |]. injection H as H. now rewrite IH.
Qed.

Lemma map_snd_combine_eq {X Y} (l : list X) (l' : list Y) :
  length l = length l' -> map snd (combine l l') = l'.
Proof.
  revert l'. induction l as [| x l IH]; intros [| y l'] H; simpl in *;
    try discriminate; [reflexivity |]. injection H as H. now rewrite IH.
Qed.

Lemma samples_dist (rd : list R) (acg : list fval) :
  length rd = length acg -> map s_dist (samples rd acg) = rd.
Proof.
  intros H. unfold samples, s_dist.
  rewrite <- (map_map snd fst), map_snd_combine_eq.
  - now apply map_fst_combine_eq.
  - rewrite length_seq, length_combine. lia.
Qed.

Lemma samples_val (rd : list R) (acg : list fval) :
  length rd = length acg -> map s_val (samples rd acg) = acg.
Proof.
  intros H. unfold samples, s_val.
  rewrite <- (map_map snd snd), map_snd_combine_eq.
  - now apply map_snd_combine_eq.
  - rewrite length_seq, length_combine. lia.
Qed.

(** the loop fills the rows in order *)
Lemma averaging_loop (w : R) (rdbin : list Z) (acgtrunc : list fval) (n : nat) :
  forall k, (k <= n)%nat ->
  fold_left (average_bin w rdbin acgtrunc) (seq 0 k) (repeat (0, Fin 0) n)
  = map (fun b => (INR b * w, mean (bin_samples rdbin acgtrunc b))) (seq 0 k)
    ++ repeat (0, Fin 0) (n - k).
Proof.
  induction k as [| k IH]; intros Hk.
  - simpl. now rewrite Nat.sub_0_r.
  - rewrite seq_S, fold_left_app, IH by lia. cbn [fold_left Nat.add].
    rewrite map_app. cbn [map].
    set (done := map (fun b => (INR b * w, mean (bin_samples rdbin acgtrunc b))) (seq 0 k)).
    assert (Hlen : length done = k) by (unfold done; now rewrite length_map, length_seq).
    replace (n - k)%nat with (S (n - S k)) by lia. cbn [repeat].
    unfold average_bin.
    rewrite !(insert_app_r_alt done) by lia.
    rewrite Hlen, Nat.sub_diag. cbn [list_insert insert].
    rewrite app_nth2 by lia. rewrite Hlen, Nat.sub_diag. cbn [nth snd].
    rewrite <- app_assoc. reflexivity.
Qed.

End AveragingLoop.

Section RadialAverage.

Variables (nrows ncols : nat) (pixsize : R).

Lemma maxdist_half_extent :
  maxdist nrows ncols pixsize = half_extent nrows ncols pixsize.
Proof.
  unfold maxdist, half_extent, Rltb, Rmin.
  destruct (Rlt_dec (xcent ncols) (ycent nrows)) as [H | H];
    destruct (Rle_dec (ycent nrows) (xcent ncols)) as [H' | H'];
    try reflexivity; lra.
Qed.

Lemma bin_width_twice : bin_width pixsize = 2 * pixsize.
Proof. unfold bin_width. ring. Qed.

Lemma members_kept (rd : list R) (acg : list fval) (b : nat) :
  members nrows ncols pixsize rd acg b
  = List.filter (fun s => Z.eqb (bin_index pixsize s) (Z.of_nat b + 1)) (kept nrows ncols pixsize rd acg).
Proof. unfold members, kept. now rewrite filter_filter. Qed.

Lemma bin_samples_members (rd : list R) (acg : list fval) (b : nat) :
  bin_samples (map (bin_index pixsize) (kept nrows ncols pixsize rd acg)) (map s_val (kept nrows ncols pixsize rd acg)) b
  = map s_val (members nrows ncols pixsize rd acg b).
Proof.
  unfold bin_samples. rewrite pick_where by now rewrite !length_map.
  rewrite map_map, select_map. now rewrite members_kept.
Qed.

(** the rows of the profile, one per bin index from 1 to the largest *)
Lemma radial_average_rows (rd : list R) (acg : list fval) :
  length rd = length acg ->
  radial_average nrows ncols pixsize rd acg
  = match map (bin_index pixsize) (kept nrows ncols pixsize rd acg) with
    | [] => inl ValueError
    | k :: ks =>
        inr (map (fun b => (INR b * (2 * pixsize),
                            mean (map s_val (members nrows ncols pixsize rd acg b))))
                 (seq 0 (Z.to_nat (fold_left Z.max ks k))))
    end.
Proof.
  intros Hlen. unfold radial_average.
  rewrite maxdist_half_extent, bin_width_twice.
  assert (Hkeep : map (fun r => Rltb r (half_extent nrows ncols pixsize)) rd
                  = map (within nrows ncols pixsize) (samples rd acg)).
  { rewrite <- (samples_dist rd acg Hlen) at 1. now rewrite map_map. }
  rewrite Hkeep.
  assert (Hrd : select (map (within nrows ncols pixsize) (samples rd acg)) rd
                = map s_dist (kept nrows ncols pixsize rd acg)).
  { rewrite <- (samples_dist rd acg Hlen) at 2. apply select_map. }
  assert (Hacg : select (map (within nrows ncols pixsize) (samples rd acg)) acg
                 = map s_val (kept nrows ncols pixsize rd acg)).
  { rewrite <- (samples_val rd acg Hlen) at 2. apply select_map. }
  rewrite Hrd, Hacg. unfold rdbin_of. rewrite map_map.
  fold (bin_index pixsize).
  change (map (fun x => ceil (s_dist x / (2 * pixsize))) (kept nrows ncols pixsize rd acg))
    with (map (bin_index pixsize) (kept nrows ncols pixsize rd acg)).
  destruct (map (bin_index pixsize) (kept nrows ncols pixsize rd acg)) as [| k ks] eqn:Ebins;
    [reflexivity |].
  f_equal.
  replace (Z.to_nat (fold_left Z.max ks k - 1 + 1)) with (Z.to_nat (fold_left Z.max ks k))
    by (f_equal; lia).
  rewrite averaging_loop by lia. rewrite Nat.sub_diag, app_nil_r.
  apply map_ext. intros b. rewrite <- Ebins, bin_samples_members. reflexivity.
Qed.

End RadialAverage.

(** ** Cell 6: the rows of the radial profile *)

Section RadialBinning.

Lemma length_rd_acg (nrows ncols : nat) (pixsize : R) (g : grid fval) :
  is_shape nrows ncols g ->
  length (rd_of nrows ncols pixsize) = length (acg_of nrows ncols pixsize g).
Proof.
  intros Hg. now rewrite length_rd_of, (length_acg_of _ _ _ _ Hg).
Qed.


Lemma fold_left_Zmax_ge (ks : list Z) :
  forall k x, In x (k :: ks) -> (x <= fold_left Z.max ks k)%Z.
Proof.
  induction ks as [| y ks IH]; intros k x [<- | Hin]; simpl.
  - lia.
  - contradiction.
  - etransitivity; [| apply IH; left; reflexivity]. lia.
  - destruct Hin as [<- | Hin].
    + etransitivity; [| apply IH; left; reflexivity]. lia.
    + apply IH. now right.
Qed.

Lemma fold_left_Zmax_in (ks : list Z) :
  forall k, In (fold_left Z.max ks k) (k :: ks).
Proof.
  induction ks as [| y ks IH]; intros k; simpl; [now left |].
  destruct (IH (Z.max k y)) as [H | H].
  - rewrite <- H. destruct (Z.max_spec k y) as [[_ E] | [_ E]]; rewrite E; auto.
  - right. now right.
Qed.

(** a sample with bin index [b+1] lies in the interval
    [(b*w, (b+1)*w]] of the distances *)
Lemma bin_interval (pixsize : R) (s : nat * (R * fval)) (b : nat) :
  0 < pixsize ->
  bin_index pixsize s = (Z.of_nat b + 1)%Z ->
  INR b * (2 * pixsize) < s_dist s <= INR b * (2 * pixsize) + 2 * pixsize.
Proof.
  intros Hp Hb. unfold bin_index in Hb.
  pose proof (ceil_spec (s_dist s / (2 * pixsize))) as Hc.
  rewrite Hb, plus_IZR, <- INR_IZR_INZ in Hc.
  set (x := s_dist s / (2 * pixsize)) in *.
  assert (Hd : s_dist s = x * (2 * pixsize)) by (unfold x; field; lra).
  rewrite Hd. nra.
Qed.

Lemma bin_index_positive (pixsize : R) (s : nat * (R * fval)) :
  0 < pixsize -> 0 < s_dist s -> (1 <= bin_index pixsize s)%Z.
Proof.
  intros Hp Hd. unfold bin_index.
  pose proof (ceil_spec (s_dist s / (2 * pixsize))) as [_ Hc].
  assert (Hx : 0 < s_dist s / (2 * pixsize)) by (apply Rdiv_lt_0_compat; lra).
  assert (H0 : 0 < IZR (ceil (s_dist s / (2 * pixsize)))) by lra.
  apply lt_IZR in H0. lia.
Qed.

Lemma in_kept (nrows ncols : nat) (pixsize : R) (rd : list R) (acg : list fval)
  (s : nat * (R * fval)) :
  In s (kept nrows ncols pixsize rd acg)
  <-> In s (samples rd acg) /\ s_dist s < half_extent nrows ncols pixsize.
Proof. unfold kept, within. now rewrite filter_In, Rltb_true. Qed.

Lemma in_members (nrows ncols : nat) (pixsize : R) (rd : list R) (acg : list fval)
  (b : nat) (s : nat * (R * fval)) :
  In s (members nrows ncols pixsize rd acg b)
  <-> In s (kept nrows ncols pixsize rd acg)
      /\ bin_index pixsize s = (Z.of_nat b + 1)%Z.
Proof. now rewrite members_kept, filter_In, Z.eqb_eq. Qed.

(** the profile: an error when no sample passes the distance cut, else one
    row per bin index from 1 to the largest index [mx] of a kept sample *)
Lemma profile_of_rows (nrows ncols : nat) (pixsize : R) (g : grid fval) :
  is_shape nrows ncols g ->
  let rd := rd_of nrows ncols pixsize in
  let acg := acg_of nrows ncols pixsize g in
  (kept nrows ncols pixsize rd acg = []
   /\ profile_of nrows ncols pixsize g = inl ValueError)
  \/ exists mx,
       profile_of nrows ncols pixsize g
       = inr (map (fun b => (INR b * (2 * pixsize),
                             mean (map s_val (members nrows ncols pixsize rd acg b))))
                  (seq 0 (Z.to_nat mx)))
       /\ (exists s, In s (kept nrows ncols pixsize rd acg)
                     /\ bin_index pixsize s = mx)
       /\ (forall s, In s (kept nrows ncols pixsize rd acg) ->
                     (bin_index pixsize s <= mx)%Z).
Proof.
  intros Hg rd acg. unfold profile_of. fold rd acg.
  rewrite (radial_average_rows nrows ncols pixsize rd acg
             (length_rd_acg nrows ncols pixsize g Hg)).
  destruct (map (bin_index pixsize) (kept nrows ncols pixsize rd acg))
    as [| k ks] eqn:E.
  - left. split; [now apply map_eq_nil in E | reflexivity].
  - right. exists (fold_left Z.max ks k). split; [reflexivity |]. split.
    + pose proof (fold_left_Zmax_in ks k) as Hin. rewrite <- E in Hin.
      apply in_map_iff in Hin. destruct Hin as (s & Hs & Hin). now exists s.
    + intros s Hs. apply fold_left_Zmax_ge. rewrite <- E. now apply in_map.
Qed.

End RadialBinning.

(** ** Positions on the flattened grids *)

Section Positions.

Lemma nth_ravel {X} (d : X) (g : grid X) (nrows ncols r c : nat) :
  is_shape nrows ncols g -> (r < nrows)%nat -> (c < ncols)%nat ->
  nth (r * ncols + c) (ravel g) d = at2 d g r c.
Proof.
  unfold ravel, at2. intros [Hn Hc]. revert nrows r Hn.
  induction Hc as [| row g Hrow Hc IH]; intros nrows r Hn Hr Hcol.
  - simpl in Hn. lia.
  - simpl in Hn. simpl concat. destruct r as [| r].
    + simpl. rewrite app_nth1 by lia. reflexivity.
    + change (S r * ncols)%nat with (ncols + r * ncols)%nat.
      rewrite app_nth2 by (rewrite Hrow; lia).
      replace (ncols + r * ncols + c - length row)%nat with (r * ncols + c)%nat
        by (rewrite Hrow; lia).
      simpl nth at 2. apply (IH (length g) r eq_refl); lia.
Qed.

Lemma nth_map_seq {X} (f : nat -> X) (n i : nat) (d : X) :
  (i < n)%nat -> nth i (map f (seq 0 n)) d = f i.
Proof.
  intros H. rewrite (nth_indep _ d (f 0%nat)) by now rewrite length_map, length_seq.
  now rewrite map_nth, seq_nth.
Qed.

Lemma xcent_nat (ncols : nat) : xcent ncols = INR (ncols / 2) + 1.
Proof. unfold xcent. now rewrite floor_half, <- INR_IZR_INZ. Qed.

Lemma ycent_nat (nrows : nat) : ycent nrows = INR (nrows / 2) + 1.
Proof. unfold ycent. now rewrite floor_half, <- INR_IZR_INZ. Qed.

(** the distance stored at row [r], column [c] of the truncated vector *)
Lemma nth_rd_of (nrows ncols r c : nat) (pixsize : R) :
  (r < nrows)%nat -> (c < ncols)%nat ->
  (r * ncols + c < length (rd_of nrows ncols pixsize))%nat ->
  nth (r * ncols + c) (rd_of nrows ncols pixsize) 0
  = sqrt ((INR c - xcent ncols) ^ 2 + (INR r - ycent nrows) ^ 2) * pixsize.
Proof.
  intros Hr Hc Hlen. unfold rd_of in *. rewrite length_firstn in Hlen.
  rewrite nth_firstn.
  destruct (Nat.ltb_spec (r * ncols + c)
              (rdlen nrows (length (rd_full nrows ncols pixsize)))) as [_ | H];
    [| lia].
  unfold rd_full.
  rewrite (nth_ravel 0 _ nrows ncols r c (radial_dist_shape nrows ncols pixsize) Hr Hc).
  unfold at2. rewrite radial_dist_cells.
  rewrite (nth_map_seq _ nrows r []) by exact Hr.
  now rewrite (nth_map_seq _ ncols c 0) by exact Hc.
Qed.

Lemma in_samples (rd : list R) (acg : list fval) (i : nat) :
  length rd = length acg -> (i < length rd)%nat ->
  In (i, (nth i rd 0, nth i acg NaN)) (samples rd acg).
Proof.
  intros Hlen Hi. unfold samples.
  assert (Hc : length (seq 0 (length rd)) = length (combine rd acg)).
  { rewrite length_seq, length_combine. lia. }
  pose proof (combine_nth (seq 0 (length rd)) (combine rd acg) i 0%nat (0, NaN) Hc) as H.
  rewrite seq_nth in H by exact Hi.
  rewrite (combine_nth rd acg i 0 NaN Hlen) in H. simpl in H.
  rewrite <- H. apply nth_In. rewrite length_combine, length_seq, length_combine. lia.
Qed.

(** [fftshift] puts entry (0,0) at row [nrows/2], column [ncols/2] *)
Lemma roll_half_nth {X} (d : X) (l : list X) :
  (0 < length l)%nat -> nth (length l / 2) (fftshift1 l) d = nth 0 l d.
Proof.
  intros Hpos. unfold fftshift1, roll.
  set (n := length l) in *. set (k := (n / 2)%nat).
  assert (Hk : (k < n)%nat) by (apply Nat.div_lt; lia).
  rewrite app_nth2 by (rewrite length_skipn; fold n; lia).
  rewrite length_skipn. fold n.
  replace (k - (n - (n - k)))%nat with 0%nat by lia.
  replace (n - k)%nat with (S (n - k - 1)) by lia.
  destruct l as [| x l]; [unfold n in Hpos; simpl in Hpos; lia | reflexivity].
Qed.

Lemma fftshift_zero_lag {X} (d : X) (g : grid X) (nrows ncols : nat) :
  is_shape nrows ncols g -> (0 < nrows)%nat -> (0 < ncols)%nat ->
  at2 d (fftshift g) (nrows / 2) (ncols / 2) = at2 d g 0 0.
Proof.
  intros [Hn Hc] Hr Hcol. unfold at2, fftshift.
  assert (Hlen : length (map (@fftshift1 X) g) = nrows) by now rewrite length_map.
  rewrite <- Hlen at 1. rewrite roll_half_nth by lia.
  destruct g as [| row g]; [simpl in Hn; lia |]. cbn [map nth].
  apply Forall_inv in Hc. rewrite <- Hc. apply roll_half_nth. lia.
Qed.

End Positions.

(** ** C3: the radial binning *)

Section RadialBinningClaim.





End RadialBinningClaim.

(** ** C10: the first row of the profile and the sample at distance zero *)

Section FirstBin.

Lemma ceil_zero : ceil 0 = 0%Z.
Proof. apply ceil_unique. simpl. lra. Qed.

Lemma ceil_one_iff (x : R) : ceil x = 1%Z <-> 0 < x <= 1.
Proof.
  split.
  - intros H. pose proof (ceil_spec x) as Hs. rewrite H in Hs. simpl in Hs. lra.
  - intros H. apply ceil_unique. simpl. lra.
Qed.

Lemma sqrt2_lt_2 : sqrt 2 < 2.
Proof.
  replace 2 with (sqrt 4) at 2.
  - apply sqrt_lt_1; lra.
  - replace 4 with (2 * 2) by lra. apply sqrt_square. lra.
Qed.

Lemma INR_half_ge_1 (n : nat) : (2 <= n)%nat -> 1 <= INR (n / 2).
Proof.
  intros H. change 1 with (INR 1). apply le_INR.
  exact (Nat.Div0.div_le_mono 2 n 2 H).
Qed.

Lemma zero_distance_bin (pixsize : R) (s : nat * (R * fval)) :
  s_dist s = 0 -> bin_index pixsize s = 0%Z.
Proof.
  intros Hs. unfold bin_index. rewrite Hs.
  replace (0 / (2 * pixsize)) with 0 by (unfold Rdiv; ring). apply ceil_zero.
Qed.

Lemma first_bin_iff (nrows ncols : nat) (pixsize : R) (rd : list R) (acg : list fval)
  (s : nat * (R * fval)) :
  0 < pixsize ->
  In s (members nrows ncols pixsize rd acg 0) <->
  In s (samples rd acg)
  /\ s_dist s < half_extent nrows ncols pixsize
  /\ 0 < s_dist s <= 2 * pixsize.
Proof.
  intros Hp. unfold members. rewrite filter_In, andb_true_iff.
  unfold within. rewrite Rltb_true, Z.eqb_eq. unfold bin_index.
  change (Z.of_nat 0 + 1)%Z with 1%Z. rewrite ceil_one_iff.
  assert (Hd : 0 < s_dist s / (2 * pixsize) <= 1 <-> 0 < s_dist s <= 2 * pixsize).
  { split; intros [H1 H2].
    - split.
      + apply (Rmult_lt_compat_r (2 * pixsize)) in H1; [| lra].
        unfold Rdiv in H1. rewrite Rmult_assoc, Rinv_l in H1 by lra. lra.
      + apply (Rmult_le_compat_r (2 * pixsize)) in H2; [| lra].
        unfold Rdiv in H2. rewrite Rmult_assoc, Rinv_l in H2 by lra. lra.
    - split.
      + apply Rdiv_lt_0_compat; lra.
      + apply (Rmult_le_reg_r (2 * pixsize)); [lra |].
        unfold Rdiv. rewrite Rmult_assoc, Rinv_l by lra. lra. }
  rewrite Hd. tauto.
Qed.

(** the zero-lag entry is a sample of the first bin *)
Lemma zero_lag_member (nrows ncols : nat) (pixsize : R) (acg : list fval) :
  0 < pixsize -> (2 <= nrows)%nat -> (2 <= ncols)%nat ->
  length (rd_of nrows ncols pixsize) = length acg ->
  (zero_lag_pos nrows ncols < length (rd_of nrows ncols pixsize))%nat ->
  In (zero_lag_pos nrows ncols,
      (sqrt 2 * pixsize, nth (zero_lag_pos nrows ncols) acg NaN))
     (members nrows ncols pixsize (rd_of nrows ncols pixsize) acg 0).
Proof.
  intros Hp Hr Hc Hlen Hpos. apply first_bin_iff; [exact Hp |].
  assert (Hrow : (nrows / 2 < nrows)%nat) by (apply Nat.div_lt; lia).
  assert (Hcol : (ncols / 2 < ncols)%nat) by (apply Nat.div_lt; lia).
  assert (Hd : nth (zero_lag_pos nrows ncols) (rd_of nrows ncols pixsize) 0
               = sqrt 2 * pixsize).
  { unfold zero_lag_pos. rewrite nth_rd_of by assumption.
    rewrite xcent_nat, ycent_nat. f_equal. f_equal. ring. }
  split; [| split].
  - rewrite <- Hd. now apply in_samples.
  - unfold s_dist, half_extent. simpl. rewrite xcent_nat, ycent_nat.
    apply Rmult_lt_compat_r; [exact Hp |].
    pose proof (INR_half_ge_1 nrows Hr). pose proof (INR_half_ge_1 ncols Hc).
    pose proof sqrt2_lt_2.
    apply Rmin_case; lra.
  - unfold s_dist. simpl. pose proof sqrt2_lt_2. pose proof Rlt_sqrt2_0.
    split; [apply Rmult_lt_0_compat; lra |].
    apply Rmult_le_compat_r; lra.
Qed.

(** C10, as the code has it.  Samples get the bin index
    [ceil(distance / bin width)].  A sample at distance 0 has bin index 0
    and is in no bin, the loop collecting the indices [b+1 >= 1].  The
    first row is labelled distance 0 and holds the mean of the samples
    inside the distance cut with [0 < distance <= bin width]. *)
Theorem first_bin_contents (nrows ncols : nat) (pixsize : R) (g : grid fval) :
  is_shape nrows ncols g -> 0 < pixsize ->
  let rd := rd_of nrows ncols pixsize in
  let acg := acg_of nrows ncols pixsize g in
  let in_bin := members nrows ncols pixsize rd acg in
  (forall b s, In s (in_bin b) ->
     ceil (s_dist s / bin_width pixsize) = (Z.of_nat b + 1)%Z)
  /\ (forall s, In s (samples rd acg) -> s_dist s = 0 ->
        ceil (s_dist s / bin_width pixsize) = 0%Z /\ forall b, ~ In s (in_bin b))
  /\ (forall s, In s (in_bin 0%nat) <->
        In s (samples rd acg)
        /\ s_dist s < half_extent nrows ncols pixsize
        /\ 0 < s_dist s <= bin_width pixsize)
  /\ (forall cvdav, profile_of nrows ncols pixsize g = inr cvdav ->
        (0 < length cvdav)%nat ->
        nth 0 cvdav (0, NaN) = (0, mean (map s_val (in_bin 0%nat)))).
Proof.
  intros Hg Hp rd acg in_bin.
  assert (Hlen : length rd = length acg) by apply (length_rd_acg _ _ _ _ Hg).
  rewrite bin_width_twice.
  split; [| split; [| split]].
  - intros b s Hb. unfold in_bin, members in Hb. apply filter_In in Hb.
    destruct Hb as [_ Hb]. apply andb_prop in Hb. destruct Hb as [_ Hb].
    now apply Z.eqb_eq in Hb.
  - intros s Hin Hs. split; [now apply zero_distance_bin |].
    intros b Hb. unfold in_bin, members in Hb. apply filter_In in Hb.
    destruct Hb as [_ Hb]. apply andb_prop in Hb. destruct Hb as [_ Hb].
    apply Z.eqb_eq in Hb. rewrite (zero_distance_bin pixsize s Hs) in Hb. lia.
  - intros s. now apply first_bin_iff.
  - intros cvdav Hprof Hpos. unfold profile_of in Hprof. fold rd acg in Hprof.
    rewrite (radial_average_rows nrows ncols pixsize rd acg Hlen) in Hprof.
    destruct (map (bin_index pixsize) (kept nrows ncols pixsize rd acg))
      as [| k ks]; [discriminate |].
    injection Hprof as <-. rewrite length_map, length_seq in Hpos.
    rewrite (nth_map_seq _ _ 0%nat (0, NaN)) by exact Hpos.
    f_equal. simpl. ring.
Qed.

Lemma grid_7x4_shape : is_shape 7 4 (constant_field 7 4 (Fin 1)).
Proof. split; [reflexivity | repeat constructor]. Qed.

Lemma first_bin_contents_witness :
  is_shape 7 4 (constant_field 7 4 (Fin 1)) /\ 0 < 30
  /\ forall s,
       In s (samples (rd_of 7 4 30) (acg_of 7 4 30 (constant_field 7 4 (Fin 1)))) ->
       s_dist s = 0 -> ceil (s_dist s / bin_width 30) = 0%Z.
Proof.
  assert (Hp : 0 < 30) by lra.
  split; [exact grid_7x4_shape |]. split; [exact Hp |].
  intros s Hin Hs.
  exact (proj1 (proj1 (proj2 (first_bin_contents 7 4 30 _ grid_7x4_shape Hp))
                      s Hin Hs)).
Defined.

Lemma length_rd_7x4 : length (rd_of 7 4 30) = 21%nat.
Proof. rewrite length_rd_of. reflexivity. Qed.

(** C10 as stated fails on a grid of 7 rows and 4 columns with pixel size
    30.  The vectors keep 21 entries.  Position 19 (row 4, column 3) is at
    distance 0.  The zero-lag entry, which [fftshift] puts at row 3,
    column 2, is at position 14 and is a sample of the first bin.
    Position 11 (row 2, column 3) is at distance 60, the bin width itself,
    and is a sample of the first bin. *)
Lemma first_bin_7x4 :
  let g := constant_field 7 4 (Fin 1) in
  let rd := rd_of 7 4 30 in
  let acg := acg_of 7 4 30 g in
  (exists s, In s (samples rd acg) /\ s_dist s = 0)
  /\ ~ (forall b, ~ In (zero_lag_pos 7 4) (map s_pos (members 7 4 30 rd acg b)))
  /\ ~ (forall s, In s (members 7 4 30 rd acg 0) -> 0 < s_dist s < 2 * 30).
Proof.
  intros g rd acg.
  assert (Hp : 0 < 30) by lra.
  assert (Hlen : length rd = length acg)
    by apply (length_rd_acg 7 4 30 g grid_7x4_shape).
  assert (Hx : xcent 4 = 3) by (rewrite xcent_nat; simpl; lra).
  assert (Hy : ycent 7 = 4) by (rewrite ycent_nat; simpl; lra).
  split; [| split].
  - exists (19%nat, (nth 19 rd 0, nth 19 acg NaN)). split.
    + apply in_samples; [exact Hlen |]. unfold rd. rewrite length_rd_7x4. lia.
    + unfold s_dist. simpl fst. simpl snd. unfold rd.
      change 19%nat with (4 * 4 + 3)%nat.
      rewrite nth_rd_of by (try rewrite length_rd_7x4; lia).
      rewrite Hx, Hy. simpl INR.
      replace ((1 + 1 + 1 - 3) ^ 2 + (1 + 1 + 1 + 1 - 4) ^ 2) with 0 by ring.
      rewrite sqrt_0. ring.
  - intros H. apply (H 0%nat).
    change (zero_lag_pos 7 4) with
      (s_pos (zero_lag_pos 7 4, (sqrt 2 * 30, nth (zero_lag_pos 7 4) acg NaN))).
    apply in_map. apply zero_lag_member; try lia; try exact Hp; try exact Hlen.
    rewrite length_rd_7x4. unfold zero_lag_pos. simpl. lia.
  - intros H.
    assert (Hd : nth 11 rd 0 = 2 * 30).
    { unfold rd. change 11%nat with (2 * 4 + 3)%nat.
      rewrite nth_rd_of by (try rewrite length_rd_7x4; lia).
      rewrite Hx, Hy. simpl INR.
      replace ((1 + 1 + 1 - 3) ^ 2 + (1 + 1 - 4) ^ 2) with (2 * 2) by ring.
      rewrite sqrt_square by lra. reflexivity. }
    assert (Hin : In (11%nat, (nth 11 rd 0, nth 11 acg NaN)) (members 7 4 30 rd acg 0)).
    { apply first_bin_iff; [exact Hp |]. split; [| split].
      - apply in_samples; [exact Hlen |]. unfold rd. rewrite length_rd_7x4. lia.
      - unfold s_dist, half_extent. simpl fst. simpl snd. rewrite Hd, Hx, Hy.
        unfold Rmin. destruct (Rle_dec 4 3); lra.
      - unfold s_dist. simpl fst. simpl snd. rewrite Hd. lra. }
    specialize (H _ Hin). unfold s_dist in H. simpl fst in H. simpl snd in H.
    rewrite Hd in H. lra.
Qed.

End FirstBin.

(** ** Cell 6: the penalty functions of the two fits *)

Section Fits.


Lemma fadd_assoc (a b c : fval) : fadd (fadd a b) c = fadd a (fadd b c).
Proof. destruct a, b, c; simpl; try reflexivity. f_equal. ring. Qed.

Lemma fadd_zero_r (a : fval) : fadd a (Fin 0) = a.
Proof. destruct a; simpl; try reflexivity. f_equal. ring. Qed.

Lemma fsum_fold_right (l : list fval) (a : fval) :
  fold_left fadd l a = fadd a (fold_right fadd (Fin 0) l).
Proof.
  revert a. induction l as [| x l IH]; intros a; simpl.
  - now rewrite fadd_zero_r.
  - now rewrite IH, fadd_assoc.
Qed.


Lemma zip_residuals (model : R -> fval) (cvdav : list (R * fval)) :
  zip_with fsub (map snd cvdav) (map model (map fst cvdav))
  = residuals model cvdav.
Proof.
  unfold zip_with, residuals. rewrite map_map, combine_map_same, map_map.
  reflexivity.
Qed.




Lemma fsum_Fin (l : list R) : fsum (map Fin l) = Fin (Rsum l).
Proof.
  unfold fsum. rewrite fsum_fold_right.
  assert (H : fold_right fadd (Fin 0) (map Fin l) = Fin (Rsum l)).
  { induction l as [| x l IH]; simpl; [reflexivity |]. now rewrite IH. }
  rewrite H. simpl. f_equal. ring.
Qed.

Lemma Rsum_squares_nonneg (l : list R) : 0 <= Rsum (map (fun x => x * x) l).
Proof. induction l as [| x l IH]; simpl; [lra |]. nra. Qed.

Lemma fsqrt_nonneg (x : R) : 0 <= x -> fsqrt (Fin x) = Fin (sqrt x).
Proof.
  intros H. unfold fsqrt, Rsign.
  destruct (Rlt_dec 0 x); [reflexivity |].
  destruct (Rlt_dec x 0); [lra | reflexivity].
Qed.

(** the norm of a vector without specials *)
Lemma norm2_Fin (l : list R) :
  norm2 (map Fin l) = Fin (sqrt (Rsum (map (fun x => x * x) l))).
Proof.
  unfold norm2. rewrite map_map. cbn [fmul].
  rewrite <- (map_map (fun x => x * x) Fin), fsum_Fin.
  apply fsqrt_nonneg, Rsum_squares_nonneg.
Qed.

(** the residuals of a model without specials on a profile without
    specials *)
Lemma residuals_Fin (model : R -> R) (rows : list (R * R)) :
  residuals (fun r => Fin (model r)) (map (fun rv => (fst rv, Fin (snd rv))) rows)
  = map Fin (map (fun rv => snd rv - model (fst rv)) rows).
Proof. unfold residuals. rewrite !map_map. reflexivity. Qed.

Lemma pendiffexp_Fin (b : R) (more : list R) (r0 v0 : R) (rows : list (R * R)) :
  pendiffexp (b :: more) (map (fun rv => (fst rv, Fin (snd rv))) ((r0, v0) :: rows))
  = inr (Fin (sqrt (Rsum (map (fun x => x * x)
                     (map (fun rv => snd rv - v0 * exp (- b * fst rv))
                          ((r0, v0) :: rows)))))).
Proof.
  set (rows' := (r0, v0) :: rows).
  unfold pendiffexp. unfold rows' at 1. cbn [map fst snd]. fold rows'.
  change ((r0, Fin v0) :: map (fun rv : R * R => (fst rv, Fin (snd rv))) rows)
    with (map (fun rv : R * R => (fst rv, Fin (snd rv))) rows').
  rewrite (zip_residuals (fun r => fmul (Fin v0) (Fin (exp (- b * r))))).
  cbn [fmul]. rewrite (residuals_Fin (fun r => v0 * exp (- b * r))).
  now rewrite norm2_Fin.
Qed.

Lemma pendiffexpcos_Fin (b c : R) (more : list R) (r0 v0 : R) (rows : list (R * R)) :
  pendiffexpcos (b :: c :: more)
                (map (fun rv => (fst rv, Fin (snd rv))) ((r0, v0) :: rows))
  = inr (Fin (sqrt (Rsum (map (fun x => x * x)
                     (map (fun rv => snd rv - v0 * exp (- b * fst rv) * cos (c * fst rv))
                          ((r0, v0) :: rows)))))).
Proof.
  set (rows' := (r0, v0) :: rows).
  unfold pendiffexpcos. unfold rows' at 1. cbn [map fst snd]. fold rows'.
  change ((r0, Fin v0) :: map (fun rv : R * R => (fst rv, Fin (snd rv))) rows)
    with (map (fun rv : R * R => (fst rv, Fin (snd rv))) rows').
  rewrite (zip_residuals
             (fun r => fmul (fmul (Fin v0) (Fin (exp (- b * r)))) (Fin (cos (c * r))))).
  cbn [fmul].
  rewrite (residuals_Fin (fun r => v0 * exp (- b * r) * cos (c * r))).
  now rewrite norm2_Fin.
Qed.

End Fits.

(** ** C4: the two fits *)

Section FitsClaim.
Variable minimize : (list R -> result fval) -> list R -> list R.


End FitsClaim.




(** ** C5: the variance-covariance matrix *)

Section CovarianceMatrix.

Variables (maxvar alpha beta : R).

Lemma mesh1_pairs (f : R * R -> R) (data : list (R * R)) :
  mesh1 (map f data) = grid_map (fun pq => f (snd pq)) (pairs data).
Proof.
  unfold mesh1, pairs, grid_map. rewrite !map_map.
  apply map_ext. intros p. now rewrite map_map.
Qed.

Lemma mesh2_pairs (f : R * R -> R) (data : list (R * R)) :
  mesh2 (map f data) = grid_map (fun pq => f (fst pq)) (pairs data).
Proof.
  unfold mesh2, pairs, grid_map. rewrite !map_map.
  apply map_ext. intros p. now rewrite !map_map.
Qed.

Lemma rgrid_pairs (data : list (R * R)) :
  rgrid (xs_of data) (ys_of data)
  = grid_map (fun pq => distance_m (fst pq) (snd pq)) (pairs data).
Proof.
  unfold rgrid, xs_of, ys_of.
  rewrite !mesh1_pairs, !mesh2_pairs, !grid_map2_same. reflexivity.
Qed.

Lemma covariance_pairs (data : list (R * R)) :
  covariance maxvar alpha beta (xs_of data) (ys_of data)
  = grid_map (fun pq => expcos maxvar alpha beta (distance_m (fst pq) (snd pq)))
             (pairs data).
Proof. unfold covariance. now rewrite rgrid_pairs, grid_map_map. Qed.

Lemma distance_m_sym (p q : R * R) : distance_m p q = distance_m q p.
Proof. unfold distance_m. f_equal. ring. Qed.

Lemma distance_m_self (p : R * R) : distance_m p p = 0.
Proof.
  unfold distance_m.
  replace ((fst p * 1000 - fst p * 1000) ^ 2 + (snd p * 1000 - snd p * 1000) ^ 2)
    with 0 by ring.
  apply sqrt_0.
Qed.

Lemma nth_map_in {X Y} (f : X -> Y) (l : list X) (i : nat) (dx : X) (dy : Y) :
  (i < length l)%nat -> nth i (map f l) dy = f (nth i l dx).
Proof.
  intros H. rewrite (nth_indep _ dy (f dx)) by now rewrite length_map.
  apply map_nth.
Qed.

(** the entry of a grid over the pairs of points *)
Lemma at2_pairs (f : (R * R) * (R * R) -> R) (data : list (R * R)) (i j : nat) :
  (i < length data)%nat -> (j < length data)%nat ->
  at2 0 (grid_map f (pairs data)) i j
  = f (nth i data (0, 0), nth j data (0, 0)).
Proof.
  intros Hi Hj. unfold at2, grid_map, pairs. rewrite map_map.
  rewrite (nth_map_in _ data i (0, 0) []) by exact Hi.
  rewrite map_map. now rewrite (nth_map_in _ data j (0, 0) 0) by exact Hj.
Qed.

Lemma pairs_shape {Y} (f : (R * R) * (R * R) -> Y) (data : list (R * R)) :
  is_shape (length data) (length data) (grid_map f (pairs data)).
Proof.
  unfold grid_map, pairs. split.
  - now rewrite !length_map.
  - apply List.Forall_forall. intros row Hrow. rewrite map_map in Hrow.
    apply in_map_iff in Hrow. destruct Hrow as [p [<- _]].
    now rewrite !length_map.
Qed.

Lemma map_nth_seq {X Y} (h : X -> Y) (l : list X) (d : X) :
  map (fun j => h (nth j l d)) (seq 0 (length l)) = map h l.
Proof.
  induction l as [| x l IH]; [reflexivity |].
  cbn [length seq map nth]. f_equal.
  rewrite <- seq_shift, map_map. exact IH.
Qed.

(** a grid of a symmetric function over the pairs is its own transpose *)
Lemma transpose_pairs (f : (R * R) * (R * R) -> R) (data : list (R * R)) :
  (forall p q, f (p, q) = f (q, p)) ->
  transpose 0 (length data) (grid_map f (pairs data)) = grid_map f (pairs data).
Proof.
  intros Hsym. unfold transpose, column, grid_map, pairs.
  rewrite !map_map.
  etransitivity;
    [| apply (map_nth_seq (fun p => map f (map (fun q => (p, q)) data)) data (0, 0))].
  apply map_ext_in. intros j Hj. apply in_seq in Hj.
  rewrite !map_map. apply map_ext. intros p.
  rewrite map_map, (nth_map_in _ data j (0, 0) 0) by lia.
  apply Hsym.
Qed.

End CovarianceMatrix.

(** ** Finite sums *)

Section Sums.

Lemma sum_upto_S (n : nat) (f : nat -> R) :
  sum_upto (S n) f = sum_upto n f + f n.
Proof.
  unfold sum_upto. rewrite seq_S, map_app, fold_right_app. simpl.
  generalize (map f (seq 0 n)). intros l.
  induction l as [| x l IH]; simpl; [ring | rewrite IH; ring].
Qed.

Lemma sum_upto_0 (f : nat -> R) : sum_upto 0 f = 0.
Proof. reflexivity. Qed.

Lemma sum_upto_ext (n : nat) (f g : nat -> R) :
  (forall k, (k < n)%nat -> f k = g k) -> sum_upto n f = sum_upto n g.
Proof.
  induction n as [| n IH]; intros H; [reflexivity |].
  rewrite !sum_upto_S, IH, (H n) by (intros; try apply H; lia). reflexivity.
Qed.

Lemma sum_upto_scale_l (n : nat) (c : R) (f : nat -> R) :
  sum_upto n (fun k => c * f k) = c * sum_upto n f.
Proof.
  induction n as [| n IH]; [rewrite !sum_upto_0; ring |].
  rewrite !sum_upto_S, IH. ring.
Qed.

Lemma sum_upto_scale_r (n : nat) (c : R) (f : nat -> R) :
  sum_upto n (fun k => f k * c) = sum_upto n f * c.
Proof.
  induction n as [| n IH]; [rewrite !sum_upto_0; ring |].
  rewrite !sum_upto_S, IH. ring.
Qed.

Lemma sum_upto_plus (n : nat) (f g : nat -> R) :
  sum_upto n (fun k => f k + g k) = sum_upto n f + sum_upto n g.
Proof.
  induction n as [| n IH]; [rewrite !sum_upto_0; ring |].
  rewrite !sum_upto_S, IH. ring.
Qed.

Lemma sum_upto_zero (n : nat) : sum_upto n (fun _ => 0) = 0.
Proof.
  induction n as [| n IH]; [reflexivity |]. rewrite sum_upto_S, IH. ring.
Qed.

Lemma sum_upto_swap (n m : nat) (f : nat -> nat -> R) :
  sum_upto n (fun i => sum_upto m (fun j => f i j))
  = sum_upto m (fun j => sum_upto n (fun i => f i j)).
Proof.
  induction n as [| n IH].
  - rewrite sum_upto_0. symmetry. apply sum_upto_zero.
  - rewrite sum_upto_S, IH, <- sum_upto_plus.
    apply sum_upto_ext. intros j _. now rewrite sum_upto_S.
Qed.

Lemma kronecker_same (k : nat) : kronecker k k = 1.
Proof. unfold kronecker. now rewrite Nat.eqb_refl. Qed.

Lemma kronecker_diff (k l : nat) : k <> l -> kronecker k l = 0.
Proof. intros H. unfold kronecker. now rewrite (proj2 (Nat.eqb_neq k l) H). Qed.

Lemma sum_upto_kronecker (n l : nat) (f : nat -> R) :
  sum_upto n (fun k => f k * kronecker l k)
  = if Nat.ltb l n then f l else 0.
Proof.
  induction n as [| n IH]; [reflexivity |].
  rewrite sum_upto_S, IH.
  destruct (Nat.ltb_spec l n) as [H | H]; destruct (Nat.ltb_spec l (S n)) as [H' | H'];
    try lia.
  - rewrite kronecker_diff by lia. ring.
  - assert (l = n) by lia. subst l. rewrite kronecker_same. ring.
  - rewrite kronecker_diff by lia. ring.
Qed.

Lemma sum_upto_le (n : nat) (f g : nat -> R) :
  (forall k, (k < n)%nat -> f k <= g k) -> sum_upto n f <= sum_upto n g.
Proof.
  induction n as [| n IH]; intros H; [rewrite !sum_upto_0; lra |].
  rewrite !sum_upto_S.
  assert (sum_upto n f <= sum_upto n g) by (apply IH; intros; apply H; lia).
  assert (f n <= g n) by (apply H; lia). lra.
Qed.

Lemma sum_upto_Rabs (n : nat) (f : nat -> R) :
  Rabs (sum_upto n f) <= sum_upto n (fun k => Rabs (f k)).
Proof.
  induction n as [| n IH]; [rewrite !sum_upto_0, Rabs_R0; lra |].
  rewrite !sum_upto_S.
  pose proof (Rabs_triang (sum_upto n f) (f n)). lra.
Qed.

(** two sums contracted over an index along which the factors are
    orthonormal *)
Lemma sum_contract (n : nat) (X Y : nat -> nat -> R) (F G : nat -> R) :
  (forall k l, (k < n)%nat -> (l < n)%nat ->
     sum_upto n (fun a => X k a * Y l a) = kronecker k l) ->
  sum_upto n (fun a => sum_upto n (fun k => F k * X k a)
                       * sum_upto n (fun l => Y l a * G l))
  = sum_upto n (fun k => F k * G k).
Proof.
  intros Horth.
  transitivity
    (sum_upto n (fun a => sum_upto n (fun k => sum_upto n (fun l =>
       (F k * G l) * (X k a * Y l a))))).
  { apply sum_upto_ext. intros a _. rewrite <- sum_upto_scale_r.
    apply sum_upto_ext. intros k _. rewrite <- sum_upto_scale_l.
    apply sum_upto_ext. intros l _. ring. }
  rewrite sum_upto_swap. apply sum_upto_ext. intros k Hk.
  rewrite sum_upto_swap.
  transitivity (sum_upto n (fun l => (F k * G l) * kronecker k l)).
  { apply sum_upto_ext. intros l Hl. rewrite sum_upto_scale_l.
    now rewrite Horth. }
  rewrite (sum_upto_kronecker n k (fun l => F k * G l)).
  destruct (Nat.ltb_spec k n); [reflexivity | lia].
Qed.

End Sums.

(** ** Matrix products as sums *)

Section MatrixEntries.

Lemma sum_upto_head (n : nat) (f : nat -> R) :
  sum_upto (S n) f = f 0%nat + sum_upto n (fun k => f (S k)).
Proof.
  unfold sum_upto. cbn [seq map fold_right].
  now rewrite <- seq_shift, map_map.
Qed.

Lemma dot_sum (n : nat) (u v : list R) :
  length u = n -> length v = n ->
  dot u v = sum_upto n (fun k => nth k u 0 * nth k v 0).
Proof.
  unfold dot. rewrite fold_left_Rplus. rewrite Rplus_0_l.
  revert u v. induction n as [| n IH]; intros [| x u] [| y v] Hu Hv;
    simpl in Hu, Hv; try discriminate; [reflexivity |].
  rewrite sum_upto_head. cbn [combine map Rsum fold_right nth fst snd].
  f_equal. apply IH; congruence.
Qed.

Lemma row_length {X} (n m i : nat) (g : grid X) :
  is_shape n m g -> (i < n)%nat -> length (nth i g []) = m.
Proof.
  intros [Hn Hc] Hi. rewrite List.Forall_forall in Hc. apply Hc.
  apply nth_In. lia.
Qed.

Lemma ncols_of_shape {X} (n m : nat) (g : grid X) :
  is_shape n m g -> (0 < n)%nat -> ncols_of g = m.
Proof.
  intros [Hn Hc] Hpos. destruct g as [| r g]; [simpl in Hn; lia |].
  simpl. now apply Forall_inv in Hc.
Qed.

Lemma nth_column (g : grid R) (i j : nat) :
  (i < length g)%nat -> nth i (column 0 g j) 0 = at2 0 g i j.
Proof.
  intros Hi. unfold column, at2. now rewrite (nth_map_in _ g i [] 0).
Qed.

Lemma at2_matmul_cols (M Nt : grid R) (i j : nat) :
  (i < length M)%nat -> (j < length Nt)%nat ->
  at2 0 (matmul_cols M Nt) i j = dot (nth i M []) (nth j Nt []).
Proof.
  intros Hi Hj. unfold at2, matmul_cols.
  rewrite (nth_map_in _ M i [] []) by exact Hi.
  now rewrite (nth_map_in _ Nt j [] 0) by exact Hj.
Qed.

Lemma at2_matmul (n : nat) (A B : grid R) (i j : nat) :
  is_shape n n A -> is_shape n n B -> (i < n)%nat -> (j < n)%nat ->
  at2 0 (matmul A B) i j = sum_upto n (fun k => at2 0 A i k * at2 0 B k j).
Proof.
  intros HA HB Hi Hj. unfold matmul.
  rewrite (ncols_of_shape n n B HB) by lia.
  rewrite at2_matmul_cols;
    [| destruct HA as [-> _]; exact Hi
     | unfold transpose; now rewrite length_map, length_seq ].
  unfold transpose. rewrite (nth_map_seq _ n j []) by exact Hj.
  rewrite (dot_sum n).
  - apply sum_upto_ext. intros k Hk. f_equal.
    apply nth_column. destruct HB as [-> _]. exact Hk.
  - now apply (row_length n n i A).
  - unfold column. rewrite length_map. now destruct HB.
Qed.

Lemma matmul_cols_shape (n : nat) (M Nt : grid R) :
  length M = n -> length Nt = n -> is_shape n n (matmul_cols M Nt).
Proof.
  intros HM HN. unfold matmul_cols. split.
  - now rewrite length_map.
  - apply List.Forall_forall. intros row Hrow. apply in_map_iff in Hrow.
    destruct Hrow as [r [<- _]]. now rewrite length_map.
Qed.

Lemma matmul_shape (n : nat) (A B : grid R) :
  is_shape n n A -> is_shape n n B -> is_shape n n (matmul A B).
Proof.
  intros HA HB. destruct (Nat.eq_dec n 0%nat) as [-> | Hn].
  - destruct HA as [HA _]. apply length_zero_iff_nil in HA. subst A.
    split; [reflexivity | constructor].
  - unfold matmul. apply matmul_cols_shape; [now destruct HA |].
    rewrite (ncols_of_shape n n B HB) by lia.
    unfold transpose. now rewrite length_map, length_seq.
Qed.

Lemma pinv_from_shape (n : nat) (rcond : R) (u : grid R) (s : list R) (vt : grid R) :
  is_shape n n u -> is_shape n n vt -> is_shape n n (pinv_from rcond u s vt).
Proof.
  intros Hu Hvt. destruct (Nat.eq_dec n 0%nat) as [-> | Hn].
  - destruct Hvt as [Hvt _]. apply length_zero_iff_nil in Hvt. subst vt.
    split; [reflexivity | constructor].
  - unfold pinv_from. apply matmul_cols_shape.
    + rewrite (ncols_of_shape n n vt Hvt) by lia.
      unfold transpose. now rewrite length_map, length_seq.
    + rewrite length_map. now destruct Hu.
Qed.

Lemma at2_pinv_from (n : nat) (rcond : R) (u : grid R) (s : list R) (vt : grid R)
  (a b : nat) :
  is_shape n n u -> is_shape n n vt -> length s = n ->
  (a < n)%nat -> (b < n)%nat ->
  at2 0 (pinv_from rcond u s vt) a b
  = sum_upto n (fun k => at2 0 vt k a * (nth k (inverted rcond s) 0 * at2 0 u b k)).
Proof.
  intros Hu Hvt Hs Ha Hb. unfold pinv_from.
  rewrite (ncols_of_shape n n vt Hvt) by lia.
  rewrite at2_matmul_cols;
    [| unfold transpose; now rewrite length_map, length_seq
     | rewrite length_map; destruct Hu as [-> _]; exact Hb ].
  unfold transpose. rewrite (nth_map_seq _ n a []) by exact Ha.
  assert (Hrow : length (nth b u []) = n) by now apply (row_length n n b u).
  assert (Hinv : length (inverted rcond s) = n)
    by (unfold inverted; now rewrite length_map).
  rewrite (nth_map_in _ u b [] []) by (destruct Hu as [-> _]; exact Hb).
  rewrite (dot_sum n).
  - apply sum_upto_ext. intros k Hk.
    rewrite nth_column by (destruct Hvt as [-> _]; exact Hk). f_equal.
    rewrite (nth_map_in _ _ k (0, 0) 0) by (rewrite length_combine; lia).
    rewrite combine_nth by lia. reflexivity.
  - unfold column. rewrite length_map. now destruct Hvt.
  - rewrite length_map, length_combine. lia.
Qed.

End MatrixEntries.

(** ** C5: the pseudoinverse *)

Section Pseudoinverse.

Variables (n : nat) (rcond : R) (E u : grid R) (s : list R) (vt : grid R).
Hypothesis HE : is_shape n n E.
Hypothesis Hsvd : is_svd n E u s vt.
Hypothesis Hrcond : 0 <= rcond.

Lemma fold_left_Rmax_ge (l : list R) (a : R) : a <= fold_left Rmax l a.
Proof.
  revert a. induction l as [| x l IH]; intros a; simpl; [lra |].
  pose proof (IH (Rmax a x)). pose proof (Rmax_l a x). lra.
Qed.

Lemma cutoff_nonneg : 0 <= rcond * amax s.
Proof.
  apply Rmult_le_pos; [exact Hrcond |]. unfold amax.
  pose proof (svd_nonneg n E u s vt Hsvd 0%nat) as Hn.
  pose proof (svd_length_s n E u s vt Hsvd) as Hlen.
  destruct s as [| s0 s']; [simpl; lra |].
  pose proof (fold_left_Rmax_ge s' s0) as H. simpl in *.
  assert (H0 : 0 <= s0) by (apply Hn; lia).
  lra.
Qed.

Lemma nth_inverted (k : nat) :
  (k < n)%nat ->
  nth k (inverted rcond s) 0
  = if Rltb (rcond * amax s) (nth k s 0) then 1 / nth k s 0 else 0.
Proof.
  intros Hk. unfold inverted.
  rewrite (nth_map_in _ s k 0 0) by (rewrite (svd_length_s n E u s vt Hsvd); exact Hk).
  reflexivity.
Qed.

Lemma surviving_eq (k : nat) :
  (k < n)%nat ->
  nth k s 0 * nth k (inverted rcond s) 0 * nth k s 0 = surviving rcond s k.
Proof.
  intros Hk. rewrite nth_inverted by exact Hk. unfold surviving, Rltb.
  destruct (Rlt_dec (rcond * amax s) (nth k s 0)) as [H | H]; [| ring].
  pose proof cutoff_nonneg. field. lra.
Qed.

Lemma surviving_close (k : nat) :
  (k < n)%nat -> Rabs (surviving rcond s k - nth k s 0) <= rcond * amax s.
Proof.
  intros Hk. pose proof cutoff_nonneg as Hc.
  pose proof (svd_nonneg n E u s vt Hsvd k Hk) as Hs.
  unfold surviving, Rltb.
  destruct (Rlt_dec (rcond * amax s) (nth k s 0)) as [H | H].
  - replace (nth k s 0 - nth k s 0) with 0 by ring. rewrite Rabs_R0. exact Hc.
  - replace (0 - nth k s 0) with (- nth k s 0) by ring.
    rewrite Rabs_Ropp, Rabs_pos_eq by exact Hs. lra.
Qed.

(** [E @ pinv(E)] *)
Lemma at2_E_pinv (i b : nat) :
  (i < n)%nat -> (b < n)%nat ->
  at2 0 (matmul E (pinv_from rcond u s vt)) i b
  = sum_upto n (fun k => (at2 0 u i k * nth k s 0)
                         * (nth k (inverted rcond s) 0 * at2 0 u b k)).
Proof.
  intros Hi Hb.
  pose proof (svd_shape_u n E u s vt Hsvd) as Hu.
  pose proof (svd_shape_vt n E u s vt Hsvd) as Hvt.
  pose proof (svd_length_s n E u s vt Hsvd) as Hs.
  rewrite (at2_matmul n) by (try apply pinv_from_shape; assumption).
  transitivity
    (sum_upto n (fun a =>
       sum_upto n (fun k => (at2 0 u i k * nth k s 0) * at2 0 vt k a)
       * sum_upto n (fun l => at2 0 vt l a
                              * (nth l (inverted rcond s) 0 * at2 0 u b l)))).
  - apply sum_upto_ext. intros a Ha.
    rewrite (svd_product n E u s vt Hsvd i a Hi Ha).
    now rewrite (at2_pinv_from n) by assumption.
  - apply (sum_contract n (fun k a => at2 0 vt k a) (fun l a => at2 0 vt l a)
             (fun k => at2 0 u i k * nth k s 0)
             (fun l => nth l (inverted rcond s) 0 * at2 0 u b l)).
    intros k l Hk Hl. now apply (svd_vt_rows n E u s vt Hsvd).
Qed.

(** [E @ pinv(E) @ E] in terms of the decomposition *)
Lemma at2_E_pinv_E (i j : nat) :
  (i < n)%nat -> (j < n)%nat ->
  at2 0 (matmul (matmul E (pinv_from rcond u s vt)) E) i j
  = sum_upto n (fun k => at2 0 u i k * surviving rcond s k * at2 0 vt k j).
Proof.
  intros Hi Hj.
  pose proof (svd_shape_u n E u s vt Hsvd) as Hu.
  pose proof (svd_shape_vt n E u s vt Hsvd) as Hvt.
  assert (HP : is_shape n n (pinv_from rcond u s vt)) by now apply pinv_from_shape.
  rewrite (at2_matmul n) by (try apply matmul_shape; assumption).
  transitivity
    (sum_upto n (fun k => (at2 0 u i k * nth k s 0 * nth k (inverted rcond s) 0)
                          * (nth k s 0 * at2 0 vt k j))).
  - transitivity
      (sum_upto n (fun b =>
         sum_upto n (fun k => (at2 0 u i k * nth k s 0 * nth k (inverted rcond s) 0)
                              * at2 0 u b k)
         * sum_upto n (fun m => at2 0 u b m * (nth m s 0 * at2 0 vt m j)))).
    + apply sum_upto_ext. intros b Hb.
      rewrite (at2_E_pinv i b Hi Hb), (svd_product n E u s vt Hsvd b j Hb Hj).
      f_equal; apply sum_upto_ext; intros k _; ring.
    + apply (sum_contract n (fun k b => at2 0 u b k) (fun m b => at2 0 u b m)
               (fun k => at2 0 u i k * nth k s 0 * nth k (inverted rcond s) 0)
               (fun m => nth m s 0 * at2 0 vt m j)).
      intros k l Hk Hl. now apply (svd_u_cols n E u s vt Hsvd).
  - apply sum_upto_ext. intros k Hk. rewrite <- (surviving_eq k Hk). ring.
Qed.

Lemma abs_product_bound (a d b c : R) :
  Rabs d <= c -> Rabs (a * d * b) <= c * ((a * a + b * b) / 2).
Proof.
  intros Hd. rewrite !Rabs_mult.
  pose proof (Rabs_pos a) as Ha. pose proof (Rabs_pos b) as Hb.
  pose proof (Rabs_pos d) as Hd0.
  assert (Ha2 : Rabs a * Rabs a = a * a).
  { rewrite <- Rabs_mult. apply Rabs_pos_eq. nra. }
  assert (Hb2 : Rabs b * Rabs b = b * b).
  { rewrite <- Rabs_mult. apply Rabs_pos_eq. nra. }
  assert (Hab : Rabs a * Rabs b <= (a * a + b * b) / 2).
  { rewrite <- Ha2, <- Hb2.
    pose proof (Rle_0_sqr (Rabs a - Rabs b)) as Hs. unfold Rsqr in Hs. nra. }
  assert (Hc : 0 <= c) by lra.
  assert (Hab0 : 0 <= Rabs a * Rabs b) by nra.
  replace (Rabs a * Rabs d * Rabs b) with (Rabs d * (Rabs a * Rabs b)) by ring.
  apply Rmult_le_compat; assumption.
Qed.

(** every entry of [E @ pinv(E) @ E] is within [rcond * max(s)] of [E] *)
Lemma E_pinv_E_close (i j : nat) :
  (i < n)%nat -> (j < n)%nat ->
  Rabs (at2 0 (matmul (matmul E (pinv_from rcond u s vt)) E) i j - at2 0 E i j)
  <= rcond * amax s.
Proof.
  intros Hi Hj.
  rewrite at2_E_pinv_E, (svd_product n E u s vt Hsvd i j) by assumption.
  set (c := rcond * amax s).
  replace (sum_upto n (fun k => at2 0 u i k * surviving rcond s k * at2 0 vt k j)
           - sum_upto n (fun k => at2 0 u i k * nth k s 0 * at2 0 vt k j))
    with (sum_upto n (fun k => at2 0 u i k * (surviving rcond s k - nth k s 0)
                               * at2 0 vt k j)).
  2:{ rewrite <- (Rmult_1_l (sum_upto n (fun k => at2 0 u i k * nth k s 0 * at2 0 vt k j))).
      unfold Rminus. rewrite Ropp_mult_distr_l, <- sum_upto_scale_l, <- sum_upto_plus.
      apply sum_upto_ext. intros k _. ring. }
  eapply Rle_trans; [apply sum_upto_Rabs |].
  eapply Rle_trans.
  { apply (sum_upto_le n _
             (fun k => c * ((at2 0 u i k * at2 0 u i k
                             + at2 0 vt k j * at2 0 vt k j) / 2))).
    intros k Hk. apply abs_product_bound. now apply surviving_close. }
  rewrite sum_upto_scale_l.
  replace (sum_upto n (fun k => (at2 0 u i k * at2 0 u i k
                                 + at2 0 vt k j * at2 0 vt k j) / 2))
    with ((sum_upto n (fun k => at2 0 u i k * at2 0 u i k)
           + sum_upto n (fun k => at2 0 vt k j * at2 0 vt k j)) * / 2)
    by (rewrite <- sum_upto_plus, <- sum_upto_scale_r; reflexivity).
  rewrite (svd_u_rows n E u s vt Hsvd i i Hi Hi).
  rewrite (svd_vt_cols n E u s vt Hsvd j j Hj Hj).
  rewrite !kronecker_same. lra.
Qed.

(** and equal to [E] when no singular value is dropped *)
Lemma E_pinv_E_exact (i j : nat) :
  (forall k, (k < n)%nat -> nth k s 0 = 0 \/ rcond * amax s < nth k s 0) ->
  (i < n)%nat -> (j < n)%nat ->
  at2 0 (matmul (matmul E (pinv_from rcond u s vt)) E) i j = at2 0 E i j.
Proof.
  intros Hall Hi Hj.
  rewrite at2_E_pinv_E, (svd_product n E u s vt Hsvd i j) by assumption.
  apply sum_upto_ext. intros k Hk. f_equal. f_equal.
  unfold surviving, Rltb.
  destruct (Rlt_dec (rcond * amax s) (nth k s 0)) as [H | H]; [reflexivity |].
  destruct (Hall k Hk) as [H0 | H0]; [now rewrite H0 | contradiction].
Qed.

End Pseudoinverse.

Section CovarianceClaims.

Lemma covariance_shape (maxvar alpha beta : R) (data : list (R * R)) :
  is_shape (length data) (length data)
           (covariance maxvar alpha beta (xs_of data) (ys_of data)).
Proof. rewrite covariance_pairs. apply pairs_shape. Qed.

Lemma covariance_entry (maxvar alpha beta : R) (data : list (R * R)) (i j : nat) :
  (i < length data)%nat -> (j < length data)%nat ->
  at2 0 (covariance maxvar alpha beta (xs_of data) (ys_of data)) i j
  = expcos maxvar alpha beta (distance_m (nth i data (0, 0)) (nth j data (0, 0))).
Proof.
  intros Hi Hj. rewrite covariance_pairs.
  now rewrite (at2_pairs _ data i j Hi Hj).
Qed.

(** C5: the matrix [E] has the entries
    [maxvar * exp(-alpha * d(i,j)) * cos(beta * d(i,j))] of the pairwise
    distances and is its own transpose; the distance matrix has a zero
    diagonal; and for the pseudoinverse that [np.linalg.pinv] builds from
    a singular value decomposition of [E], every entry of
    [E @ pinv(E) @ E] is within [rcond * max(s)] of the entry of [E], and
    equal to it when no non-zero singular value is at or below the
    cutoff. *)
Theorem covariance_matrix_properties
  (maxvar alpha beta : R) (data : list (R * R)) :
  let x := xs_of data in
  let y := ys_of data in
  let n := length data in
  let E := covariance maxvar alpha beta x y in
  (forall i j, (i < n)%nat -> (j < n)%nat ->
     at2 0 E i j
     = expcos maxvar alpha beta (distance_m (nth i data (0, 0)) (nth j data (0, 0))))
  /\ transpose 0 n E = E
  /\ (forall i j, (i < n)%nat -> (j < n)%nat -> at2 0 E i j = at2 0 E j i)
  /\ (forall i, (i < n)%nat -> at2 0 (rgrid x y) i i = 0)
  /\ (forall rcond u s vt,
        0 <= rcond -> is_svd n E u s vt ->
        let EPE := matmul (matmul E (pinv_from rcond u s vt)) E in
        (forall i j, (i < n)%nat -> (j < n)%nat ->
           Rabs (at2 0 EPE i j - at2 0 E i j) <= rcond * amax s)
        /\ ((forall k, (k < n)%nat ->
               nth k s 0 = 0 \/ rcond * amax s < nth k s 0) ->
            forall i j, (i < n)%nat -> (j < n)%nat ->
              at2 0 EPE i j = at2 0 E i j)).
Proof.
  intros x y n E. split; [| split; [| split; [| split]]].
  - intros i j Hi Hj. now apply covariance_entry.
  - unfold E, x, y, n. rewrite covariance_pairs. apply transpose_pairs.
    intros p q. simpl. now rewrite distance_m_sym.
  - intros i j Hi Hj. unfold E, x, y. rewrite !covariance_entry by assumption.
    now rewrite distance_m_sym.
  - intros i Hi. unfold x, y. rewrite rgrid_pairs.
    rewrite (at2_pairs _ data i i Hi Hi). simpl. apply distance_m_self.
  - intros rcond u s vt Hrcond Hsvd EPE.
    assert (HE : is_shape n n E) by apply covariance_shape.
    split.
    + intros i j Hi Hj. now apply (E_pinv_E_close n rcond E u s vt).
    + intros Hall i j Hi Hj. now apply (E_pinv_E_exact n rcond E u s vt).
Qed.

Lemma inv_sqrt2_sqr : / sqrt 2 * / sqrt 2 = / 2.
Proof.
  rewrite <- Rinv_mult. f_equal. apply sqrt_sqrt. lra.
Qed.

Lemma twin_covariance_entry (i j : nat) :
  (i < 2)%nat -> (j < 2)%nat ->
  at2 0 (covariance 1 (1 / 1000) 0 (xs_of twin_points) (ys_of twin_points)) i j = 1.
Proof.
  intros Hi Hj. rewrite covariance_entry by assumption.
  assert (Hp : forall k, (k < 2)%nat -> nth k twin_points (0, 0) = (0, 0)).
  { intros [| [| k]] Hk; [reflexivity | reflexivity | simpl in Hk; lia]. }
  rewrite (Hp i Hi), (Hp j Hj), distance_m_self. unfold expcos.
  replace (- (1 / 1000) * 0) with 0 by field.
  replace (0 * 0) with 0 by ring. rewrite exp_0, cos_0. ring.
Qed.

Lemma twin_svd :
  is_svd 2 (covariance 1 (1 / 1000) 0 (xs_of twin_points) (ys_of twin_points))
         twin_u twin_s twin_u.
Proof.
  pose proof inv_sqrt2_sqr as Hq.
  assert (Hshape : is_shape 2 2 twin_u) by (split; [reflexivity | repeat constructor]).
  constructor; try exact Hshape; try reflexivity.
  - intros [| [| k]] Hk; simpl; try lra; lia.
  - intros i j Hi Hj. rewrite twin_covariance_entry by assumption.
    destruct i as [| [| i]]; [| | lia]; destruct j as [| [| j]]; try lia;
      unfold sum_upto, twin_u, twin_s, at2; simpl; nra.
  - intros k l Hk Hl.
    destruct k as [| [| k]]; [| | lia]; destruct l as [| [| l]]; try lia;
      unfold sum_upto, twin_u, at2, kronecker; simpl; nra.
  - intros k l Hk Hl.
    destruct k as [| [| k]]; [| | lia]; destruct l as [| [| l]]; try lia;
      unfold sum_upto, twin_u, at2, kronecker; simpl; nra.
  - intros k l Hk Hl.
    destruct k as [| [| k]]; [| | lia]; destruct l as [| [| l]]; try lia;
      unfold sum_upto, twin_u, at2, kronecker; simpl; nra.
  - intros k l Hk Hl.
    destruct k as [| [| k]]; [| | lia]; destruct l as [| [| l]]; try lia;
      unfold sum_upto, twin_u, at2, kronecker; simpl; nra.
Qed.

Lemma twin_cutoff : (1 / 10 ^ 15) * amax twin_s < 2.
Proof.
  unfold amax, twin_s. simpl. rewrite Rmax_left by lra.
  assert (H : 0 < / (10 * (10 * (10 * (10 * (10 * (10 * (10 * (10 * (10 *
               (10 * (10 * (10 * (10 * (10 * (10 * 1))))))))))))))) <= 1).
  { split; [apply Rinv_0_lt_compat; lra |].
    match goal with
    | |- / ?X <= 1 =>
        pose proof (Rinv_le_contravar 1 X ltac:(lra) ltac:(lra)) as Hi
    end.
    rewrite Rinv_1 in Hi. exact Hi. }
  lra.
Qed.

Lemma covariance_matrix_properties_witness :
  let E := covariance 1 (1 / 1000) 0 (xs_of twin_points) (ys_of twin_points) in
  let Einv := pinv_from (1 / 10 ^ 15) twin_u twin_s twin_u in
  0 <= 1 / 10 ^ 15
  /\ is_svd 2 E twin_u twin_s twin_u
  /\ at2 0 (matmul (matmul E Einv) E) 0 1 = at2 0 E 0 1
  /\ at2 0 (matmul (matmul E Einv) E) 1 1 = at2 0 E 1 1.
Proof.
  intros E Einv.
  assert (Hr : 0 <= 1 / 10 ^ 15).
  { apply Rlt_le. apply Rdiv_lt_0_compat; [lra | apply pow_lt; lra]. }
  assert (Hall : forall k, (k < 2)%nat ->
            nth k twin_s 0 = 0 \/ 1 / 10 ^ 15 * amax twin_s < nth k twin_s 0).
  { intros k Hk. destruct k as [| [| k]].
    - right. exact twin_cutoff.
    - left. reflexivity.
    - simpl in Hk. lia. }
  pose proof (proj2 (proj2 (proj2 (proj2 (proj2
            (covariance_matrix_properties 1 (1 / 1000) 0 twin_points))))
            (1 / 10 ^ 15) twin_u twin_s twin_u Hr twin_svd) Hall) as Hexact.
  split; [exact Hr |]. split; [exact twin_svd |].
  split; apply Hexact; simpl; lia.
Defined.

End CovarianceClaims.

(* ================================================================== *)
(** * Part III: further properties of the notebooks *)
(* ================================================================== *)

(** ** Cell 4: what the plane removal leaves behind *)

Section DetrendedField.

(** subtracting a plane keeps the missing pixels, and with them the shape *)
Lemma minus_plane_mask (m0 m1 m2 : R) (g : grid pixel) :
  grid_map isnan_px (minus_plane m0 m1 m2 g) = grid_map isnan_px g.
Proof.
  unfold minus_plane. rewrite grid_map_map.
  transitivity (grid_map (fun x => isnan_px (cell_val x)) (cells g)).
  - unfold grid_map. apply map_ext. intros row. apply map_ext. intros x.
    now destruct (cell_val x).
  - now rewrite <- grid_map_map, cells_val.
Qed.

Lemma plane_mask (params : list R) (g : grid pixel) :
  grid_map isnan_px (grid_map (plane_cell params) (cells g)) = grid_map isnan_px g.
Proof.
  rewrite grid_map_map.
  transitivity (grid_map (fun x => isnan_px (cell_val x)) (cells g)).
  - unfold grid_map. apply map_ext. intros row. apply map_ext. intros x.
    unfold plane_cell. now destruct (cell_val x).
  - now rewrite <- grid_map_map, cells_val.
Qed.

(** two grids with the same mask have the same shape *)
Lemma same_mask_rectangular {X Y} (f : Y -> bool) (h : X -> bool)
  (g : grid X) (g' : grid Y) :
  grid_map f g' = grid_map h g -> rectangular g -> rectangular g'.
Proof.
  intros Hm [_ Hc]. apply rectangular_intro.
  assert (Hlen : map (@length Y) g' = map (@length X) g).
  { apply (f_equal (map (@length bool))) in Hm. unfold grid_map in Hm.
    rewrite !map_map in Hm.
    rewrite (map_ext (fun x => length (map f x)) (@length Y)),
            (map_ext (fun x => length (map h x)) (@length X)) in Hm;
      [exact Hm | |]; intros; apply length_map. }
  assert (Hn : ncols_of g' = ncols_of g).
  { destruct g' as [| r' g'], g as [| r g]; try discriminate; [reflexivity |].
    simpl in *. congruence. }
  rewrite Hn. apply List.Forall_forall. intros row Hin.
  apply (in_map (@length Y)) in Hin. rewrite Hlen in Hin.
  apply in_map_iff in Hin. destruct Hin as (row0 & <- & Hin0).
  rewrite List.Forall_forall in Hc. now apply Hc.
Qed.

Lemma minus_plane_rectangular (m0 m1 m2 : R) (g : grid pixel) :
  rectangular g -> rectangular (minus_plane m0 m1 m2 g).
Proof. apply (same_mask_rectangular isnan_px isnan_px), minus_plane_mask. Qed.

(** the cell on a field whose valid pixels are not on one line *)
Lemma flatten_crop_regular (g : grid pixel) :
  rectangular g ->
  ~ on_one_line (valid_pixels g) ->
  exists m0 m1 m2,
    flatten_crop g
    = inr {| planeparams := [m0; m1; m2];
             plane := grid_map (plane_cell [m0; m1; m2]) (cells g);
             flatcropifg := minus_plane m0 m1 m2 g |}
    /\ solves_normal (valid_pixels g) m0 m1 m2
    /\ normal_det (valid_pixels g) <> 0.
Proof.
  intros Hrect Hline.
  assert (Hdet : normal_det (valid_pixels g) <> 0).
  { intros H. apply Hline. now apply normal_det_line. }
  rewrite (flatten_crop_unfold g Hrect).
  destruct (inv_regular _ Hdet) as (Ai & m0 & m1 & m2 & Hinv & Hm & Hsol).
  rewrite Hinv. cbv zeta. rewrite Hm. simpl nth.
  exists m0, m1, m2. split; [reflexivity |]. split; assumption.
Qed.

(** X1 (cell 4): on a field whose valid pixels are not on one line, the
    plane removal returns a best-fitting plane and a detrended field that
    have the shape of the input and are missing (nan) in exactly the pixels
    in which the input is missing: no valid pixel is lost and no missing
    pixel is filled. *)
Theorem detrend_keeps_mask (g : grid pixel) :
  rectangular g ->
  ~ on_one_line (valid_pixels g) ->
  exists res,
    flatten_crop g = inr res
    /\ grid_map isnan_px (flatcropifg res) = grid_map isnan_px g
    /\ grid_map isnan_px (plane res) = grid_map isnan_px g
    /\ rectangular (flatcropifg res)
    /\ nrows_of (flatcropifg res) = nrows_of g
    /\ ncols_of (flatcropifg res) = ncols_of g.
Proof.
  intros Hrect Hline.
  destruct (flatten_crop_regular g Hrect Hline) as (m0 & m1 & m2 & Hres & _ & _).
  eexists. split; [exact Hres |]. cbn [flatcropifg plane].
  pose proof (minus_plane_mask m0 m1 m2 g) as Hmask.
  split; [exact Hmask |]. split; [apply plane_mask |].
  split; [now apply minus_plane_rectangular |].
  apply (f_equal (map (@length bool))) in Hmask. unfold grid_map in Hmask.
  rewrite !map_map in Hmask.
  split.
  - apply (f_equal (@length nat)) in Hmask. now rewrite !length_map in Hmask.
  - destruct (minus_plane m0 m1 m2 g) as [| r' g'], g as [| r g0];
      try discriminate; [reflexivity |].
    simpl in Hmask. injection Hmask as Hh _. now rewrite !length_map in Hh.
Qed.

Lemma detrend_keeps_mask_witness :
  exists res,
    flatten_crop field_2x2 = inr res
    /\ grid_map isnan_px (flatcropifg res) = grid_map isnan_px field_2x2
    /\ grid_map isnan_px (plane res) = grid_map isnan_px field_2x2
    /\ rectangular (flatcropifg res)
    /\ nrows_of (flatcropifg res) = nrows_of field_2x2
    /\ ncols_of (flatcropifg res) = ncols_of field_2x2.
Proof.
  apply detrend_keeps_mask.
  - apply rectangular_intro. repeat constructor.
  - exact field_2x2_not_on_line.
Defined.





End DetrendedField.

(** ** Cell 6: the rows of the radial profile *)

Section ProfileRows.

(** X6 (cell 6): the rows of the profile partition the samples that pass
    the distance cut and lie off the centre: each such sample is averaged
    into exactly one row; a row averages nothing but such samples; and the
    last row is never empty. *)
Theorem profile_rows_partition (nrows ncols : nat) (pixsize : R) (g : grid fval) :
  is_shape nrows ncols g -> 0 < pixsize ->
  let rd := rd_of nrows ncols pixsize in
  let acg := acg_of nrows ncols pixsize g in
  let in_bin := members nrows ncols pixsize rd acg in
  match profile_of nrows ncols pixsize g with
  | inr cvdav =>
      (forall s, In s (kept nrows ncols pixsize rd acg) -> 0 < s_dist s ->
         exists b, (b < length cvdav)%nat /\ In s (in_bin b)
                   /\ forall b', In s (in_bin b') -> b' = b)
      /\ (forall b s, In s (in_bin b) ->
            (b < length cvdav)%nat
            /\ In s (kept nrows ncols pixsize rd acg) /\ 0 < s_dist s)
      /\ (cvdav <> [] -> in_bin (length cvdav - 1)%nat <> [])
  | inl e => e = ValueError /\ kept nrows ncols pixsize rd acg = []
  end.
Proof.
  intros Hg Hp. cbv zeta.
  pose proof (profile_of_rows nrows ncols pixsize g Hg) as Hrows. cbv zeta in Hrows.
  set (rd := rd_of nrows ncols pixsize) in *.
  set (acg := acg_of nrows ncols pixsize g) in *.
  set (in_bin := members nrows ncols pixsize rd acg) in *.
  destruct Hrows as [[Hnil Herr] | (mx & Hrows & (smax & Hsmax & Hbmax) & Hle)].
  - rewrite Herr. now split.
  - rewrite Hrows. rewrite length_map, length_seq. split; [| split].
    + intros s Hs Hd.
      pose proof (bin_index_positive pixsize s Hp Hd) as H1.
      pose proof (Hle s Hs) as H2.
      exists (Z.to_nat (bin_index pixsize s - 1)). split; [lia |]. split.
      * apply in_members. split; [exact Hs | lia].
      * intros b' Hb'. apply in_members in Hb'. lia.
    + intros b s Hs. apply in_members in Hs. destruct Hs as [Hs Hb].
      pose proof (Hle s Hs) as H2. split; [lia |]. split; [exact Hs |].
      pose proof (bin_interval pixsize s b Hp Hb) as [Hlow _].
      pose proof (pos_INR b). nra.
    + intros Hne Hempty.
      assert (Hpos : (0 < Z.to_nat mx)%nat).
      { destruct (Z.to_nat mx); [now contradiction Hne | lia]. }
      assert (Hin : In smax (in_bin (Z.to_nat mx - 1)%nat)).
      { apply in_members. split; [exact Hsmax | lia]. }
      rewrite Hempty in Hin. contradiction.
Qed.

Lemma profile_rows_partition_witness :
  match profile_of 2 2 30 [[Fin 1; Fin 0]; [Fin 0; Fin 1]] with
  | inr cvdav =>
      (forall s,
         In s (kept 2 2 30 (rd_of 2 2 30)
                 (acg_of 2 2 30 [[Fin 1; Fin 0]; [Fin 0; Fin 1]])) ->
         0 < s_dist s ->
         exists b, (b < length cvdav)%nat
                   /\ In s (members 2 2 30 (rd_of 2 2 30)
                              (acg_of 2 2 30 [[Fin 1; Fin 0]; [Fin 0; Fin 1]]) b)
                   /\ forall b',
                        In s (members 2 2 30 (rd_of 2 2 30)
                                (acg_of 2 2 30 [[Fin 1; Fin 0]; [Fin 0; Fin 1]]) b') ->
                        b' = b)
      /\ (forall b s,
            In s (members 2 2 30 (rd_of 2 2 30)
                    (acg_of 2 2 30 [[Fin 1; Fin 0]; [Fin 0; Fin 1]]) b) ->
            (b < length cvdav)%nat
            /\ In s (kept 2 2 30 (rd_of 2 2 30)
                       (acg_of 2 2 30 [[Fin 1; Fin 0]; [Fin 0; Fin 1]]))
            /\ 0 < s_dist s)
      /\ (cvdav <> [] ->
          members 2 2 30 (rd_of 2 2 30)
            (acg_of 2 2 30 [[Fin 1; Fin 0]; [Fin 0; Fin 1]]) (length cvdav - 1)%nat
          <> [])
  | inl e =>
      e = ValueError
      /\ kept 2 2 30 (rd_of 2 2 30)
           (acg_of 2 2 30 [[Fin 1; Fin 0]; [Fin 0; Fin 1]]) = []
  end.
Proof.
  apply (profile_rows_partition 2 2 30 [[Fin 1; Fin 0]; [Fin 0; Fin 1]]).
  - split; [reflexivity | repeat constructor].
  - lra.
Defined.

(** X7 (cell 6): the distance label of a row is the lower edge of its bin:
    row [b] is labelled [b*w], no sample averaged into it is closer to the
    centre than its label, and every label is below the cut-off distance
    [maxdist]. *)
Theorem profile_labels_lower_edges (nrows ncols : nat) (pixsize : R) (g : grid fval) :
  is_shape nrows ncols g -> 0 < pixsize ->
  let rd := rd_of nrows ncols pixsize in
  let acg := acg_of nrows ncols pixsize g in
  match profile_of nrows ncols pixsize g with
  | inr cvdav =>
      forall b, (b < length cvdav)%nat ->
        fst (nth b cvdav (0, NaN)) = INR b * bin_width pixsize
        /\ fst (nth b cvdav (0, NaN)) < maxdist nrows ncols pixsize
        /\ forall s, In s (members nrows ncols pixsize rd acg b) ->
             fst (nth b cvdav (0, NaN)) <= s_dist s
  | inl e => e = ValueError
  end.
Proof.
  intros Hg Hp. cbv zeta.
  pose proof (profile_of_rows nrows ncols pixsize g Hg) as Hrows. cbv zeta in Hrows.
  set (rd := rd_of nrows ncols pixsize) in *.
  set (acg := acg_of nrows ncols pixsize g) in *.
  destruct Hrows as [[Hnil Herr] | (mx & Hrows & (smax & Hsmax & Hbmax) & Hle)].
  - now rewrite Herr.
  - rewrite Hrows. intros b Hb. rewrite length_map, length_seq in Hb.
    rewrite (nth_map_seq _ _ b (0, NaN) Hb). cbn [fst].
    rewrite bin_width_twice. split; [reflexivity |]. split.
    + rewrite maxdist_half_extent.
      apply in_kept in Hsmax. destruct Hsmax as [_ Hcut].
      assert (Hidx : bin_index pixsize smax = (Z.of_nat (Z.to_nat mx - 1) + 1)%Z) by lia.
      pose proof (bin_interval pixsize smax _ Hp Hidx) as [Hlow _].
      assert (Hbb : INR b <= INR (Z.to_nat mx - 1)) by (apply le_INR; lia).
      nra.
    + intros s Hs. apply in_members in Hs. destruct Hs as [_ Hidx].
      pose proof (bin_interval pixsize s b Hp Hidx) as [Hlow _]. lra.
Qed.

Lemma profile_labels_lower_edges_witness :
  match profile_of 3 3 30 (constant_field 3 3 (Fin 1)) with
  | inr cvdav =>
      forall b, (b < length cvdav)%nat ->
        fst (nth b cvdav (0, NaN)) = INR b * bin_width 30
        /\ fst (nth b cvdav (0, NaN)) < maxdist 3 3 30
        /\ forall s,
             In s (members 3 3 30 (rd_of 3 3 30)
                     (acg_of 3 3 30 (constant_field 3 3 (Fin 1))) b) ->
             fst (nth b cvdav (0, NaN)) <= s_dist s
  | inl e => e = ValueError
  end.
Proof.
  apply (profile_labels_lower_edges 3 3 30 (constant_field 3 3 (Fin 1))).
  - split; [reflexivity | repeat constructor].
  - lra.
Defined.

End ProfileRows.

(** ** Cell 6: grids too thin for a profile *)

Section ThinGrids.

Lemma in_firstn {X} (n : nat) (l : list X) (x : X) : In x (firstn n l) -> In x l.
Proof.
  intros H. rewrite <- (firstn_skipn n l). apply in_or_app. now left.
Qed.

(** every entry of the distance vector is the distance of a cell *)
Lemma in_rd_of (nrows ncols : nat) (pixsize d : R) :
  In d (rd_of nrows ncols pixsize) ->
  exists r c, (r < nrows)%nat /\ (c < ncols)%nat
    /\ d = sqrt ((INR c - xcent ncols) ^ 2 + (INR r - ycent nrows) ^ 2) * pixsize.
Proof.
  intros H. apply in_firstn in H. unfold rd_full, ravel in H.
  rewrite radial_dist_cells in H. apply in_concat in H.
  destruct H as (row & Hrow & Hd).
  apply in_map_iff in Hrow. destruct Hrow as (r & <- & Hr).
  apply in_map_iff in Hd. destruct Hd as (c & <- & Hc).
  apply in_seq in Hr. apply in_seq in Hc. exists r, c.
  split; [lia |]. split; [lia | reflexivity].
Qed.

Lemma select_none {X} (mask : list bool) :
  Forall (fun m => m = false) mask -> forall v : list X, select mask v = [].
Proof.
  induction 1 as [| m mask Hm _ IH]; intros v; [reflexivity |].
  destruct v as [| x v]; [apply select_nil_r |].
  rewrite select_cons, Hm. apply IH.
Qed.

Lemma sqrt_one_plus (x y : R) : x ^ 2 = 1 -> 1 <= sqrt (x ^ 2 + y ^ 2).
Proof.
  intros Hx. rewrite <- sqrt_1 at 1. apply sqrt_le_1_alt.
  rewrite Hx. pose proof (pow2_ge_0 y). lra.
Qed.

(** X8 (cells 5 and 6): a grid of one row or of one column (or an empty
    one) has no profile: every cell is at least one pixel from the centre
    [(xcent, ycent)] and the cut-off distance is one pixel, so no sample
    passes the cut and [max(rdbin)] raises [ValueError], whatever the
    autocorrelation values are. *)
Theorem thin_grid_has_no_profile (nrows ncols : nat) (pixsize : R) (g : grid fval) :
  0 < pixsize ->
  (nrows <= 1)%nat \/ (ncols <= 1)%nat ->
  profile_of nrows ncols pixsize g = inl ValueError.
Proof.
  intros Hp Hthin. unfold profile_of, radial_average.
  rewrite (select_none (map _ (rd_of nrows ncols pixsize))); [reflexivity |].
  apply List.Forall_forall. intros m Hm.
  apply in_map_iff in Hm. destruct Hm as (d & <- & Hd).
  destruct (Rltb d (maxdist nrows ncols pixsize)) eqn:E; [| reflexivity].
  exfalso. apply Rltb_true in E. rewrite maxdist_half_extent in E.
  unfold half_extent in E.
  destruct (in_rd_of _ _ _ _ Hd) as (r & c & Hr & Hc & ->).
  revert E. rewrite xcent_nat, ycent_nat. intros E.
  set (S := sqrt _) in E. set (m := Rmin _ _) in E.
  assert (HS : 1 <= S -> m <= 1 -> False).
  { intros H1 H2.
    assert (m * pixsize <= 1 * pixsize) by (apply Rmult_le_compat_r; lra).
    assert (1 * pixsize <= S * pixsize) by (apply Rmult_le_compat_r; lra).
    lra. }
  destruct Hthin as [Hn | Hn].
  - assert (nrows = 1%nat) by lia. assert (r = 0%nat) by lia. subst nrows r.
    apply HS.
    + unfold S. rewrite Rplus_comm. apply sqrt_one_plus.
      change (1 / 2)%nat with 0%nat. simpl. ring.
    + unfold m. change (1 / 2)%nat with 0%nat. simpl.
      rewrite Rplus_0_l. apply Rmin_l.
  - assert (ncols = 1%nat) by lia. assert (c = 0%nat) by lia. subst ncols c.
    apply HS.
    + unfold S. apply sqrt_one_plus.
      change (1 / 2)%nat with 0%nat. simpl. ring.
    + unfold m. change (1 / 2)%nat with 0%nat. simpl.
      rewrite Rplus_0_l. apply Rmin_r.
Qed.

Lemma thin_grid_has_no_profile_witness :
  profile_of 5 1 30 (constant_field 5 1 (Fin 1)) = inl ValueError.
Proof.
  apply thin_grid_has_no_profile; [lra | right; lia].
Defined.

End ThinGrids.

(** ** Cell 6: the penalty functions on finite and on empty bins *)

Section Penalties.

(** X9 (cell 6): both penalty functions vanish on a noise-free profile of
    their own model family at the true parameters: a profile whose first
    distance label is 0 (as in every profile of the notebook), whose
    labels are not negative and whose values are those of the model with
    a decay rate [alpha >= 0]. *)
Theorem model_profile_zero_penalty (a alpha beta : R) (rest : list R) :
  0 <= alpha ->
  Forall (fun r => 0 <= r) rest ->
  let labels := 0 :: rest in
  let exp_profile := map (fun r => (r, Fin (a * exp (- alpha * r)))) labels in
  let expcos_profile :=
    map (fun r => (r, Fin (a * exp (- alpha * r) * cos (beta * r)))) labels in
  (forall more, pendiffexp (alpha :: more) exp_profile = inr (Fin 0))
  /\ (forall more, pendiffexpcos (alpha :: beta :: more) expcos_profile = inr (Fin 0)).
Proof.
  intros _ _. cbv zeta. split.
  - intros more.
    replace (map (fun r => (r, Fin (a * exp (- alpha * r)))) (0 :: rest))
      with (map (fun rv : R * R => (fst rv, Fin (snd rv)))
                ((0, a * exp (- alpha * 0))
                 :: map (fun r => (r, a * exp (- alpha * r))) rest))
      by (cbn [map fst snd]; now rewrite map_map).
    rewrite pendiffexp_Fin. do 2 f_equal.
    transitivity (sqrt 0); [f_equal | apply sqrt_0].
    rewrite map_map. apply Rsum_zeros.
    intros [r v] Hin. cbn [fst snd].
    assert (Hv : v = a * exp (- alpha * r)).
    { destruct Hin as [Hin | Hin]; [now inversion Hin |].
      apply in_map_iff in Hin. destruct Hin as (r' & Hr' & _). now inversion Hr'. }
    rewrite Hv. replace (- alpha * 0) with 0 by ring. rewrite exp_0. ring.
  - intros more.
    replace (map (fun r => (r, Fin (a * exp (- alpha * r) * cos (beta * r))))
                 (0 :: rest))
      with (map (fun rv : R * R => (fst rv, Fin (snd rv)))
                ((0, a * exp (- alpha * 0) * cos (beta * 0))
                 :: map (fun r => (r, a * exp (- alpha * r) * cos (beta * r))) rest))
      by (cbn [map fst snd]; now rewrite map_map).
    rewrite pendiffexpcos_Fin. do 2 f_equal.
    transitivity (sqrt 0); [f_equal | apply sqrt_0].
    rewrite map_map. apply Rsum_zeros.
    intros [r v] Hin. cbn [fst snd].
    assert (Hv : v = a * exp (- alpha * r) * cos (beta * r)).
    { destruct Hin as [Hin | Hin]; [now inversion Hin |].
      apply in_map_iff in Hin. destruct Hin as (r' & Hr' & _). now inversion Hr'. }
    rewrite Hv. replace (- alpha * 0) with 0 by ring.
    replace (beta * 0) with 0 by ring. rewrite exp_0, cos_0. ring.
Qed.

Lemma model_profile_zero_penalty_witness :
  pendiffexp [1 / 1000]
    (map (fun r => (r, Fin (2 * exp (- (1 / 1000) * r)))) [0; 60; 120])
  = inr (Fin 0)
  /\ pendiffexpcos [1 / 1000; 1 / 500]
       (map (fun r => (r, Fin (2 * exp (- (1 / 1000) * r) * cos (1 / 500 * r))))
            [0; 60; 120])
     = inr (Fin 0).
Proof.
  assert (Ha : 0 <= 1 / 1000) by lra.
  assert (Hr : Forall (fun r => 0 <= r) [60; 120]) by (repeat constructor; lra).
  destruct (model_profile_zero_penalty 2 (1 / 1000) (1 / 500) [60; 120] Ha Hr)
    as [Hexp Hcos].
  split; [exact (Hexp []) | exact (Hcos [])].
Defined.

Lemma fsum_nan (l : list fval) : In NaN l -> fsum l = NaN.
Proof.
  intros Hin. unfold fsum. rewrite fsum_fold_right.
  assert (H : fold_right fadd (Fin 0) l = NaN).
  { induction l as [| x l IH]; [contradiction |]. simpl.
    destruct Hin as [-> | Hin]; [reflexivity |].
    rewrite (IH Hin). now destruct x. }
  now rewrite H.
Qed.

Lemma norm2_nan (eff : list fval) : In NaN eff -> norm2 eff = NaN.
Proof.
  intros Hin. unfold norm2. rewrite fsum_nan; [reflexivity |].
  apply in_map_iff. exists NaN. now split.
Qed.

(** X10 (cell 6): a nan in the profile (the mean of a bin without samples,
    or an autocorrelation that is nan) makes both penalty functions return
    nan for every choice of the parameters. *)
Theorem nan_bin_poisons_penalties (cvdav : list (R * fval)) :
  (exists r, In (r, NaN) cvdav) ->
  (forall b more, pendiffexp (b :: more) cvdav = inr NaN)
  /\ (forall b c more, pendiffexpcos (b :: c :: more) cvdav = inr NaN).
Proof.
  intros [r Hin]. destruct cvdav as [| [r0 a0] rows]; [contradiction |].
  split.
  - intros b more. unfold pendiffexp.
    rewrite (zip_residuals (fun r => fmul a0 (Fin (exp (- b * r))))).
    f_equal. apply norm2_nan. unfold residuals. apply in_map_iff.
    exists (r, NaN). split; [reflexivity | exact Hin].
  - intros b c more. unfold pendiffexpcos.
    rewrite (zip_residuals
               (fun r => fmul (fmul a0 (Fin (exp (- b * r)))) (Fin (cos (c * r))))).
    f_equal. apply norm2_nan. unfold residuals. apply in_map_iff.
    exists (r, NaN). split; [reflexivity | exact Hin].
Qed.

Lemma nan_bin_poisons_penalties_witness :
  pendiffexp [1 / 1000] [(0, Fin 2); (60, NaN); (120, Fin 1)] = inr NaN
  /\ pendiffexpcos [1 / 1000; 1 / 1000] [(0, Fin 2); (60, NaN); (120, Fin 1)]
     = inr NaN.
Proof.
  assert (H : exists r, In (r, NaN) [(0, Fin 2); (60, NaN); (120, Fin 1)]).
  { exists 60. right. now left. }
  split.
  - exact (proj1 (nan_bin_poisons_penalties _ H) (1 / 1000) []).
  - exact (proj2 (nan_bin_poisons_penalties _ H) (1 / 1000) (1 / 1000) []).
Defined.

End Penalties.

(** ** The variance-covariance matrix: size of the entries *)

Section CovarianceEntries.

Lemma distance_m_nonneg (p q : R * R) : 0 <= distance_m p q.
Proof. apply sqrt_pos. Qed.

Lemma exp_le_one (x : R) : x <= 0 -> exp x <= 1.
Proof.
  intros [H | ->]; [| rewrite exp_0; lra].
  left. rewrite <- exp_0. now apply exp_increasing.
Qed.

Lemma exp_decay_bounds (alpha d : R) :
  0 <= alpha -> 0 <= d -> 0 < exp (- alpha * d) <= 1.
Proof.
  intros Ha Hd. split; [apply exp_pos |]. apply exp_le_one. nra.
Qed.

Lemma exp_decay_monotone (alpha d d' : R) :
  0 <= alpha -> d <= d' -> exp (- alpha * d') <= exp (- alpha * d).
Proof.
  intros Ha Hd.
  destruct (Req_dec (- alpha * d') (- alpha * d)) as [-> | Hne]; [lra |].
  left. apply exp_increasing. nra.
Qed.

(** X11 (inverse-covariance notebook): with a decay rate [alpha >= 0],
    every diagonal entry of [E] is the variance [maxvar], and no entry is
    larger in size than [maxvar]. *)
Theorem covariance_diagonal_and_bound (maxvar alpha beta : R) (data : list (R * R)) :
  0 <= alpha ->
  let E := covariance maxvar alpha beta (xs_of data) (ys_of data) in
  let n := length data in
  (forall i, (i < n)%nat -> at2 0 E i i = maxvar)
  /\ (forall i j, (i < n)%nat -> (j < n)%nat -> Rabs (at2 0 E i j) <= Rabs maxvar).
Proof.
  intros Ha E n. split.
  - intros i Hi. unfold E. rewrite covariance_entry by exact Hi.
    rewrite distance_m_self. unfold expcos.
    replace (- alpha * 0) with 0 by ring. replace (beta * 0) with 0 by ring.
    rewrite exp_0, cos_0. ring.
  - intros i j Hi Hj. unfold E. rewrite covariance_entry by assumption.
    unfold expcos. set (d := distance_m _ _).
    pose proof (exp_decay_bounds alpha d Ha (distance_m_nonneg _ _)) as [He1 He2].
    rewrite !Rabs_mult. rewrite (Rabs_right (exp _)) by lra.
    pose proof (Rabs_pos maxvar) as Hm.
    assert (Hc : Rabs (cos (beta * d)) <= 1).
    { apply Rabs_le. pose proof (COS_bound (beta * d)). lra. }
    pose proof (Rabs_pos (cos (beta * d))) as Hc0.
    assert (H1 : Rabs maxvar * exp (- alpha * d) <= Rabs maxvar) by nra.
    assert (H2 : 0 <= Rabs maxvar * exp (- alpha * d)) by nra.
    nra.
Qed.

Lemma covariance_diagonal_and_bound_witness :
  (forall i, (i < 2)%nat ->
     at2 0 (covariance 1 (1 / 1000) 0 (xs_of twin_points) (ys_of twin_points)) i i = 1)
  /\ (forall i j, (i < 2)%nat -> (j < 2)%nat ->
        Rabs (at2 0 (covariance 1 (1 / 1000) 0 (xs_of twin_points) (ys_of twin_points))
                  i j) <= Rabs 1).
Proof.
  apply (covariance_diagonal_and_bound 1 (1 / 1000) 0 twin_points). lra.
Defined.

Lemma rgrid_entry (data : list (R * R)) (i j : nat) :
  (i < length data)%nat -> (j < length data)%nat ->
  at2 0 (rgrid (xs_of data) (ys_of data)) i j
  = distance_m (nth i data (0, 0)) (nth j data (0, 0)).
Proof.
  intros Hi Hj. rewrite rgrid_pairs. now rewrite (at2_pairs _ data i j Hi Hj).
Qed.

(** X12 (inverse-covariance notebook, "set to zero if just using an
    exponential function"): with [beta = 0] the matrix is the exponential
    covariance [maxvar * exp(-alpha * rgrid)]; for [maxvar > 0] and
    [alpha >= 0] its entries lie between 0 and [maxvar], and a pair of
    points whose distance in [rgrid] is no larger than that of another
    pair has a covariance that is no smaller. *)
Theorem exponential_covariance (maxvar alpha : R) (data : list (R * R)) :
  0 < maxvar -> 0 <= alpha ->
  let E := covariance maxvar alpha 0 (xs_of data) (ys_of data) in
  let rg := rgrid (xs_of data) (ys_of data) in
  let n := length data in
  forall i j, (i < n)%nat -> (j < n)%nat ->
    at2 0 E i j = maxvar * exp (- alpha * at2 0 rg i j)
    /\ 0 <= at2 0 E i j <= maxvar
    /\ forall k l, (k < n)%nat -> (l < n)%nat ->
         at2 0 rg i j <= at2 0 rg k l -> at2 0 E k l <= at2 0 E i j.
Proof.
  intros Hm Ha E rg n.
  assert (Hent : forall i j, (i < n)%nat -> (j < n)%nat ->
                   at2 0 E i j = maxvar * exp (- alpha * at2 0 rg i j)).
  { intros i j Hi Hj. unfold E, rg.
    rewrite covariance_entry, rgrid_entry by assumption.
    unfold expcos. rewrite Rmult_0_l, cos_0. ring. }
  assert (Hpos : forall i j, (i < n)%nat -> (j < n)%nat -> 0 <= at2 0 rg i j).
  { intros i j Hi Hj. unfold rg. rewrite rgrid_entry by assumption.
    apply distance_m_nonneg. }
  intros i j Hi Hj. split; [now apply Hent |]. split.
  - rewrite Hent by assumption.
    pose proof (exp_decay_bounds alpha (at2 0 rg i j) Ha (Hpos i j Hi Hj)).
    nra.
  - intros k l Hk Hl Hd. rewrite !Hent by assumption.
    pose proof (exp_decay_monotone alpha _ _ Ha Hd). nra.
Qed.

Lemma exponential_covariance_witness :
  let E := covariance 1 (1 / 1000) 0 (xs_of two_points) (ys_of two_points) in
  at2 0 E 0 1
  = 1 * exp (- (1 / 1000) * at2 0 (rgrid (xs_of two_points) (ys_of two_points)) 0 1)
  /\ 0 <= at2 0 E 0 1 <= 1
  /\ at2 0 E 0 1 <= at2 0 E 0 0.
Proof.
  intros E.
  assert (H0 : (0 < length two_points)%nat) by (simpl; lia).
  assert (H1 : (1 < length two_points)%nat) by (simpl; lia).
  assert (Hm : 0 < 1) by lra.
  assert (Ha : 0 <= 1 / 1000) by lra.
  destruct (exponential_covariance 1 (1 / 1000) two_points Hm Ha 0%nat 1%nat H0 H1)
    as (He & Hb & _).
  destruct (exponential_covariance 1 (1 / 1000) two_points Hm Ha 0%nat 0%nat H0 H0)
    as (_ & _ & Hmono).
  split; [exact He |]. split; [exact Hb |].
  apply (Hmono 0%nat 1%nat H0 H1).
  rewrite !rgrid_entry by assumption. rewrite distance_m_self.
  apply distance_m_nonneg.
Defined.

Lemma nth_unit_difference (n i j k : nat) :
  (k < n)%nat ->
  nth k (map (fun k => kronecker i k - kronecker j k) (seq 0 n)) 0
  = kronecker i k - kronecker j k.
Proof. intros Hk. now rewrite (nth_map_seq _ n k 0 Hk). Qed.

(** X13 (inverse-covariance notebook): two observation points at one place
    give [E] two equal columns: the vector with 1 at the one point, -1 at
    the other and 0 elsewhere is mapped to zero, so [E] has no inverse. *)
Theorem coincident_points_singular (maxvar alpha beta : R) (data : list (R * R))
  (i j : nat) :
  (i < length data)%nat -> (j < length data)%nat -> i <> j ->
  nth i data (0, 0) = nth j data (0, 0) ->
  let E := covariance maxvar alpha beta (xs_of data) (ys_of data) in
  let n := length data in
  let v := map (fun k => kronecker i k - kronecker j k) (seq 0 n) in
  nth i v 0 = 1 /\ nth j v 0 = -1
  /\ matvec E v = repeat 0 n
  /\ forall k, (k < n)%nat -> at2 0 E k i = at2 0 E k j.
Proof.
  intros Hi Hj Hne Hsame E n v.
  assert (Hcol : forall k, (k < n)%nat -> at2 0 E k i = at2 0 E k j).
  { intros k Hk. unfold E. rewrite !covariance_entry by assumption.
    now rewrite Hsame. }
  split; [| split; [| split; [| exact Hcol]]].
  - unfold v. rewrite nth_unit_difference by exact Hi.
    rewrite kronecker_same, kronecker_diff by congruence. ring.
  - unfold v. rewrite nth_unit_difference by exact Hj.
    rewrite kronecker_same, kronecker_diff by congruence. ring.
  - pose proof (covariance_shape maxvar alpha beta data) as [Hrows Hcols].
    fold E in Hrows, Hcols. unfold matvec.
    replace (repeat 0 n) with (map (fun _ : list R => 0) E)
      by (rewrite map_const_repeat, Hrows; reflexivity).
    apply map_ext_in. intros row Hrow.
    destruct (In_nth E row [] Hrow) as (r & Hr & Hnth).
    rewrite Hrows in Hr.
    assert (Hlen : length row = n).
    { rewrite List.Forall_forall in Hcols. now apply Hcols. }
    rewrite (dot_sum n) by (exact Hlen || (unfold v; now rewrite length_map, length_seq)).
    rewrite (sum_upto_ext n _ (fun k => at2 0 E r k * kronecker i k
                                        - at2 0 E r k * kronecker j k)).
    + unfold Rminus.
      rewrite sum_upto_plus.
      rewrite (sum_upto_ext n (fun k => - (at2 0 E r k * kronecker j k))
                 (fun k => -1 * (at2 0 E r k * kronecker j k)))
        by (intros; ring).
      rewrite sum_upto_scale_l, !sum_upto_kronecker.
      destruct (Nat.ltb_spec i n) as [_ | H]; [| lia].
      destruct (Nat.ltb_spec j n) as [_ | H]; [| lia].
      rewrite (Hcol r Hr). ring.
    + intros k Hk. unfold v. rewrite nth_unit_difference by exact Hk.
      unfold at2. rewrite Hnth. ring.
Qed.

Lemma coincident_points_singular_witness :
  let E := covariance 1 (1 / 1000) 0 (xs_of twin_points) (ys_of twin_points) in
  matvec E (map (fun k => kronecker 0 k - kronecker 1 k) (seq 0 2)) = repeat 0 2%nat.
Proof.
  assert (H0 : (0 < length twin_points)%nat) by (simpl; lia).
  assert (H1 : (1 < length twin_points)%nat) by (simpl; lia).
  assert (Hne : 0%nat <> 1%nat) by lia.
  assert (Hs : nth 0 twin_points (0, 0) = nth 1 twin_points (0, 0)) by reflexivity.
  exact (proj1 (proj2 (proj2
           (coincident_points_singular 1 (1 / 1000) 0 twin_points 0 1 H0 H1 Hne Hs)))).
Defined.


End CovarianceEntries.

(** ** The pseudoinverse: the remaining Penrose identities *)

Section PenroseIdentities.

Variables (n : nat) (rcond : R) (E u : grid R) (s : list R) (vt : grid R).
Hypothesis HE : is_shape n n E.
Hypothesis Hsvd : is_svd n E u s vt.
Hypothesis Hrcond : 0 <= rcond.

(** an inverted singular value is not changed by [x -> x * s * x] *)
Lemma inverted_reflexive (k : nat) :
  (k < n)%nat ->
  nth k (inverted rcond s) 0 * nth k s 0 * nth k (inverted rcond s) 0
  = nth k (inverted rcond s) 0.
Proof.
  intros Hk. rewrite (nth_inverted n rcond E u s vt Hsvd k Hk). unfold Rltb.
  destruct (Rlt_dec (rcond * amax s) (nth k s 0)) as [H | H]; [| ring].
  pose proof (cutoff_nonneg n rcond E u s vt Hsvd Hrcond). field. lra.
Qed.

(** [pinv(E) @ E] *)
Lemma at2_pinv_E (a j : nat) :
  (a < n)%nat -> (j < n)%nat ->
  at2 0 (matmul (pinv_from rcond u s vt) E) a j
  = sum_upto n (fun k => (at2 0 vt k a * nth k (inverted rcond s) 0)
                         * (nth k s 0 * at2 0 vt k j)).
Proof.
  intros Ha Hj.
  pose proof (svd_shape_u n E u s vt Hsvd) as Hu.
  pose proof (svd_shape_vt n E u s vt Hsvd) as Hvt.
  pose proof (svd_length_s n E u s vt Hsvd) as Hs.
  rewrite (at2_matmul n) by (try apply pinv_from_shape; assumption).
  transitivity
    (sum_upto n (fun b =>
       sum_upto n (fun k => (at2 0 vt k a * nth k (inverted rcond s) 0) * at2 0 u b k)
       * sum_upto n (fun m => at2 0 u b m * (nth m s 0 * at2 0 vt m j)))).
  - apply sum_upto_ext. intros b Hb.
    rewrite (at2_pinv_from n) by assumption.
    rewrite (svd_product n E u s vt Hsvd b j Hb Hj).
    f_equal; apply sum_upto_ext; intros k _; ring.
  - apply (sum_contract n (fun k b => at2 0 u b k) (fun m b => at2 0 u b m)
             (fun k => at2 0 vt k a * nth k (inverted rcond s) 0)
             (fun m => nth m s 0 * at2 0 vt m j)).
    intros k l Hk Hl. now apply (svd_u_cols n E u s vt Hsvd).
Qed.

(** [pinv(E) @ E @ pinv(E)] *)
Lemma at2_pinv_E_pinv (a b : nat) :
  (a < n)%nat -> (b < n)%nat ->
  at2 0 (matmul (matmul (pinv_from rcond u s vt) E) (pinv_from rcond u s vt)) a b
  = at2 0 (pinv_from rcond u s vt) a b.
Proof.
  intros Ha Hb.
  pose proof (svd_shape_u n E u s vt Hsvd) as Hu.
  pose proof (svd_shape_vt n E u s vt Hsvd) as Hvt.
  pose proof (svd_length_s n E u s vt Hsvd) as Hs.
  assert (HP : is_shape n n (pinv_from rcond u s vt)) by now apply pinv_from_shape.
  rewrite (at2_matmul n) by (try apply matmul_shape; assumption).
  rewrite (at2_pinv_from n) by assumption.
  transitivity
    (sum_upto n (fun k => (at2 0 vt k a * nth k (inverted rcond s) 0 * nth k s 0)
                          * (nth k (inverted rcond s) 0 * at2 0 u b k))).
  - transitivity
      (sum_upto n (fun j =>
         sum_upto n (fun k => (at2 0 vt k a * nth k (inverted rcond s) 0 * nth k s 0)
                              * at2 0 vt k j)
         * sum_upto n (fun l => at2 0 vt l j
                                * (nth l (inverted rcond s) 0 * at2 0 u b l)))).
    + apply sum_upto_ext. intros j Hj.
      rewrite (at2_pinv_E a j Ha Hj), (at2_pinv_from n) by assumption.
      f_equal. apply sum_upto_ext. intros k _. ring.
    + apply (sum_contract n (fun k j => at2 0 vt k j) (fun l j => at2 0 vt l j)
               (fun k => at2 0 vt k a * nth k (inverted rcond s) 0 * nth k s 0)
               (fun l => nth l (inverted rcond s) 0 * at2 0 u b l)).
      intros k l Hk Hl. now apply (svd_vt_rows n E u s vt Hsvd).
  - apply sum_upto_ext. intros k Hk.
    rewrite <- (inverted_reflexive k Hk) at 3. ring.
Qed.

End PenroseIdentities.

(** X15 (inverse-covariance notebook): besides [E @ Einv @ E ~ E], the
    matrix [Einv = np.linalg.pinv(E)] satisfies the other three Penrose
    identities exactly, whatever the cutoff: [Einv @ E @ Einv = Einv], and
    [E @ Einv] and [Einv @ E] are symmetric. *)
Theorem pinv_penrose_identities (n : nat) (rcond : R) (E u : grid R) (s : list R)
  (vt : grid R) :
  is_shape n n E -> is_svd n E u s vt -> 0 <= rcond ->
  let Einv := pinv_from rcond u s vt in
  (forall a b, (a < n)%nat -> (b < n)%nat ->
     at2 0 (matmul (matmul Einv E) Einv) a b = at2 0 Einv a b)
  /\ (forall i j, (i < n)%nat -> (j < n)%nat ->
        at2 0 (matmul E Einv) i j = at2 0 (matmul E Einv) j i)
  /\ (forall i j, (i < n)%nat -> (j < n)%nat ->
        at2 0 (matmul Einv E) i j = at2 0 (matmul Einv E) j i).
Proof.
  intros HE Hsvd Hrcond Einv. split; [| split].
  - intros a b Ha Hb. now apply (at2_pinv_E_pinv n rcond E u s vt).
  - intros i j Hi Hj. unfold Einv.
    rewrite !(at2_E_pinv n rcond E u s vt HE Hsvd) by assumption.
    apply sum_upto_ext. intros k _. ring.
  - intros i j Hi Hj. unfold Einv.
    rewrite !(at2_pinv_E n rcond E u s vt HE Hsvd) by assumption.
    apply sum_upto_ext. intros k _. ring.
Qed.

Lemma pinv_penrose_identities_witness :
  let E := covariance 1 (1 / 1000) 0 (xs_of twin_points) (ys_of twin_points) in
  let Einv := pinv_from (1 / 10 ^ 15) twin_u twin_s twin_u in
  at2 0 (matmul (matmul Einv E) Einv) 0 1 = at2 0 Einv 0 1
  /\ at2 0 (matmul E Einv) 0 1 = at2 0 (matmul E Einv) 1 0.
Proof.
  intros E Einv.
  assert (Hr : 0 <= 1 / 10 ^ 15).
  { apply Rlt_le, Rdiv_lt_0_compat; [lra | apply pow_lt; lra]. }
  pose proof (pinv_penrose_identities 2 (1 / 10 ^ 15) E twin_u twin_s twin_u
                (covariance_shape 1 (1 / 1000) 0 twin_points) twin_svd Hr)
    as (H1 & H2 & _).
  split; [apply H1 | apply H2]; lia.
Defined.

(** ** Cell 3: masking and cropping *)

Section MaskingAndCropping.

Lemma at2_grid_map {A B} (f : A -> B) (da : A) (db : B) (g : grid A) (r c : nat) :
  f da = db -> at2 db (grid_map f g) r c = f (at2 da g r c).
Proof.
  intros Hd. unfold at2, grid_map.
  change (@nil B) with (map f []). rewrite map_nth, <- Hd. apply map_nth.
Qed.

Lemma nth_masked_row (row : list pixel) :
  forall (m : list bool) (c : nat),
  length m = length row ->
  nth c (map (fun ab : pixel * bool => if snd ab then None else fst ab)
             (combine row m)) None
  = if nth c m false then None else nth c row None.
Proof.
  induction row as [| p row IH]; intros [| b m] c Hlen; try discriminate.
  - now destruct c.
  - simpl in Hlen. destruct c as [| c]; [reflexivity |].
    simpl. apply IH. lia.
Qed.

(** the pixels of an array after [a[mask] = np.nan] *)
Lemma at2_put_masked (a : grid pixel) :
  forall (mask : grid bool) (r c : nat),
  map (@length bool) mask = map (@length pixel) a ->
  at2 None (put_masked None a mask) r c
  = if at2 false mask r c then None else at2 None a r c.
Proof.
  unfold at2, put_masked, grid_map2.
  induction a as [| row a IH]; intros [| mrow mask] r c Hlen; try discriminate.
  - destruct r, c; reflexivity.
  - simpl in Hlen. injection Hlen as Hrow Hrest. destruct r as [| r].
    + simpl. now apply nth_masked_row.
    + simpl. now apply IH.
Qed.

Lemma put_masked_lengths (a : grid pixel) :
  forall mask : grid bool,
  map (@length bool) mask = map (@length pixel) a ->
  map (@length pixel) (put_masked None a mask) = map (@length pixel) a.
Proof.
  unfold put_masked, grid_map2.
  induction a as [| row a IH]; intros [| mrow mask] Hlen; try discriminate;
    [reflexivity |].
  simpl in Hlen. injection Hlen as Hrow Hrest. simpl.
  rewrite length_map, length_combine, Hrow, Nat.min_id. f_equal. now apply IH.
Qed.

Lemma mask_out_ok (ifg : grid pixel) (mask : grid bool) :
  map (@length bool) mask = map (@length pixel) ifg ->
  mask_out ifg mask = inr (put_masked None ifg mask).
Proof. intros H. unfold mask_out. now rewrite bool_decide_eq_true_2. Qed.

Lemma lengths_grid_map {A B} (f : A -> B) (g : grid A) :
  map (@length B) (grid_map f g) = map (@length A) g.
Proof.
  unfold grid_map. rewrite map_map. apply map_ext. intros row. apply length_map.
Qed.

(** X16 (cell 3): when the water mask and the coherence have the shape of
    the interferogram, the masking never fails and works pixel by pixel: a
    pixel becomes nan when the water mask is used and is below 1 there, or
    when the coherence is below the threshold there; every other pixel
    keeps its value.  A comparison with nan being false, a pixel whose
    coherence is nan is not masked by the coherence test. *)
Theorem masking_pixel_by_pixel (use_water_mask : bool) (cor_thresh : R)
  (ifg msk cor : grid pixel) :
  map (@length pixel) msk = map (@length pixel) ifg ->
  map (@length pixel) cor = map (@length pixel) ifg ->
  exists masked,
    apply_masks use_water_mask cor_thresh ifg msk cor = inr masked
    /\ map (@length pixel) masked = map (@length pixel) ifg
    /\ (forall r c,
          at2 None masked r c
          = if (use_water_mask && px_ltb (at2 None msk r c) 1)
               || px_ltb (at2 None cor r c) cor_thresh
            then None else at2 None ifg r c)
    /\ (forall r c,
          at2 None cor r c = None ->
          use_water_mask = false \/ px_ltb (at2 None msk r c) 1 = false ->
          at2 None masked r c = at2 None ifg r c).
Proof.
  intros Hmsk Hcor.
  set (wm := grid_map (fun m => px_ltb m 1) msk).
  set (cm := grid_map (fun c => px_ltb c cor_thresh) cor).
  assert (Hwm : map (@length bool) wm = map (@length pixel) ifg)
    by (unfold wm; now rewrite lengths_grid_map).
  assert (Hcm : map (@length bool) cm = map (@length pixel) ifg)
    by (unfold cm; now rewrite lengths_grid_map).
  set (ifg1 := if use_water_mask then put_masked None ifg wm else ifg).
  assert (H1 : (if use_water_mask then mask_out ifg wm else inr ifg) = inr ifg1).
  { unfold ifg1. destruct use_water_mask; [now apply mask_out_ok | reflexivity]. }
  assert (Hlen1 : map (@length pixel) ifg1 = map (@length pixel) ifg).
  { unfold ifg1. destruct use_water_mask; [now apply put_masked_lengths | reflexivity]. }
  assert (Hcm1 : map (@length bool) cm = map (@length pixel) ifg1) by congruence.
  assert (Hpix : forall r c,
            at2 None (put_masked None ifg1 cm) r c
            = if (use_water_mask && px_ltb (at2 None msk r c) 1)
                 || px_ltb (at2 None cor r c) cor_thresh
              then None else at2 None ifg r c).
  { intros r c. rewrite at2_put_masked by exact Hcm1.
    unfold cm. rewrite (at2_grid_map _ (None : pixel) false) by reflexivity.
    unfold ifg1. destruct use_water_mask.
    - rewrite at2_put_masked by exact Hwm.
      unfold wm. rewrite (at2_grid_map _ (None : pixel) false) by reflexivity.
      cbn [andb]. unfold pixel.
      destruct (px_ltb (at2 None msk r c) 1), (px_ltb (at2 None cor r c) cor_thresh);
        reflexivity.
    - cbn [andb orb]. reflexivity. }
  exists (put_masked None ifg1 cm).
  split; [| split; [| split]].
  - unfold apply_masks. fold wm cm. rewrite H1. now apply mask_out_ok.
  - rewrite put_masked_lengths by exact Hcm1. exact Hlen1.
  - exact Hpix.
  - intros r c Hnan Hwater. rewrite Hpix, Hnan. cbn [px_ltb].
    rewrite orb_false_r.
    destruct Hwater as [-> | ->]; [reflexivity | now rewrite andb_false_r].
Qed.

Lemma masking_pixel_by_pixel_witness :
  exists masked,
    apply_masks true (1 / 4) [[Some 1; Some 2]] [[Some 1; Some 0]] [[None; Some 1]]
    = inr masked
    /\ map (@length pixel) masked = map (@length pixel) [[Some 1; Some 2]]
    /\ (forall r c,
          at2 None masked r c
          = if (true && px_ltb (at2 None [[Some 1; Some 0]] r c) 1)
               || px_ltb (at2 None [[None; Some 1]] r c) (1 / 4)
            then None else at2 None [[Some 1; Some 2]] r c)
    /\ (forall r c,
          at2 None [[None; Some 1]] r c = None ->
          true = false \/ px_ltb (at2 None [[Some 1; Some 0]] r c) 1 = false ->
          at2 None masked r c = at2 None [[Some 1; Some 2]] r c).
Proof.
  apply (masking_pixel_by_pixel true (1 / 4)
           [[Some 1; Some 2]] [[Some 1; Some 0]] [[None; Some 1]]);
    reflexivity.
Defined.

Lemma slice_bound_nonneg (n : nat) (i : Z) :
  (0 <= i)%Z -> slice_bound n i = Nat.min (Z.to_nat i) n.
Proof.
  intros Hi. unfold slice_bound.
  destruct (Z.ltb_spec i 0) as [H | _]; lia.
Qed.

Lemma slice_bound_minus_one (n : nat) : slice_bound n (-1) = (n - 1)%nat.
Proof. unfold slice_bound. simpl. lia. Qed.

Lemma py_slice_to_last {A} (l : list A) : py_slice 0 (-1) l = removelast l.
Proof.
  unfold py_slice. rewrite slice_bound_minus_one, slice_bound_nonneg by lia.
  simpl. rewrite Nat.sub_0_r, removelast_firstn_len. f_equal. lia.
Qed.

Lemma py_slice_from_start {A} (hi : Z) (l : list A) :
  (0 <= hi)%Z -> py_slice 0 hi l = firstn (Z.to_nat hi) l.
Proof.
  intros Hhi. unfold py_slice. rewrite !slice_bound_nonneg by lia.
  simpl. rewrite Nat.sub_0_r.
  destruct (Nat.le_ge_cases (Z.to_nat hi) (length l)) as [H | H].
  - now rewrite Nat.min_l.
  - rewrite Nat.min_r by exact H. now rewrite firstn_all, firstn_all2.
Qed.

(** X17 (cell 3): with [xmin = 0] and [xmax = -1] (the setting of the
    notebook, and the one its comment gives for the full scene) the crop
    loses the last column of the scene: only [ymax == -1] is replaced by
    the number of rows, [xmax = -1] stays a Python slice bound and stops
    one column short.  With [ymin = 0] the crop is the first [ymax] rows
    (all rows for [ymax = -1]), each without its last pixel. *)
Theorem crop_drops_last_column (ymax : Z) (cor ifg : grid pixel) :
  nrows_of cor = nrows_of ifg ->
  ymax = (-1)%Z \/ (0 <= ymax)%Z ->
  crop 0 ymax 0 (-1) cor ifg
  = map (@removelast pixel)
        (if (ymax =? -1)%Z then ifg else firstn (Z.to_nat ymax) ifg).
Proof.
  intros Hrows Hy. unfold crop.
  rewrite (map_ext (py_slice 0 (-1)) (@removelast pixel) (@py_slice_to_last pixel)).
  f_equal.
  destruct Hy as [-> | Hy].
  - simpl. rewrite Hrows. unfold nrows_of.
    rewrite py_slice_from_start by lia. rewrite Nat2Z.id. apply firstn_all.
  - destruct (Z.eqb_spec ymax (-1)) as [E | _]; [lia |].
    now apply py_slice_from_start.
Qed.

Lemma crop_drops_last_column_witness :
  crop 0 (-1) 0 (-1) [[Some 1; Some 2; Some 3]; [Some 4; Some 5; Some 6]]
       [[Some 1; Some 2; Some 3]; [Some 4; Some 5; Some 6]]
  = map (@removelast pixel)
        (if (-1 =? -1)%Z
         then [[Some 1; Some 2; Some 3]; [Some 4; Some 5; Some 6]]
         else firstn (Z.to_nat (-1))
                     [[Some 1; Some 2; Some 3]; [Some 4; Some 5; Some 6]]).
Proof.
  apply crop_drops_last_column; [reflexivity | now left].
Defined.

Lemma py_slice_window {A} (lo hi : Z) (l : list A) :
  (0 <= lo)%Z -> (0 <= hi)%Z ->
  py_slice lo hi l
  = firstn (Nat.min (Z.to_nat hi) (length l) - Z.to_nat lo) (skipn (Z.to_nat lo) l)
  /\ length (py_slice lo hi l) = (Nat.min (Z.to_nat hi) (length l) - Z.to_nat lo)%nat.
Proof.
  intros Hlo Hhi. unfold py_slice. rewrite !slice_bound_nonneg by lia.
  destruct (Nat.le_gt_cases (length l) (Z.to_nat lo)) as [Hout | Hin].
  - rewrite (Nat.min_r (Z.to_nat lo)) by exact Hout.
    replace (Nat.min (Z.to_nat hi) (length l) - length l)%nat with 0%nat by lia.
    replace (Nat.min (Z.to_nat hi) (length l) - Z.to_nat lo)%nat with 0%nat by lia.
    split; reflexivity.
  - rewrite (Nat.min_l (Z.to_nat lo)) by lia. split; [reflexivity |].
    rewrite length_firstn, length_skipn. lia.
Qed.

(** X18 (cell 3): with bounds that are not negative the crop is the window
    of the masked scene that starts at row [ymin], column [xmin]: pixel
    (i, j) of the crop is pixel (ymin + i, xmin + j) of the scene, and
    bounds beyond the scene are clipped to it, so that the crop has
    [min(ymax, rows) - ymin] rows of [min(xmax, columns) - xmin] pixels. *)
Theorem crop_is_window (ymin ymax xmin xmax : Z) (nr nc : nat) (cor ifg : grid pixel) :
  is_shape nr nc ifg ->
  (0 <= ymin)%Z -> (0 <= ymax)%Z -> (0 <= xmin)%Z -> (0 <= xmax)%Z ->
  let height := (Nat.min (Z.to_nat ymax) nr - Z.to_nat ymin)%nat in
  let width := (Nat.min (Z.to_nat xmax) nc - Z.to_nat xmin)%nat in
  is_shape height width (crop ymin ymax xmin xmax cor ifg)
  /\ forall i j, (i < height)%nat -> (j < width)%nat ->
       at2 None (crop ymin ymax xmin xmax cor ifg) i j
       = at2 None ifg (Z.to_nat ymin + i) (Z.to_nat xmin + j).
Proof.
  intros Hshape Hy0 Hy1 Hx0 Hx1 height width.
  pose proof Hshape as [Hrows Hcols].
  unfold crop. destruct (Z.eqb_spec ymax (-1)) as [E | _]; [lia |].
  destruct (py_slice_window ymin ymax ifg Hy0 Hy1) as [Hsl Hlen].
  rewrite Hrows in Hsl, Hlen. fold height in Hsl, Hlen.
  set (rows := py_slice ymin ymax ifg) in *.
  assert (Hrow : forall i, (i < height)%nat ->
            nth i rows [] = nth (Z.to_nat ymin + i) ifg []
            /\ length (nth i rows []) = nc).
  { intros i Hi. rewrite Hsl, nth_firstn.
    destruct (Nat.ltb_spec i height) as [_ | H]; [| lia].
    rewrite nth_skipn. split; [reflexivity |].
    apply (row_length nr nc _ ifg Hshape). unfold height in Hi. lia. }
  split.
  - split; [now rewrite length_map |].
    apply List.Forall_forall. intros r Hr.
    apply in_map_iff in Hr. destruct Hr as (r0 & <- & Hr0).
    destruct (In_nth rows r0 [] Hr0) as (i & Hi & Hnth).
    rewrite Hlen in Hi. destruct (Hrow i Hi) as [_ Hl]. rewrite Hnth in Hl.
    destruct (py_slice_window xmin xmax r0 Hx0 Hx1) as [_ Hw].
    rewrite Hw, Hl. reflexivity.
  - intros i j Hi Hj. unfold at2.
    rewrite (nth_map_in _ rows i [] []) by (rewrite Hlen; exact Hi).
    destruct (Hrow i Hi) as [Heq Hl].
    destruct (py_slice_window xmin xmax (nth i rows []) Hx0 Hx1) as [Hw _].
    rewrite Hw, Hl. fold width. rewrite nth_firstn.
    destruct (Nat.ltb_spec j width) as [_ | H]; [| lia].
    now rewrite nth_skipn, Heq.
Qed.

Lemma crop_is_window_witness :
  is_shape (Nat.min (Z.to_nat 3000) 2 - Z.to_nat 1) (Nat.min (Z.to_nat 2) 3 - Z.to_nat 0)
    (crop 1 3000 0 2 [] [[Some 1; Some 2; Some 3]; [Some 4; Some 5; Some 6]])
  /\ forall i j,
       (i < Nat.min (Z.to_nat 3000) 2 - Z.to_nat 1)%nat ->
       (j < Nat.min (Z.to_nat 2) 3 - Z.to_nat 0)%nat ->
       at2 None (crop 1 3000 0 2 [] [[Some 1; Some 2; Some 3]; [Some 4; Some 5; Some 6]])
           i j
       = at2 None [[Some 1; Some 2; Some 3]; [Some 4; Some 5; Some 6]]
             (Z.to_nat 1 + i) (Z.to_nat 0 + j).
Proof.
  apply (crop_is_window 1 3000 0 2 2 3 []
           [[Some 1; Some 2; Some 3]; [Some 4; Some 5; Some 6]]);
    [split; [reflexivity | repeat constructor] | lia | lia | lia | lia].
Defined.

End MaskingAndCropping.

(** ** Cells 6 and 7: the e-folding value and the e-folding distance *)

Section EFolding.

Lemma fold_left_Rmax_in (l : list R) : forall a, In (fold_left Rmax l a) (a :: l).
Proof.
  induction l as [| y l IH]; intros a; simpl; [now left |].
  destruct (IH (Rmax a y)) as [H | H].
  - rewrite <- H. unfold Rmax. destruct (Rle_dec a y); auto.
  - right. now right.
Qed.

Lemma fold_left_Rmax_all (l : list R) :
  forall a x, In x (a :: l) -> x <= fold_left Rmax l a.
Proof.
  induction l as [| y l IH]; intros a x [<- | Hin]; simpl.
  - lra.
  - contradiction.
  - eapply Rle_trans; [apply (Rmax_l a y) | apply IH; now left].
  - destruct Hin as [<- | Hin].
    + eapply Rle_trans; [apply (Rmax_r a y) | apply IH; now left].
    + apply IH. now right.
Qed.

Lemma fmax2_Fin (a b : R) : fmax2 (Fin a) (Fin b) = Fin (Rmax a b).
Proof.
  unfold fmax2, Rmax, Rltb. cbn [isnan fltb]. unfold Rltb.
  destruct (Rlt_dec a b), (Rle_dec a b); try reflexivity; try lra.
  f_equal. lra.
Qed.

(** [np.max] of a vector without specials is its largest entry *)
Lemma np_max_Fin (x : R) (xs : list R) :
  np_max (map Fin (x :: xs)) = inr (Fin (fold_left Rmax xs x)).
Proof.
  unfold np_max. cbn [map]. f_equal. revert x.
  induction xs as [| y xs IH]; intros x; [reflexivity |].
  cbn [map fold_left]. rewrite fmax2_Fin. apply IH.
Qed.

Lemma np_max_nan (l : list fval) : In NaN l -> np_max l = inr NaN.
Proof.
  assert (Hstay : forall r, fold_left fmax2 r NaN = NaN).
  { induction r as [| y r IH]; [reflexivity | exact IH]. }
  assert (Hfold : forall r a, In NaN r -> fold_left fmax2 r a = NaN).
  { induction r as [| y r IH]; intros a Hin; [contradiction |].
    cbn [fold_left]. destruct Hin as [-> | Hin]; [| now apply IH].
    replace (fmax2 a NaN) with NaN by (unfold fmax2; now destruct a).
    apply Hstay. }
  destruct l as [| x r]; [contradiction |]. intros [-> | Hin]; unfold np_max; f_equal.
  - apply Hstay.
  - now apply Hfold.
Qed.

(** the scan of [argmin] over a vector without specials *)
Lemma argmin_from_Fin (xs : list R) :
  forall (i besti : nat) (b : R),
  (argmin_from i besti (Fin b) (map Fin xs) = besti
   /\ forall x, In x xs -> b <= x)
  \/ exists k, (k < length xs)%nat
       /\ argmin_from i besti (Fin b) (map Fin xs) = (i + k)%nat
       /\ nth k xs 0 < b
       /\ (forall j, (j < length xs)%nat -> nth k xs 0 <= nth j xs 0)
       /\ (forall j, (j < k)%nat -> nth k xs 0 < nth j xs 0).
Proof.
  induction xs as [| x xs IH]; intros i besti b.
  - left. split; [reflexivity | intros x []].
  - cbn [map argmin_from replaces fltb]. unfold Rltb.
    destruct (Rlt_dec x b) as [Hlt | Hge].
    + right. destruct (IH (S i) i x) as [[Hr Hall] | (k & Hk & Hr & Hlow & Hmin & Hfirst)].
      * exists 0%nat. split; [simpl; lia |]. split; [rewrite Hr; lia |].
        split; [exact Hlt |]. split; [| intros j Hj; lia].
        intros [| j] Hj; simpl; [lra |].
        apply Hall, nth_In. simpl in Hj. lia.
      * exists (S k). split; [simpl; lia |]. split; [rewrite Hr; lia |].
        cbn [nth]. split; [lra |]. split.
        -- intros [| j] Hj; [lra |]. apply Hmin. simpl in Hj. lia.
        -- intros [| j] Hj; [exact Hlow |]. apply Hfirst. lia.
    + destruct (IH (S i) besti b) as [[Hr Hall] | (k & Hk & Hr & Hlow & Hmin & Hfirst)].
      * left. split; [exact Hr |]. intros y [<- | Hy]; [lra | now apply Hall].
      * right. exists (S k). split; [simpl; lia |]. split; [rewrite Hr; lia |].
        cbn [nth]. split; [exact Hlow |]. split.
        -- intros [| j] Hj; [lra |]. apply Hmin. simpl in Hj. lia.
        -- intros [| j] Hj; [lra |]. apply Hfirst. lia.
Qed.

(** [argmin] of a vector without specials: the first position of the
    smallest entry *)
Lemma argmin_Fin (xs : list R) :
  xs <> [] ->
  exists idx,
    argmin (map Fin xs) = inr idx
    /\ (idx < length xs)%nat
    /\ (forall j, (j < length xs)%nat -> nth idx xs 0 <= nth j xs 0)
    /\ (forall j, (j < idx)%nat -> nth idx xs 0 < nth j xs 0).
Proof.
  destruct xs as [| x xs]; [contradiction |]. intros _.
  cbn [map argmin].
  destruct (argmin_from_Fin xs 1 0 x) as [[Hr Hall] | (k & Hk & Hr & Hlow & Hmin & Hfirst)].
  - exists 0%nat. rewrite Hr. split; [reflexivity |]. split; [simpl; lia |].
    split; [| intros j Hj; lia].
    intros [| j] Hj; simpl; [lra |]. apply Hall, nth_In. simpl in Hj. lia.
  - exists (S k). rewrite Hr. split; [reflexivity |]. split; [simpl; lia |].
    cbn [nth]. split.
    + intros [| j] Hj; [lra |]. apply Hmin. simpl in Hj. lia.
    + intros [| j] Hj; [exact Hlow |]. apply Hfirst. lia.
Qed.

Lemma fdiv_by_e (m : R) : fdiv (Fin m) (Fin (exp 1)) = Fin (m / exp 1).
Proof. apply fdiv_pos, exp_pos. Qed.

(** X19 (cells 6 and 7): on an autocorrelation vector and a profile without
    nan or inf, the e-folding value is the largest autocorrelation divided
    by e, and the e-folding distance that is printed is the label of the
    row whose value is closest to it: no row is closer, and every earlier
    row is farther. *)
Theorem efold_is_closest_row (xs : list R) (rows : list (R * R)) :
  xs <> [] -> rows <> [] ->
  let acg := map Fin xs in
  let cvdav := map (fun rv => (fst rv, Fin (snd rv))) rows in
  exists maxacg idx,
    In maxacg xs /\ (forall x, In x xs -> x <= maxacg)
    /\ efold_distance acg cvdav
       = inr (Fin (maxacg / exp 1), fst (nth idx rows (0, 0)))
    /\ (idx < length rows)%nat
    /\ (forall b, (b < length rows)%nat ->
          Rabs (snd (nth idx rows (0, 0)) - maxacg / exp 1)
          <= Rabs (snd (nth b rows (0, 0)) - maxacg / exp 1))
    /\ (forall b, (b < idx)%nat ->
          Rabs (snd (nth idx rows (0, 0)) - maxacg / exp 1)
          < Rabs (snd (nth b rows (0, 0)) - maxacg / exp 1)).
Proof.
  intros Hxs Hrows acg cvdav.
  destruct xs as [| x xs]; [contradiction |].
  set (m := fold_left Rmax xs x).
  set (dev := map (fun rv : R * R => Rabs (snd rv - m / exp 1)) rows).
  assert (Hdev : map (fun row => fabs (fsub (snd row) (Fin (m / exp 1)))) cvdav
                 = map Fin dev).
  { unfold cvdav, dev. rewrite !map_map. apply map_ext. intros rv. reflexivity. }
  assert (Hne : dev <> []).
  { unfold dev. intros H. apply map_eq_nil in H. contradiction. }
  destruct (argmin_Fin dev Hne) as (idx & Harg & Hidx & Hmin & Hfirst).
  unfold dev in Hidx. rewrite length_map in Hidx.
  assert (Hnth : forall b, (b < length rows)%nat ->
            nth b dev 0 = Rabs (snd (nth b rows (0, 0)) - m / exp 1)).
  { intros b Hb. unfold dev. now rewrite (nth_map_in _ rows b (0, 0) 0). }
  exists m, idx.
  split; [apply fold_left_Rmax_in |].
  split; [apply fold_left_Rmax_all |].
  split; [| split; [exact Hidx | split]].
  - unfold efold_distance, efold_index, acg. rewrite np_max_Fin. fold m.
    rewrite fdiv_by_e, Hdev, Harg. unfold cvdav.
    now rewrite (nth_map_in _ rows idx (0, 0) (0, NaN)).
  - intros b Hb. rewrite <- !Hnth by assumption. apply Hmin.
    unfold dev. now rewrite length_map.
  - intros b Hb. rewrite <- !Hnth by lia. now apply Hfirst.
Qed.

Lemma efold_is_closest_row_witness :
  exists maxacg idx,
    In maxacg [1; 4; 2] /\ (forall x, In x [1; 4; 2] -> x <= maxacg)
    /\ efold_distance (map Fin [1; 4; 2])
         (map (fun rv : R * R => (fst rv, Fin (snd rv))) [(0, 4); (60, 1)])
       = inr (Fin (maxacg / exp 1), fst (nth idx [(0, 4); (60, 1)] (0, 0)))
    /\ (idx < length [(0, 4); (60, 1)])%nat
    /\ (forall b, (b < length [(0, 4); (60, 1)])%nat ->
          Rabs (snd (nth idx [(0, 4); (60, 1)] (0, 0)) - maxacg / exp 1)
          <= Rabs (snd (nth b [(0, 4); (60, 1)] (0, 0)) - maxacg / exp 1))
    /\ (forall b, (b < idx)%nat ->
          Rabs (snd (nth idx [(0, 4); (60, 1)] (0, 0)) - maxacg / exp 1)
          < Rabs (snd (nth b [(0, 4); (60, 1)] (0, 0)) - maxacg / exp 1)).
Proof.
  apply (efold_is_closest_row [1; 4; 2] [(0, 4); (60, 1)]); discriminate.
Defined.

Lemma argmin_from_stays (l : list fval) :
  forall i besti, argmin_from i besti NaN l = besti.
Proof. induction l as [| x l IH]; intros i besti; [reflexivity | apply IH]. Qed.

Lemma replaces_nan (best : fval) : best <> NaN -> replaces NaN best = true.
Proof. destruct best; intros H; try reflexivity. contradiction. Qed.

(** the scan of [argmin] stops at the first nan *)
Lemma argmin_from_nan (l : list fval) :
  forall (i besti : nat) (best : fval) (k : nat),
  best <> NaN -> (k < length l)%nat -> nth k l (Fin 0) = NaN ->
  (forall j, (j < k)%nat -> nth j l (Fin 0) <> NaN) ->
  argmin_from i besti best l = (i + k)%nat.
Proof.
  induction l as [| x l IH]; intros i besti best k Hbest Hk Hnan Hbefore;
    [simpl in Hk; lia |].
  destruct k as [| k].
  - simpl in Hnan. subst x. cbn [argmin_from].
    rewrite (replaces_nan best Hbest), argmin_from_stays. lia.
  - assert (Hx : x <> NaN) by (apply (Hbefore 0%nat); lia).
    cbn [argmin_from]. simpl in Hk, Hnan.
    assert (Hrest : forall j, (j < k)%nat -> nth j l (Fin 0) <> NaN).
    { intros j Hj. apply (Hbefore (S j)). lia. }
    destruct (replaces x best).
    + rewrite (IH (S i) i x k) by (assumption || lia). lia.
    + rewrite (IH (S i) besti best k) by (assumption || lia). lia.
Qed.

Lemma argmin_first_nan (l : list fval) (k : nat) :
  (k < length l)%nat -> nth k l (Fin 0) = NaN ->
  (forall j, (j < k)%nat -> nth j l (Fin 0) <> NaN) ->
  argmin l = inr k.
Proof.
  intros Hk Hnan Hbefore. destruct l as [| x l]; [simpl in Hk; lia |].
  cbn [argmin]. f_equal. destruct k as [| k].
  - simpl in Hnan. subst x. apply argmin_from_stays.
  - rewrite (argmin_from_nan l 1 0 x k).
    + reflexivity.
    + apply (Hbefore 0%nat). lia.
    + simpl in Hk. lia.
    + exact Hnan.
    + intros j Hj. apply (Hbefore (S j)). lia.
Qed.

(** X20 (cells 6 and 7): nan in the e-folding distance.  When the
    autocorrelation vector holds a nan, the e-folding value is nan and the
    distance that is printed is the label of the first row.  When the
    autocorrelation is finite but a row of the profile is nan (a bin
    without samples) after finite rows, the distance that is printed is the
    label of the first such row, however far its neighbours are from the
    e-folding value. *)
Theorem efold_distance_with_nan (acg : list fval) (cvdav : list (R * fval)) :
  cvdav <> [] ->
  (In NaN acg ->
   efold_distance acg cvdav = inr (NaN, fst (nth 0 cvdav (0, NaN))))
  /\ (forall (x : R) (xs : list R) (i : nat),
        acg = map Fin (x :: xs) ->
        (i < length cvdav)%nat ->
        snd (nth i cvdav (0, NaN)) = NaN ->
        (forall j, (j < i)%nat -> exists v, snd (nth j cvdav (0, NaN)) = Fin v) ->
        efold_distance acg cvdav
        = inr (Fin (fold_left Rmax xs x / exp 1), fst (nth i cvdav (0, NaN)))).
Proof.
  intros Hne. split.
  - intros Hnan. unfold efold_distance, efold_index.
    rewrite (np_max_nan acg Hnan). cbn [fdiv].
    rewrite (argmin_first_nan _ 0%nat); [reflexivity | | | intros j Hj; lia].
    + rewrite length_map. destruct cvdav; [contradiction | simpl; lia].
    + destruct cvdav as [| [r v] rest]; [contradiction |]. cbn [map nth snd].
      unfold fsub. cbn [fneg]. now destruct v.
  - intros x xs i -> Hi Hrow Hbefore. unfold efold_distance, efold_index.
    rewrite np_max_Fin, fdiv_by_e.
    set (e := fold_left Rmax xs x / exp 1).
    assert (Hnth : forall j, (j < length cvdav)%nat ->
              nth j (map (fun row : R * fval => fabs (fsub (snd row) (Fin e))) cvdav)
                  (Fin 0)
              = fabs (fsub (snd (nth j cvdav (0, NaN))) (Fin e))).
    { intros j Hj. now rewrite (nth_map_in _ cvdav j (0, NaN) (Fin 0)). }
    rewrite (argmin_first_nan _ i); [reflexivity | | |].
    + now rewrite length_map.
    + rewrite Hnth by exact Hi. now rewrite Hrow.
    + intros j Hj. rewrite Hnth by lia.
      destruct (Hbefore j Hj) as [v ->]. discriminate.
Qed.

Lemma efold_distance_with_nan_witness :
  (In NaN [Fin 1; NaN] ->
   efold_distance [Fin 1; NaN] [(0, Fin 4); (60, NaN); (120, Fin 1)]
   = inr (NaN, fst (nth 0 [(0, Fin 4); (60, NaN); (120, Fin 1)] (0, NaN))))
  /\ (forall (x : R) (xs : list R) (i : nat),
        [Fin 1; NaN] = map Fin (x :: xs) ->
        (i < length [(0, Fin 4); (60, NaN); (120, Fin 1)])%nat ->
        snd (nth i [(0, Fin 4); (60, NaN); (120, Fin 1)] (0, NaN)) = NaN ->
        (forall j, (j < i)%nat ->
           exists v, snd (nth j [(0, Fin 4); (60, NaN); (120, Fin 1)] (0, NaN)) = Fin v) ->
        efold_distance [Fin 1; NaN] [(0, Fin 4); (60, NaN); (120, Fin 1)]
        = inr (Fin (fold_left Rmax xs x / exp 1),
               fst (nth i [(0, Fin 4); (60, NaN); (120, Fin 1)] (0, NaN)))).
Proof.
  apply (efold_distance_with_nan [Fin 1; NaN] [(0, Fin 4); (60, NaN); (120, Fin 1)]).
  discriminate.
Defined.

End EFolding.

(** ** Cell 5: the Fourier route computes the circular autocorrelation *)

Section TrigSums.

Lemma sum_upto_const (n : nat) (c : R) : sum_upto n (fun _ => c) = INR n * c.
Proof.
  induction n as [| n IH]; [rewrite sum_upto_0; simpl; ring |].
  rewrite sum_upto_S, IH, S_INR. ring.
Qed.

Lemma sum_upto_minus (n : nat) (f g : nat -> R) :
  sum_upto n (fun k => f k - g k) = sum_upto n f - sum_upto n g.
Proof.
  induction n as [| n IH]; [rewrite !sum_upto_0; ring |].
  rewrite !sum_upto_S, IH. ring.
Qed.

Lemma sum_upto_telescope (n : nat) (g : nat -> R) :
  sum_upto n (fun k => g (S k) - g k) = g n - g 0%nat.
Proof.
  induction n as [| n IH]; [rewrite sum_upto_0; ring |].
  rewrite sum_upto_S, IH. ring.
Qed.

(** cos and sin at a whole number of turns *)
Lemma cos_sin_turns (m : Z) : cos (2 * PI * IZR m) = 1 /\ sin (2 * PI * IZR m) = 0.
Proof.
  assert (Hnat : forall k : nat, cos (2 * PI * INR k) = 1 /\ sin (2 * PI * INR k) = 0).
  { intros k. replace (2 * PI * INR k) with (0 + 2 * INR k * PI) by ring.
    rewrite cos_period, sin_period, cos_0, sin_0. split; reflexivity. }
  destruct (Z_le_gt_dec 0 m) as [H | H].
  - rewrite <- (Z2Nat.id m H), <- INR_IZR_INZ. apply Hnat.
  - replace (2 * PI * IZR m) with (- (2 * PI * INR (Z.to_nat (- m)))).
    + rewrite cos_neg, sin_neg. destruct (Hnat (Z.to_nat (- m))) as [-> ->].
      split; ring.
    + rewrite INR_IZR_INZ, Z2Nat.id by lia. rewrite opp_IZR. ring.
Qed.

(** an angle [2 pi a / n] with cosine 1 is a whole number of turns *)
Lemma cos_one_divides (n : nat) (a : Z) :
  (0 < n)%nat -> cos (2 * PI * IZR a / INR n) = 1 -> (a mod Z.of_nat n = 0)%Z.
Proof.
  intros Hn Hcos.
  assert (Hn0 : INR n <> 0) by (apply not_0_INR; lia).
  replace (2 * PI * IZR a / INR n) with (2 * (PI * IZR a / INR n)) in Hcos
    by (field; exact Hn0).
  rewrite cos_2a_sin in Hcos.
  assert (Hsin : sin (PI * IZR a / INR n) = 0) by nra.
  apply sin_eq_0_0 in Hsin. destruct Hsin as [k Hk].
  assert (Ha : IZR a = IZR (k * Z.of_nat n)).
  { rewrite mult_IZR, <- INR_IZR_INZ.
    apply (Rmult_eq_reg_l PI); [| pose proof PI_RGT_0; lra].
    apply (f_equal (fun x => x * INR n)) in Hk.
    replace (PI * IZR a / INR n * INR n) with (PI * IZR a) in Hk by (field; exact Hn0).
    rewrite Hk. ring. }
  apply eq_IZR in Ha. subst a. apply Z.mod_mul. lia.
Qed.

(** the sums of the [n]-th roots of unity to the power [a] *)
Lemma trig_sums (n : nat) (a : Z) :
  (0 < n)%nat ->
  sum_upto n (fun k => cos (INR k * (2 * PI * IZR a / INR n))) = INR n * divides_ind n a
  /\ sum_upto n (fun k => sin (INR k * (2 * PI * IZR a / INR n))) = 0.
Proof.
  intros Hn. set (t := 2 * PI * IZR a / INR n).
  assert (Hn0 : INR n <> 0) by (apply not_0_INR; lia).
  unfold divides_ind. destruct (Z.eqb_spec (a mod Z.of_nat n) 0) as [Hdiv | Hndiv].
  - apply Zmod_divides in Hdiv; [| lia]. destruct Hdiv as [c ->].
    assert (Hturn : forall k : nat, INR k * t = 2 * PI * IZR (c * Z.of_nat k)).
    { intros k. unfold t. rewrite !mult_IZR, <- !INR_IZR_INZ. field. exact Hn0. }
    split.
    + rewrite (sum_upto_ext n _ (fun _ => 1)); [apply sum_upto_const |].
      intros k _. rewrite Hturn. apply cos_sin_turns.
    + rewrite (sum_upto_ext n _ (fun _ => 0)); [apply sum_upto_zero |].
      intros k _. rewrite Hturn. apply cos_sin_turns.
  - set (C := sum_upto n (fun k => cos (INR k * t))).
    set (S := sum_upto n (fun k => sin (INR k * t))).
    assert (Hnt : INR n * t = 2 * PI * IZR a) by (unfold t; field; exact Hn0).
    assert (Hc : (cos t - 1) * C - sin t * S = 0).
    { transitivity (sum_upto n (fun k => cos (INR (Datatypes.S k) * t) - cos (INR k * t))).
      - unfold C, S. rewrite <- sum_upto_scale_l, <- sum_upto_scale_l, <- sum_upto_minus.
        apply sum_upto_ext. intros k _. rewrite S_INR.
        replace ((INR k + 1) * t) with (INR k * t + t) by ring.
        rewrite cos_plus. ring.
      - rewrite (sum_upto_telescope n (fun k => cos (INR k * t))).
        rewrite Hnt. destruct (cos_sin_turns a) as [-> _].
        simpl. rewrite Rmult_0_l, cos_0. ring. }
    assert (Hs : sin t * C + (cos t - 1) * S = 0).
    { transitivity (sum_upto n (fun k => sin (INR (Datatypes.S k) * t) - sin (INR k * t))).
      - unfold C, S. rewrite <- sum_upto_scale_l, <- sum_upto_scale_l, <- sum_upto_plus.
        apply sum_upto_ext. intros k _. rewrite S_INR.
        replace ((INR k + 1) * t) with (INR k * t + t) by ring.
        rewrite sin_plus. ring.
      - rewrite (sum_upto_telescope n (fun k => sin (INR k * t))).
        rewrite Hnt. destruct (cos_sin_turns a) as [_ ->].
        simpl. rewrite Rmult_0_l, sin_0. ring. }
    assert (Hct : cos t <> 1).
    { intros H. apply Hndiv. now apply (cos_one_divides n a Hn). }
    pose proof (sin2_cos2 t) as Hsc. unfold Rsqr in Hsc.
    pose proof (COS_bound t) as Hb.
    assert (HD : 0 < (cos t - 1) * (cos t - 1) + sin t * sin t) by nra.
    assert (HC : ((cos t - 1) * (cos t - 1) + sin t * sin t) * C = 0).
    { replace (((cos t - 1) * (cos t - 1) + sin t * sin t) * C)
        with ((cos t - 1) * ((cos t - 1) * C - sin t * S)
              + sin t * (sin t * C + (cos t - 1) * S)) by ring.
      rewrite Hc, Hs. ring. }
    assert (HS : ((cos t - 1) * (cos t - 1) + sin t * sin t) * S = 0).
    { replace (((cos t - 1) * (cos t - 1) + sin t * sin t) * S)
        with ((cos t - 1) * (sin t * C + (cos t - 1) * S)
              - sin t * ((cos t - 1) * C - sin t * S)) by ring.
      rewrite Hc, Hs. ring. }
    apply Rmult_integral in HC, HS.
    split; [destruct HC as [HC | HC]; [lra | rewrite HC; ring]
           | destruct HS as [HS | HS]; [lra | exact HS]].
Qed.

(** the same over the two axes of a grid *)
Lemma trig_sums_grid (nrows ncols : nat) (a b : Z) :
  (0 < nrows)%nat -> (0 < ncols)%nat ->
  sum2 nrows ncols
       (fun u v => cos (INR u * (2 * PI * IZR a / INR nrows)
                        + INR v * (2 * PI * IZR b / INR ncols)))
  = INR nrows * INR ncols * (divides_ind nrows a * divides_ind ncols b).
Proof.
  intros Hr Hc. unfold sum2.
  destruct (trig_sums nrows a Hr) as [Ca Sa].
  destruct (trig_sums ncols b Hc) as [Cb Sb].
  rewrite (sum_upto_ext nrows _
             (fun u => cos (INR u * (2 * PI * IZR a / INR nrows))
                       * (INR ncols * divides_ind ncols b)
                       - sin (INR u * (2 * PI * IZR a / INR nrows)) * 0)).
  - rewrite sum_upto_minus, !sum_upto_scale_r, Ca. ring.
  - intros u _. rewrite <- Cb, <- Sb, <- !sum_upto_scale_l, <- sum_upto_minus.
    apply sum_upto_ext. intros v _. apply cos_plus.
Qed.

End TrigSums.

Section TransformEntries.

Lemma Csum_parts (l : list Cx) : Csum l = (Rsum (map fst l), Rsum (map snd l)).
Proof.
  unfold Csum.
  assert (H : forall a : Cx,
            fold_left Cadd l a = (fst a + Rsum (map fst l), snd a + Rsum (map snd l))).
  { induction l as [| x l IH]; intros a; simpl.
    - destruct a. simpl. f_equal; ring.
    - rewrite IH. unfold Cadd. simpl. f_equal; ring. }
  rewrite H. simpl. f_equal; ring.
Qed.

Lemma map_combine_nth {X Y} (F : nat * X -> Y) (x : list X) (d : X) :
  map F (combine (seq 0 (length x)) x)
  = map (fun j => F (j, nth j x d)) (seq 0 (length x)).
Proof.
  assert (H : forall s,
            map F (combine (seq s (length x)) x)
            = map (fun j => F (j, nth (j - s) x d)) (seq s (length x))).
  { induction x as [| a x IH]; intros s; simpl; [reflexivity |].
    rewrite Nat.sub_diag. f_equal. rewrite IH.
    apply map_ext_in. intros j Hj. apply in_seq in Hj.
    replace (j - s)%nat with (S (j - S s)) by lia. reflexivity. }
  rewrite H. apply map_ext. intros j. now rewrite Nat.sub_0_r.
Qed.

Lemma length_dft (sgn : R) (x : list Cx) : length (dft sgn x) = length x.
Proof. unfold dft. now rewrite length_map, length_seq. Qed.

Lemma length_ifft (x : list Cx) : length (ifft x) = length x.
Proof. unfold ifft. now rewrite length_map, length_dft. Qed.

(** entry [k] of the Fourier sum of a vector, real and imaginary part *)
Lemma nth_dft (sgn : R) (x : list Cx) (k : nat) :
  (k < length x)%nat ->
  nth k (dft sgn x) (0, 0)
  = (sum_upto (length x)
       (fun j => fst (nth j x (0, 0))
                 * cos (sgn * (2 * PI * INR j * INR k / INR (length x)))
                 - snd (nth j x (0, 0))
                   * sin (sgn * (2 * PI * INR j * INR k / INR (length x)))),
     sum_upto (length x)
       (fun j => fst (nth j x (0, 0))
                 * sin (sgn * (2 * PI * INR j * INR k / INR (length x)))
                 + snd (nth j x (0, 0))
                   * cos (sgn * (2 * PI * INR j * INR k / INR (length x))))).
Proof.
  intros Hk. unfold dft. rewrite (nth_map_seq _ _ k (0, 0) Hk).
  rewrite (map_combine_nth _ x (0, 0)), Csum_parts, !map_map.
  unfold sum_upto. reflexivity.
Qed.

Lemma nth_ifft (x : list Cx) (k : nat) :
  (k < length x)%nat ->
  nth k (ifft x) (0, 0) = Cscale (/ INR (length x)) (nth k (dft 1 x) (0, 0)).
Proof.
  intros Hk. unfold ifft.
  now rewrite (nth_map_in _ (dft 1 x) k (0, 0) (0, 0)) by now rewrite length_dft.
Qed.

(** an entry of a transform along both axes: the transform of a column of
    the row transforms *)
Lemma at2_along_both (t : list Cx -> list Cx) (g : grid Cx) (nrows ncols u v : nat) :
  is_shape nrows ncols g -> (u < nrows)%nat -> (v < ncols)%nat ->
  at2 (0, 0) (along_both t g) u v
  = nth u (t (map (fun row => nth v (t row) (0, 0)) g)) (0, 0).
Proof.
  intros Hg Hu Hv. pose proof Hg as [Hrows _].
  unfold along_both, at2. unfold nrows_of. rewrite Hrows.
  rewrite (ncols_of_shape nrows ncols g Hg) by lia.
  unfold transpose at 1. rewrite (nth_map_seq _ _ u [] Hu).
  unfold column at 1.
  rewrite (nth_map_in _ _ v [] (0, 0))
    by (rewrite length_map; unfold transpose; now rewrite length_map, length_seq).
  f_equal.
  rewrite (nth_map_in _ _ v [] [])
    by (unfold transpose; now rewrite length_map, length_seq).
  f_equal. unfold transpose. rewrite (nth_map_seq _ _ v [] Hv).
  unfold column. now rewrite map_map.
Qed.

Lemma at2_row {X} (d : X) (g : grid X) (r c : nat) :
  nth c (nth r g []) d = at2 d g r c.
Proof. reflexivity. Qed.

End TransformEntries.

Section GridTransforms.

Lemma grid_map_shape {X Y} (f : X -> Y) (nrows ncols : nat) (g : grid X) :
  is_shape nrows ncols g -> is_shape nrows ncols (grid_map f g).
Proof.
  intros [Hr Hc]. split; [unfold grid_map; now rewrite length_map |].
  unfold grid_map. apply List.Forall_forall. intros row Hrow.
  apply in_map_iff in Hrow. destruct Hrow as (row0 & <- & Hin).
  rewrite length_map. rewrite List.Forall_forall in Hc. now apply Hc.
Qed.

Lemma along_both_shape (t : list Cx -> list Cx) (g : grid Cx) (nrows ncols : nat) :
  is_shape nrows ncols g -> (0 < nrows)%nat ->
  is_shape nrows ncols (along_both t g).
Proof.
  intros Hg Hpos. pose proof Hg as [Hrows _].
  unfold along_both. unfold nrows_of. rewrite Hrows.
  rewrite (ncols_of_shape nrows ncols g Hg Hpos).
  unfold transpose at 1. split; [now rewrite length_map, length_seq |].
  apply List.Forall_forall. intros row Hrow.
  apply in_map_iff in Hrow. destruct Hrow as (u & <- & _).
  unfold column. rewrite !length_map. unfold transpose.
  now rewrite length_map, length_seq.
Qed.

Lemma sum2_ext (nrows ncols : nat) (f g : nat -> nat -> R) :
  (forall r c, (r < nrows)%nat -> (c < ncols)%nat -> f r c = g r c) ->
  sum2 nrows ncols f = sum2 nrows ncols g.
Proof.
  intros H. unfold sum2. apply sum_upto_ext. intros r Hr.
  apply sum_upto_ext. intros c Hc. now apply H.
Qed.

Lemma sum2_scale_l (nrows ncols : nat) (k : R) (f : nat -> nat -> R) :
  sum2 nrows ncols (fun r c => k * f r c) = k * sum2 nrows ncols f.
Proof.
  unfold sum2. rewrite <- sum_upto_scale_l. apply sum_upto_ext. intros r _.
  apply sum_upto_scale_l.
Qed.

Lemma sum2_scale_r (nrows ncols : nat) (k : R) (f : nat -> nat -> R) :
  sum2 nrows ncols (fun r c => f r c * k) = sum2 nrows ncols f * k.
Proof.
  unfold sum2. rewrite <- sum_upto_scale_r. apply sum_upto_ext. intros r _.
  apply sum_upto_scale_r.
Qed.

Lemma sum2_plus (nrows ncols : nat) (f g : nat -> nat -> R) :
  sum2 nrows ncols (fun r c => f r c + g r c)
  = sum2 nrows ncols f + sum2 nrows ncols g.
Proof.
  unfold sum2. rewrite <- sum_upto_plus. apply sum_upto_ext. intros r _.
  apply sum_upto_plus.
Qed.

Lemma sum2_minus (nrows ncols : nat) (f g : nat -> nat -> R) :
  sum2 nrows ncols (fun r c => f r c - g r c)
  = sum2 nrows ncols f - sum2 nrows ncols g.
Proof.
  unfold sum2. rewrite <- sum_upto_minus. apply sum_upto_ext. intros r _.
  apply sum_upto_minus.
Qed.

Lemma sum2_swap (a b c d : nat) (F : nat -> nat -> nat -> nat -> R) :
  sum2 a b (fun u v => sum2 c d (fun r s => F u v r s))
  = sum2 c d (fun r s => sum2 a b (fun u v => F u v r s)).
Proof.
  unfold sum2.
  rewrite (sum_upto_ext a _
             (fun u => sum_upto c (fun r => sum_upto b (fun v =>
                         sum_upto d (fun s => F u v r s)))))
    by (intros u _; apply sum_upto_swap).
  rewrite sum_upto_swap. apply sum_upto_ext. intros r _.
  rewrite (sum_upto_ext a _
             (fun u => sum_upto d (fun s => sum_upto b (fun v => F u v r s))))
    by (intros u _; apply sum_upto_swap).
  apply sum_upto_swap.
Qed.

Lemma sum2_le (nrows ncols : nat) (f g : nat -> nat -> R) :
  (forall r c, (r < nrows)%nat -> (c < ncols)%nat -> f r c <= g r c) ->
  sum2 nrows ncols f <= sum2 nrows ncols g.
Proof.
  intros H. unfold sum2. apply sum_upto_le. intros r Hr.
  apply sum_upto_le. intros c Hc. now apply H.
Qed.

(** the transform of a real grid along both axes, entry (u, v) *)
Lemma dft2_real (sgn : R) (z : grid R) (nrows ncols u v : nat) :
  is_shape nrows ncols z -> (u < nrows)%nat -> (v < ncols)%nat ->
  at2 (0, 0) (along_both (dft sgn) (grid_map RtoC z)) u v
  = (sum2 nrows ncols
       (fun r c => at2 0 z r c * cos (grid_angle sgn nrows ncols r c u v)),
     sum2 nrows ncols
       (fun r c => at2 0 z r c * sin (grid_angle sgn nrows ncols r c u v))).
Proof.
  intros Hz Hu Hv. pose proof Hz as [Hrows Hcols].
  rewrite (at2_along_both _ _ nrows ncols u v (grid_map_shape RtoC _ _ z Hz) Hu Hv).
  set (X := map (fun row => nth v (dft sgn row) (0, 0)) (grid_map RtoC z)).
  assert (HX : length X = nrows)
    by (unfold X, grid_map; now rewrite !length_map).
  assert (Hentry : forall r, (r < nrows)%nat ->
            nth r X (0, 0)
            = (sum_upto ncols
                 (fun c => at2 0 z r c
                           * cos (sgn * (2 * PI * INR c * INR v / INR ncols))),
               sum_upto ncols
                 (fun c => at2 0 z r c
                           * sin (sgn * (2 * PI * INR c * INR v / INR ncols))))).
  { intros r Hr. unfold X, grid_map. rewrite map_map.
    rewrite (nth_map_in _ z r [] (0, 0)) by (rewrite Hrows; exact Hr).
    assert (Hlen : length (map RtoC (nth r z [])) = ncols)
      by (rewrite length_map; now apply (row_length nrows ncols r z)).
    rewrite nth_dft by (rewrite Hlen; exact Hv). rewrite Hlen.
    f_equal; apply sum_upto_ext; intros c Hc;
      change (0, 0) with (RtoC 0); rewrite map_nth; unfold RtoC, at2;
      cbn [fst snd]; ring. }
  rewrite nth_dft by (rewrite HX; exact Hu). rewrite HX. unfold sum2.
  f_equal; apply sum_upto_ext; intros r Hr; rewrite (Hentry r Hr); cbn [fst snd];
    rewrite <- !sum_upto_scale_r.
  - rewrite <- sum_upto_minus. apply sum_upto_ext. intros c _.
    unfold grid_angle. rewrite cos_plus. ring.
  - rewrite <- sum_upto_plus. apply sum_upto_ext. intros c _.
    unfold grid_angle. rewrite sin_plus. ring.
Qed.

(** the real part of the inverse transform of a real grid, entry (p, q) *)
Lemma ifft2_real (P : grid R) (nrows ncols p q : nat) :
  is_shape nrows ncols P -> (p < nrows)%nat -> (q < ncols)%nat ->
  fst (at2 (0, 0) (ifft2 (grid_map RtoC P)) p q)
  = / INR nrows * / INR ncols
    * sum2 nrows ncols
        (fun u v => at2 0 P u v * cos (grid_angle 1 nrows ncols u v p q)).
Proof.
  intros HP Hp Hq. pose proof HP as [Hrows Hcols]. unfold ifft2.
  rewrite (at2_along_both _ _ nrows ncols p q (grid_map_shape RtoC _ _ P HP) Hp Hq).
  set (X := map (fun row => nth q (ifft row) (0, 0)) (grid_map RtoC P)).
  assert (HX : length X = nrows)
    by (unfold X, grid_map; now rewrite !length_map).
  assert (Hentry : forall u, (u < nrows)%nat ->
            nth u X (0, 0)
            = (/ INR ncols
               * sum_upto ncols
                   (fun v => at2 0 P u v
                             * cos (1 * (2 * PI * INR v * INR q / INR ncols))),
               / INR ncols
               * sum_upto ncols
                   (fun v => at2 0 P u v
                             * sin (1 * (2 * PI * INR v * INR q / INR ncols))))).
  { intros u Hu. unfold X, grid_map. rewrite map_map.
    rewrite (nth_map_in _ P u [] (0, 0)) by (rewrite Hrows; exact Hu).
    assert (Hlen : length (map RtoC (nth u P [])) = ncols)
      by (rewrite length_map; now apply (row_length nrows ncols u P)).
    rewrite nth_ifft by (rewrite Hlen; exact Hq).
    rewrite nth_dft by (rewrite Hlen; exact Hq). rewrite Hlen.
    unfold Cscale. cbn [fst snd].
    f_equal; f_equal; apply sum_upto_ext; intros v Hv;
      change (0, 0) with (RtoC 0); rewrite map_nth; unfold RtoC, at2;
      cbn [fst snd]; ring. }
  rewrite nth_ifft by (rewrite HX; exact Hp).
  rewrite nth_dft by (rewrite HX; exact Hp). rewrite HX.
  unfold Cscale. cbn [fst]. rewrite Rmult_assoc. f_equal.
  unfold sum2. rewrite <- sum_upto_scale_l.
  apply sum_upto_ext. intros u Hu. rewrite (Hentry u Hu). cbn [fst snd].
  rewrite !(Rmult_assoc (/ INR ncols)), <- !sum_upto_scale_r, <- Rmult_minus_distr_l.
  f_equal.
  rewrite <- sum_upto_minus. apply sum_upto_ext. intros v _.
  unfold grid_angle. rewrite cos_plus. ring.
Qed.

End GridTransforms.

Section CircularAutocorrelation.

Lemma divides_ind_kronecker (n t r : nat) :
  (r < n)%nat ->
  divides_ind n (Z.of_nat t - Z.of_nat r) = kronecker (t mod n) r.
Proof.
  intros Hr. unfold divides_ind, kronecker.
  assert (Hmod : Z.of_nat (t mod n) = (Z.of_nat t mod Z.of_nat n)%Z)
    by (apply Nat2Z.inj_mod).
  destruct (Z.eqb_spec ((Z.of_nat t - Z.of_nat r) mod Z.of_nat n) 0) as [H0 | H0];
    destruct (Nat.eqb_spec (t mod n) r) as [E | E]; try reflexivity; exfalso.
  - apply Zmod_divides in H0; [| lia]. destruct H0 as [c Hc].
    apply E. apply Nat2Z.inj. rewrite Hmod.
    replace (Z.of_nat t) with (Z.of_nat r + c * Z.of_nat n)%Z by lia.
    rewrite Z.mod_add by lia. apply Z.mod_small. lia.
  - apply H0. apply Zmod_divides; [lia |].
    exists (Z.of_nat t / Z.of_nat n)%Z.
    pose proof (Z.div_mod (Z.of_nat t) (Z.of_nat n) ltac:(lia)) as Hdm.
    rewrite <- Hmod, E in Hdm. lia.
Qed.

(** a sum against the indicator of one residue picks one term *)
Lemma pick_residue (n t : nat) (f : nat -> R) :
  (0 < n)%nat ->
  sum_upto n (fun r => f r * divides_ind n (Z.of_nat t - Z.of_nat r)) = f (t mod n)%nat.
Proof.
  intros Hn.
  rewrite (sum_upto_ext n _ (fun r => f r * kronecker (t mod n) r))
    by (intros r Hr; now rewrite divides_ind_kronecker).
  rewrite sum_upto_kronecker.
  destruct (Nat.ltb_spec (t mod n) n) as [_ | H]; [reflexivity |].
  pose proof (Nat.mod_upper_bound t n). lia.
Qed.

Lemma pick_lag (nrows ncols r0 c0 p q : nat) (f : nat -> nat -> R) :
  (0 < nrows)%nat -> (0 < ncols)%nat ->
  sum2 nrows ncols
       (fun r c => f r c
                   * (divides_ind nrows (Z.of_nat r0 + Z.of_nat p - Z.of_nat r)
                      * divides_ind ncols (Z.of_nat c0 + Z.of_nat q - Z.of_nat c)))
  = f ((r0 + p) mod nrows)%nat ((c0 + q) mod ncols)%nat.
Proof.
  intros Hr Hc. unfold sum2.
  rewrite (sum_upto_ext nrows _
             (fun r => f r ((c0 + q) mod ncols)%nat
                       * divides_ind nrows (Z.of_nat (r0 + p) - Z.of_nat r))).
  - exact (pick_residue nrows (r0 + p) (fun r => f r ((c0 + q) mod ncols)%nat) Hr).
  - intros r _. rewrite <- (pick_residue ncols (c0 + q) (f r) Hc).
    rewrite <- sum_upto_scale_r. apply sum_upto_ext. intros c _.
    rewrite !Nat2Z.inj_add. ring.
Qed.

(** the squares of two sums over a grid as one double sum *)
Lemma squares_expand (nrows ncols : nat) (a b : nat -> nat -> R) :
  sum2 nrows ncols a * sum2 nrows ncols a + sum2 nrows ncols b * sum2 nrows ncols b
  = sum2 nrows ncols (fun r c => sum2 nrows ncols (fun r' c' =>
      a r c * a r' c' + b r c * b r' c')).
Proof.
  rewrite <- (sum2_scale_r nrows ncols (sum2 nrows ncols a) a).
  rewrite <- (sum2_scale_r nrows ncols (sum2 nrows ncols b) b).
  rewrite <- sum2_plus. apply sum2_ext. intros r c _ _.
  rewrite <- !sum2_scale_l, <- sum2_plus. reflexivity.
Qed.

(** the product of the two kernels, summed over the frequencies *)
Lemma kernel_sum (nrows ncols r c r' c' p q : nat) :
  (0 < nrows)%nat -> (0 < ncols)%nat ->
  sum2 nrows ncols
       (fun u v =>
          (cos (grid_angle (-1) nrows ncols r c u v)
           * cos (grid_angle (-1) nrows ncols r' c' u v)
           + sin (grid_angle (-1) nrows ncols r c u v)
             * sin (grid_angle (-1) nrows ncols r' c' u v))
          * cos (grid_angle 1 nrows ncols u v p q))
  = INR nrows * INR ncols / 2
    * (divides_ind nrows (Z.of_nat r' + Z.of_nat p - Z.of_nat r)
       * divides_ind ncols (Z.of_nat c' + Z.of_nat q - Z.of_nat c)
       + divides_ind nrows (Z.of_nat r + Z.of_nat p - Z.of_nat r')
         * divides_ind ncols (Z.of_nat c + Z.of_nat q - Z.of_nat c')).
Proof.
  intros Hr Hc.
  assert (Hr0 : INR nrows <> 0) by (apply not_0_INR; lia).
  assert (Hc0 : INR ncols <> 0) by (apply not_0_INR; lia).
  set (A1 := (Z.of_nat r' + Z.of_nat p - Z.of_nat r)%Z).
  set (B1 := (Z.of_nat c' + Z.of_nat q - Z.of_nat c)%Z).
  set (A2 := (Z.of_nat r + Z.of_nat p - Z.of_nat r')%Z).
  set (B2 := (Z.of_nat c + Z.of_nat q - Z.of_nat c')%Z).
  rewrite (sum2_ext nrows ncols _
             (fun u v =>
                / 2 * cos (INR u * (2 * PI * IZR A1 / INR nrows)
                           + INR v * (2 * PI * IZR B1 / INR ncols))
                + / 2 * cos (INR u * (2 * PI * IZR A2 / INR nrows)
                             + INR v * (2 * PI * IZR B2 / INR ncols)))).
  - rewrite sum2_plus, !sum2_scale_l, !trig_sums_grid by assumption. field.
  - intros u v _ _.
    set (x := grid_angle (-1) nrows ncols r c u v
              - grid_angle (-1) nrows ncols r' c' u v).
    set (y := grid_angle 1 nrows ncols u v p q).
    replace (INR u * (2 * PI * IZR A1 / INR nrows)
             + INR v * (2 * PI * IZR B1 / INR ncols)) with (x + y).
    2:{ unfold x, y, grid_angle, A1, B1.
        rewrite !minus_IZR, !plus_IZR, <- !INR_IZR_INZ. field. split; assumption. }
    replace (INR u * (2 * PI * IZR A2 / INR nrows)
             + INR v * (2 * PI * IZR B2 / INR ncols)) with (y - x).
    2:{ unfold x, y, grid_angle, A2, B2.
        rewrite !minus_IZR, !plus_IZR, <- !INR_IZR_INZ. field. split; assumption. }
    rewrite cos_plus, cos_minus. unfold x. rewrite cos_minus. field.
Qed.

Variables (nrows ncols : nat) (z : grid R).
Hypothesis Hz : is_shape nrows ncols z.
Hypothesis Hrows : (0 < nrows)%nat.
Hypothesis Hcols : (0 < ncols)%nat.

Lemma shape_nrows_ncols : nrows_of z = nrows /\ ncols_of z = ncols.
Proof.
  split; [now destruct Hz | now apply (ncols_of_shape nrows ncols z)].
Qed.

(** the power spectrum, entry (u, v) *)
Lemma pspec_entry (u v : nat) :
  (u < nrows)%nat -> (v < ncols)%nat ->
  at2 0 (grid_map (fun c : R * R => fst c ^ 2 + snd c ^ 2) (fft2 (grid_map RtoC z))) u v
  = sum2 nrows ncols (fun r c => sum2 nrows ncols (fun r' c' =>
      at2 0 z r c * at2 0 z r' c'
      * (cos (grid_angle (-1) nrows ncols r c u v)
         * cos (grid_angle (-1) nrows ncols r' c' u v)
         + sin (grid_angle (-1) nrows ncols r c u v)
           * sin (grid_angle (-1) nrows ncols r' c' u v)))).
Proof.
  intros Hu Hv.
  rewrite (at2_grid_map _ ((0, 0) : R * R) 0) by (simpl; ring).
  change (fft2 (grid_map RtoC z)) with (along_both (dft (-1)) (grid_map RtoC z)).
  rewrite (dft2_real (-1) z nrows ncols u v Hz Hu Hv).
  cbn [fst snd]. simpl pow. rewrite !Rmult_1_r, squares_expand.
  apply sum2_ext. intros r c _ _. apply sum2_ext. intros r' c' _ _. ring.
Qed.

Lemma pspec_shape :
  is_shape nrows ncols
    (grid_map (fun c : R * R => fst c ^ 2 + snd c ^ 2) (fft2 (grid_map RtoC z))).
Proof.
  apply grid_map_shape, along_both_shape; [| exact Hrows].
  now apply grid_map_shape.
Qed.

(** The Fourier route of the cell gives the circular autocorrelation of
    the spatial domain. *)
Lemma unshifted_autocorr_entry (p q : nat) :
  (p < nrows)%nat -> (q < ncols)%nat ->
  at2 0 (unshifted_autocorr z) p q = circular_autocorr z p q.
Proof.
  intros Hp Hq.
  assert (Hr0 : INR nrows <> 0) by (apply not_0_INR; lia).
  assert (Hc0 : INR ncols <> 0) by (apply not_0_INR; lia).
  unfold unshifted_autocorr. cbv zeta.
  rewrite (at2_grid_map fst ((0, 0) : R * R) 0) by reflexivity.
  rewrite (ifft2_real _ nrows ncols p q pspec_shape Hp Hq).
  rewrite (sum2_ext nrows ncols _
             (fun u v => sum2 nrows ncols (fun r c => sum2 nrows ncols (fun r' c' =>
                at2 0 z r c * at2 0 z r' c'
                * ((cos (grid_angle (-1) nrows ncols r c u v)
                    * cos (grid_angle (-1) nrows ncols r' c' u v)
                    + sin (grid_angle (-1) nrows ncols r c u v)
                      * sin (grid_angle (-1) nrows ncols r' c' u v))
                   * cos (grid_angle 1 nrows ncols u v p q)))))).
  2:{ intros u v Hu Hv. rewrite (pspec_entry u v Hu Hv).
      rewrite <- sum2_scale_r. apply sum2_ext. intros r c _ _.
      rewrite <- sum2_scale_r. apply sum2_ext. intros r' c' _ _. ring. }
  rewrite sum2_swap.
  rewrite (sum2_ext nrows ncols _
             (fun r c => sum2 nrows ncols (fun r' c' =>
                at2 0 z r c * at2 0 z r' c'
                * (INR nrows * INR ncols / 2
                   * (divides_ind nrows (Z.of_nat r' + Z.of_nat p - Z.of_nat r)
                      * divides_ind ncols (Z.of_nat c' + Z.of_nat q - Z.of_nat c)
                      + divides_ind nrows (Z.of_nat r + Z.of_nat p - Z.of_nat r')
                        * divides_ind ncols (Z.of_nat c + Z.of_nat q - Z.of_nat c')))))).
  2:{ intros r c _ _. rewrite sum2_swap. apply sum2_ext. intros r' c' _ _.
      rewrite sum2_scale_l. f_equal. now apply kernel_sum. }
  set (first := sum2 nrows ncols (fun r c => sum2 nrows ncols (fun r' c' =>
         at2 0 z r c * at2 0 z r' c'
         * (divides_ind nrows (Z.of_nat r' + Z.of_nat p - Z.of_nat r)
            * divides_ind ncols (Z.of_nat c' + Z.of_nat q - Z.of_nat c))))).
  set (second := sum2 nrows ncols (fun r c => sum2 nrows ncols (fun r' c' =>
         at2 0 z r c * at2 0 z r' c'
         * (divides_ind nrows (Z.of_nat r + Z.of_nat p - Z.of_nat r')
            * divides_ind ncols (Z.of_nat c + Z.of_nat q - Z.of_nat c'))))).
  assert (Hsplit :
    sum2 nrows ncols (fun r c => sum2 nrows ncols (fun r' c' =>
       at2 0 z r c * at2 0 z r' c'
       * (INR nrows * INR ncols / 2
          * (divides_ind nrows (Z.of_nat r' + Z.of_nat p - Z.of_nat r)
             * divides_ind ncols (Z.of_nat c' + Z.of_nat q - Z.of_nat c)
             + divides_ind nrows (Z.of_nat r + Z.of_nat p - Z.of_nat r')
               * divides_ind ncols (Z.of_nat c + Z.of_nat q - Z.of_nat c')))))
    = INR nrows * INR ncols / 2 * (first + second)).
  { unfold first, second. rewrite <- sum2_plus, <- sum2_scale_l.
    apply sum2_ext. intros r c _ _.
    rewrite <- sum2_plus, <- sum2_scale_l. apply sum2_ext. intros r' c' _ _. ring. }
  rewrite Hsplit.
  destruct shape_nrows_ncols as [Hn Hm].
  assert (Hsecond : second = circular_autocorr z p q).
  { unfold second, circular_autocorr. rewrite Hn, Hm.
    apply sum2_ext. intros r c _ _.
    rewrite (sum2_ext nrows ncols _
               (fun r' c' => at2 0 z r c
                  * (at2 0 z r' c'
                     * (divides_ind nrows (Z.of_nat r + Z.of_nat p - Z.of_nat r')
                        * divides_ind ncols (Z.of_nat c + Z.of_nat q - Z.of_nat c')))))
      by (intros; ring).
    rewrite sum2_scale_l. f_equal.
    now apply (pick_lag nrows ncols r c p q (fun r' c' => at2 0 z r' c')). }
  assert (Hfirst : first = circular_autocorr z p q).
  { unfold first, circular_autocorr. rewrite Hn, Hm. rewrite sum2_swap.
    apply sum2_ext. intros r' c' _ _.
    rewrite (sum2_ext nrows ncols _
               (fun r c => at2 0 z r' c'
                  * (at2 0 z r c
                     * (divides_ind nrows (Z.of_nat r' + Z.of_nat p - Z.of_nat r)
                        * divides_ind ncols (Z.of_nat c' + Z.of_nat q - Z.of_nat c)))))
      by (intros; ring).
    rewrite sum2_scale_l. f_equal.
    now apply (pick_lag nrows ncols r' c' p q (fun r c => at2 0 z r c)). }
  rewrite Hfirst, Hsecond. field. split; assumption.
Qed.

End CircularAutocorrelation.

Section LagsAndShifts.

(** a sum over a full cycle does not depend on where the cycle starts *)
Lemma sum_upto_rotate_one (n : nat) (f : nat -> R) :
  sum_upto n (fun r => f ((r + 1) mod n)%nat) = sum_upto n f.
Proof.
  destruct n as [| n]; [reflexivity |].
  rewrite sum_upto_S, (sum_upto_head n f).
  replace ((n + 1) mod S n)%nat with 0%nat
    by (replace (n + 1)%nat with (S n) by lia; now rewrite Nat.Div0.mod_same).
  rewrite Rplus_comm. f_equal. apply sum_upto_ext. intros r Hr.
  rewrite Nat.mod_small by lia. f_equal. lia.
Qed.

Lemma sum_upto_rotate (n p : nat) (f : nat -> R) :
  sum_upto n (fun r => f ((r + p) mod n)%nat) = sum_upto n f.
Proof.
  destruct (Nat.eq_dec n 0%nat) as [-> | Hn]; [reflexivity |].
  induction p as [| p IH].
  - apply sum_upto_ext. intros r Hr. rewrite Nat.add_0_r, Nat.mod_small by lia.
    reflexivity.
  - rewrite <- IH.
    rewrite <- (sum_upto_rotate_one n (fun r => f ((r + p) mod n)%nat)).
    apply sum_upto_ext. intros r _. f_equal.
    rewrite Nat.Div0.add_mod_idemp_l. f_equal. lia.
Qed.

Lemma sum2_rotate (nrows ncols p q : nat) (F : nat -> nat -> R) :
  sum2 nrows ncols (fun r c => F ((r + p) mod nrows)%nat ((c + q) mod ncols)%nat)
  = sum2 nrows ncols F.
Proof.
  unfold sum2.
  rewrite (sum_upto_rotate nrows p (fun r => sum_upto ncols (fun c =>
             F r ((c + q) mod ncols)%nat))).
  apply sum_upto_ext. intros r _. apply (sum_upto_rotate ncols q (F r)).
Qed.

(** the lag opposite to [p] on an axis of [n] cells *)
Lemma opposite_lag (n r p : nat) :
  (r < n)%nat -> (p < n)%nat ->
  (((r + p) mod n + (n - p) mod n) mod n)%nat = r.
Proof.
  intros Hr Hp. rewrite Nat.Div0.add_mod_idemp_l, Nat.Div0.add_mod_idemp_r.
  replace (r + p + (n - p))%nat with (r + 1 * n)%nat by lia.
  rewrite Nat.Div0.mod_add. apply Nat.mod_small. exact Hr.
Qed.

Variables (nrows ncols : nat) (z : grid R).
Hypothesis Hz : is_shape nrows ncols z.
Hypothesis Hrows : (0 < nrows)%nat.
Hypothesis Hcols : (0 < ncols)%nat.

Lemma circular_autocorr_sums (p q : nat) :
  circular_autocorr z p q
  = sum2 nrows ncols
         (fun r c => at2 0 z r c * at2 0 z ((r + p) mod nrows) ((c + q) mod ncols)).
Proof.
  unfold circular_autocorr.
  destruct (shape_nrows_ncols nrows ncols z Hz Hrows) as [-> ->]. reflexivity.
Qed.

Lemma sum_of_squares_sums :
  sum_of_squares z = sum2 nrows ncols (fun r c => at2 0 z r c * at2 0 z r c).
Proof.
  unfold sum_of_squares.
  destruct (shape_nrows_ncols nrows ncols z Hz Hrows) as [-> ->]. reflexivity.
Qed.

(** at lag zero the autocorrelation is the sum of the squares *)
Lemma circular_autocorr_zero : circular_autocorr z 0 0 = sum_of_squares z.
Proof.
  rewrite circular_autocorr_sums, sum_of_squares_sums.
  apply sum2_ext. intros r c Hr Hc.
  now rewrite !Nat.add_0_r, !Nat.mod_small by assumption.
Qed.

(** opposite lags have the same autocorrelation *)
Lemma circular_autocorr_opposite (p q : nat) :
  (p < nrows)%nat -> (q < ncols)%nat ->
  circular_autocorr z ((nrows - p) mod nrows) ((ncols - q) mod ncols)
  = circular_autocorr z p q.
Proof.
  intros Hp Hq. rewrite !circular_autocorr_sums.
  rewrite <- (sum2_rotate nrows ncols p q
                (fun r c => at2 0 z r c
                            * at2 0 z ((r + (nrows - p) mod nrows) mod nrows)
                                      ((c + (ncols - q) mod ncols) mod ncols))).
  apply sum2_ext. intros r c Hr Hc.
  rewrite (opposite_lag nrows r p Hr Hp), (opposite_lag ncols c q Hc Hq). ring.
Qed.

(** no lag has a larger autocorrelation than lag zero *)
Lemma circular_autocorr_bound (p q : nat) :
  Rabs (circular_autocorr z p q) <= sum_of_squares z.
Proof.
  rewrite circular_autocorr_sums, sum_of_squares_sums.
  set (sq := fun r c : nat => at2 0 z r c * at2 0 z r c).
  assert (Hshift : sum2 nrows ncols
                     (fun r c => sq ((r + p) mod nrows)%nat ((c + q) mod ncols)%nat)
                   = sum2 nrows ncols sq) by apply sum2_rotate.
  assert (Hup : sum2 nrows ncols
                  (fun r c => at2 0 z r c
                              * at2 0 z ((r + p) mod nrows) ((c + q) mod ncols))
                <= sum2 nrows ncols
                     (fun r c => / 2 * sq r c
                                 + / 2 * sq ((r + p) mod nrows)%nat
                                            ((c + q) mod ncols)%nat)).
  { apply sum2_le. intros r c _ _. unfold sq.
    pose proof (Rle_0_sqr (at2 0 z r c
                           - at2 0 z ((r + p) mod nrows) ((c + q) mod ncols))) as H.
    unfold Rsqr in H. nra. }
  assert (Hlow : - sum2 nrows ncols
                     (fun r c => / 2 * sq r c
                                 + / 2 * sq ((r + p) mod nrows)%nat
                                            ((c + q) mod ncols)%nat)
                 <= sum2 nrows ncols
                      (fun r c => at2 0 z r c
                                  * at2 0 z ((r + p) mod nrows) ((c + q) mod ncols))).
  { rewrite <- (Rmult_1_l (sum2 _ _ (fun r c => / 2 * sq r c + _))),
            Ropp_mult_distr_l, <- sum2_scale_l.
    apply sum2_le. intros r c _ _. unfold sq.
    pose proof (Rle_0_sqr (at2 0 z r c
                           + at2 0 z ((r + p) mod nrows) ((c + q) mod ncols))) as H.
    unfold Rsqr in H. nra. }
  rewrite sum2_plus, !sum2_scale_l, Hshift in Hup, Hlow.
  apply Rabs_le. fold sq. lra.
Qed.

End LagsAndShifts.

Section ShiftedPositions.

(** [fftshift] of a vector, entry by entry *)
Lemma nth_fftshift1 {X} (d : X) (l : list X) (i : nat) :
  (i < length l)%nat ->
  nth i (fftshift1 l) d = nth ((i + (length l - length l / 2)) mod length l) l d.
Proof.
  intros Hi. unfold fftshift1, roll.
  set (n := length l) in *. set (k := (n / 2)%nat).
  assert (Hk : (k < n)%nat) by (apply Nat.div_lt; lia).
  replace (n - (n - k))%nat with k by lia.
  destruct (Nat.lt_ge_cases i k) as [Hlt | Hge].
  - rewrite app_nth1 by (rewrite length_skipn; fold n; lia).
    rewrite nth_skipn. f_equal. rewrite Nat.mod_small by lia. lia.
  - rewrite app_nth2 by (rewrite length_skipn; fold n; lia).
    rewrite length_skipn. fold n. rewrite nth_firstn.
    destruct (Nat.ltb_spec (i - (n - (n - k))) (n - k)) as [_ | H]; [| lia].
    f_equal.
    replace (i + (n - k))%nat with ((i - k) + 1 * n)%nat by lia.
    rewrite Nat.Div0.mod_add, Nat.mod_small by lia. lia.
Qed.

Lemma length_fftshift1 {X} (l : list X) : length (fftshift1 l) = length l.
Proof.
  unfold fftshift1, roll. rewrite length_app, length_skipn, length_firstn.
  pose proof (Nat.Div0.div_le_upper_bound (length l) 2 (length l)). lia.
Qed.

(** [fftshift] of a grid, entry by entry: entry (i, j) of the shifted grid
    is the entry of the grid at lag (i - nrows/2, j - ncols/2) *)
Lemma at2_fftshift {X} (d : X) (g : grid X) (nrows ncols i j : nat) :
  is_shape nrows ncols g -> (i < nrows)%nat -> (j < ncols)%nat ->
  at2 d (fftshift g) i j
  = at2 d g ((i + (nrows - nrows / 2)) mod nrows) ((j + (ncols - ncols / 2)) mod ncols).
Proof.
  intros Hg Hi Hj. pose proof Hg as [Hrows Hcols]. unfold at2, fftshift.
  rewrite (nth_fftshift1 [] (map fftshift1 g) i) by (rewrite length_map; lia).
  rewrite length_map, Hrows.
  set (i' := ((i + (nrows - nrows / 2)) mod nrows)%nat).
  assert (Hi' : (i' < nrows)%nat) by (apply Nat.mod_upper_bound; lia).
  rewrite (nth_map_in _ g i' [] []) by lia.
  assert (Hlen : length (nth i' g []) = ncols) by now apply (row_length nrows ncols i' g).
  rewrite nth_fftshift1 by lia. now rewrite Hlen.
Qed.

Lemma fftshift_shape {X} (g : grid X) (nrows ncols : nat) :
  is_shape nrows ncols g -> is_shape nrows ncols (fftshift g).
Proof.
  intros [Hrows Hcols]. unfold fftshift. split.
  - now rewrite length_fftshift1, length_map.
  - apply List.Forall_forall. intros row Hrow.
    unfold fftshift1, roll in Hrow. apply in_app_or in Hrow.
    assert (Hin : In row (map fftshift1 g)).
    { destruct Hrow as [H | H].
      - rewrite <- (firstn_skipn (length (map fftshift1 g)
                                  - length (map fftshift1 g) / 2) (map fftshift1 g)).
        apply in_or_app. now right.
      - now apply in_firstn in H. }
    apply in_map_iff in Hin. destruct Hin as (row0 & <- & Hin0).
    rewrite length_fftshift1. rewrite List.Forall_forall in Hcols. now apply Hcols.
Qed.

End ShiftedPositions.

Section AutocorrelationGrid.

Lemma shifted_is_fftshift (z : grid R) :
  shifted_autocorr z = fftshift (unshifted_autocorr z).
Proof. reflexivity. Qed.

Lemma unshifted_autocorr_shape (z : grid R) (nrows ncols : nat) :
  is_shape nrows ncols z -> (0 < nrows)%nat ->
  is_shape nrows ncols (unshifted_autocorr z).
Proof.
  intros Hz Hpos. unfold unshifted_autocorr. cbv zeta.
  apply grid_map_shape, along_both_shape; [| exact Hpos].
  apply grid_map_shape. now apply pspec_shape.
Qed.

Lemma zero_filled_shape (flat : grid pixel) (nrows ncols : nat) :
  is_shape nrows ncols flat -> is_shape nrows ncols (zero_filled flat).
Proof. apply grid_map_shape. Qed.

(** the entries of the shifted autocorrelation, before the division *)
Lemma shifted_autocorr_entry (z : grid R) (nrows ncols i j : nat) :
  is_shape nrows ncols z -> (i < nrows)%nat -> (j < ncols)%nat ->
  at2 0 (shifted_autocorr z) i j
  = circular_autocorr z ((i + (nrows - nrows / 2)) mod nrows)
                        ((j + (ncols - ncols / 2)) mod ncols).
Proof.
  intros Hz Hi Hj. rewrite shifted_is_fftshift.
  rewrite (at2_fftshift 0 _ nrows ncols i j) by
    (try apply unshifted_autocorr_shape; assumption || lia).
  apply (unshifted_autocorr_entry nrows ncols z Hz); try lia;
    apply Nat.mod_upper_bound; lia.
Qed.

Lemma lag_position (n p : nat) :
  (p < n)%nat -> (((p + n / 2) mod n + (n - n / 2)) mod n)%nat = p.
Proof.
  intros Hp.
  assert (Hh : (n / 2 <= n)%nat) by (apply Nat.Div0.div_le_upper_bound; lia).
  rewrite Nat.Div0.add_mod_idemp_l.
  replace (p + n / 2 + (n - n / 2))%nat with (p + 1 * n)%nat by lia.
  rewrite Nat.Div0.mod_add. now apply Nat.mod_small.
Qed.

(** the autocorrelation grid of the cell, entry by entry *)
Lemma fourier_autocorrelation_entries (flat : grid pixel) (nrows ncols : nat) :
  is_shape nrows ncols flat -> (0 < nrows)%nat -> (0 < ncols)%nat ->
  exists ac,
    autocorr_grid_of flat = Some ac
    /\ is_shape nrows ncols ac
    /\ forall i j, (i < nrows)%nat -> (j < ncols)%nat ->
         at2 NaN ac i j
         = fdiv (Fin (circular_autocorr (zero_filled flat)
                        ((i + (nrows - nrows / 2)) mod nrows)
                        ((j + (ncols - ncols / 2)) mod ncols)))
                (Fin (INR (count_nonzero (nan_to_zero flat)))).
Proof.
  intros Hflat Hr Hc. rewrite autocorr_grid_of_eq. eexists.
  split; [reflexivity |].
  pose proof (zero_filled_shape flat nrows ncols Hflat) as Hz.
  split.
  - apply grid_map_shape. rewrite shifted_is_fftshift.
    now apply fftshift_shape, unshifted_autocorr_shape.
  - intros i j Hi Hj. unfold at2, grid_map.
    assert (Hsh : is_shape nrows ncols (shifted_autocorr (zero_filled flat))).
    { rewrite shifted_is_fftshift. now apply fftshift_shape, unshifted_autocorr_shape. }
    pose proof Hsh as [Hrows _].
    rewrite (nth_map_in _ _ i [] []) by (rewrite Hrows; exact Hi).
    rewrite (nth_map_in _ _ j 0 NaN)
      by (rewrite (row_length nrows ncols i _ Hsh Hi); exact Hj).
    rewrite at2_row, (shifted_autocorr_entry _ nrows ncols i j Hz Hi Hj).
    reflexivity.
Qed.

(** X21 (cell 5): the Fourier route of the cell computes the circular
    autocorrelation of the spatial domain.  On a field of [nrows] by
    [ncols] pixels, entry (i, j) of [autocorr_grid] is the sum, over all
    pixels, of the zero-filled pixel times the zero-filled pixel
    [i - nrows/2] rows down and [j - ncols/2] columns to the right, the
    field being wrapped around at its edges (it is not padded), divided by
    the count of the non-zero pixels.  Put the other way round: the
    autocorrelation at a lag of [p] rows and [q] columns is the entry at
    row [(p + nrows/2) mod nrows], column [(q + ncols/2) mod ncols]. *)
Theorem fourier_autocorrelation_is_circular (flat : grid pixel) (nrows ncols : nat) :
  is_shape nrows ncols flat -> (0 < nrows)%nat -> (0 < ncols)%nat ->
  exists ac,
    autocorr_grid_of flat = Some ac
    /\ is_shape nrows ncols ac
    /\ (forall i j, (i < nrows)%nat -> (j < ncols)%nat ->
          at2 NaN ac i j
          = fdiv (Fin (circular_autocorr (zero_filled flat)
                         ((i + (nrows - nrows / 2)) mod nrows)
                         ((j + (ncols - ncols / 2)) mod ncols)))
                 (Fin (INR (count_nonzero (nan_to_zero flat)))))
    /\ (forall p q, (p < nrows)%nat -> (q < ncols)%nat ->
          at2 NaN ac ((p + nrows / 2) mod nrows) ((q + ncols / 2) mod ncols)
          = fdiv (Fin (circular_autocorr (zero_filled flat) p q))
                 (Fin (INR (count_nonzero (nan_to_zero flat))))).
Proof.
  intros Hflat Hr Hc.
  destruct (fourier_autocorrelation_entries flat nrows ncols Hflat Hr Hc)
    as (ac & Hac & Hsh & Hent).
  exists ac. split; [exact Hac |]. split; [exact Hsh |]. split; [exact Hent |].
  intros p q Hp Hq.
  rewrite Hent by (apply Nat.mod_upper_bound; lia).
  now rewrite !lag_position by assumption.
Qed.

Lemma fourier_autocorrelation_is_circular_witness :
  exists ac,
    autocorr_grid_of field_2x2 = Some ac
    /\ is_shape 2 2 ac
    /\ (forall i j, (i < 2)%nat -> (j < 2)%nat ->
          at2 NaN ac i j
          = fdiv (Fin (circular_autocorr (zero_filled field_2x2)
                         ((i + (2 - 2 / 2)) mod 2) ((j + (2 - 2 / 2)) mod 2)))
                 (Fin (INR (count_nonzero (nan_to_zero field_2x2)))))
    /\ (forall p q, (p < 2)%nat -> (q < 2)%nat ->
          at2 NaN ac ((p + 2 / 2) mod 2) ((q + 2 / 2) mod 2)
          = fdiv (Fin (circular_autocorr (zero_filled field_2x2) p q))
                 (Fin (INR (count_nonzero (nan_to_zero field_2x2))))).
Proof.
  apply (fourier_autocorrelation_is_circular field_2x2 2 2);
    [split; [reflexivity | repeat constructor] | lia | lia].
Defined.

(** X22 (cell 5): the zero-lag entry and its size.  When the field has a
    non-zero pixel, the entry of [autocorr_grid] at row [nrows/2], column
    [ncols/2] is the sum of the squares of the valid pixels divided by the
    count of the non-zero pixels (their mean square), every entry of the
    grid is a finite number, and none is larger in size than that entry. *)
Theorem zero_lag_is_mean_square (flat : grid pixel) (nrows ncols : nat) :
  is_shape nrows ncols flat -> (0 < nrows)%nat -> (0 < ncols)%nat ->
  (0 < count_nonzero (nan_to_zero flat))%nat ->
  exists ac,
    autocorr_grid_of flat = Some ac
    /\ at2 NaN ac (nrows / 2) (ncols / 2)
       = Fin (sum_of_squares (zero_filled flat)
              / INR (count_nonzero (nan_to_zero flat)))
    /\ forall i j, (i < nrows)%nat -> (j < ncols)%nat ->
         exists v, at2 NaN ac i j = Fin v
                   /\ Rabs v <= sum_of_squares (zero_filled flat)
                                / INR (count_nonzero (nan_to_zero flat)).
Proof.
  intros Hflat Hr Hc Hcount.
  destruct (fourier_autocorrelation_entries flat nrows ncols Hflat Hr Hc)
    as (ac & Hac & _ & Hent).
  pose proof (zero_filled_shape flat nrows ncols Hflat) as Hz.
  assert (Hn : 0 < INR (count_nonzero (nan_to_zero flat))) by (apply lt_0_INR; lia).
  exists ac. split; [exact Hac |]. split.
  - rewrite Hent by (apply Nat.div_lt; lia).
    assert (Hlag : forall n, (0 < n)%nat -> ((n / 2 + (n - n / 2)) mod n = 0)%nat).
    { intros n Hpos.
      assert (n / 2 <= n)%nat by (apply Nat.Div0.div_le_upper_bound; lia).
      replace (n / 2 + (n - n / 2))%nat with n by lia. apply Nat.Div0.mod_same. }
    rewrite !Hlag by assumption.
    rewrite (circular_autocorr_zero nrows ncols _ Hz Hr).
    now apply fdiv_pos.
  - intros i j Hi Hj. rewrite Hent by assumption.
    rewrite fdiv_pos by exact Hn. eexists. split; [reflexivity |].
    unfold Rdiv. rewrite Rabs_mult, (Rabs_right (/ _)).
    + apply Rmult_le_compat_r; [left; now apply Rinv_0_lt_compat |].
      now apply (circular_autocorr_bound nrows ncols _ Hz Hr).
    + left. now apply Rinv_0_lt_compat.
Qed.

Lemma field_2x2_count : count_nonzero (nan_to_zero field_2x2) = 4%nat.
Proof.
  unfold count_nonzero, nan_to_zero, field_2x2, grid_map, ravel.
  cbn [map concat app isnan_px List.filter is_zero_px].
  repeat (rewrite (proj2 (Reqb_false _ 0)) by lra; cbn [negb]).
  reflexivity.
Qed.

Lemma zero_lag_is_mean_square_witness :
  exists ac,
    autocorr_grid_of field_2x2 = Some ac
    /\ at2 NaN ac (2 / 2) (2 / 2)
       = Fin (sum_of_squares (zero_filled field_2x2)
              / INR (count_nonzero (nan_to_zero field_2x2)))
    /\ forall i j, (i < 2)%nat -> (j < 2)%nat ->
         exists v, at2 NaN ac i j = Fin v
                   /\ Rabs v <= sum_of_squares (zero_filled field_2x2)
                                / INR (count_nonzero (nan_to_zero field_2x2)).
Proof.
  apply (zero_lag_is_mean_square field_2x2 2 2);
    [split; [reflexivity | repeat constructor] | lia | lia
     | rewrite field_2x2_count; lia].
Defined.

(** X23 (cell 5): [autocorr_grid] is point-symmetric about its zero-lag
    entry at row [nrows/2], column [ncols/2]: the entry [p] rows and [q]
    columns after it equals the entry [p] rows and [q] columns before it
    (positions taken modulo the size of the grid).  This is the symmetry
    for which the cell keeps the first half of the grid only. *)
Theorem autocorr_grid_point_symmetric (flat : grid pixel) (nrows ncols : nat) :
  is_shape nrows ncols flat -> (0 < nrows)%nat -> (0 < ncols)%nat ->
  exists ac,
    autocorr_grid_of flat = Some ac
    /\ forall p q, (p < nrows)%nat -> (q < ncols)%nat ->
         at2 NaN ac ((p + nrows / 2) mod nrows) ((q + ncols / 2) mod ncols)
         = at2 NaN ac (((nrows - p) mod nrows + nrows / 2) mod nrows)
                      (((ncols - q) mod ncols + ncols / 2) mod ncols).
Proof.
  intros Hflat Hr Hc.
  destruct (fourier_autocorrelation_entries flat nrows ncols Hflat Hr Hc)
    as (ac & Hac & _ & Hent).
  pose proof (zero_filled_shape flat nrows ncols Hflat) as Hz.
  exists ac. split; [exact Hac |]. intros p q Hp Hq.
  assert (Hp' : ((nrows - p) mod nrows < nrows)%nat) by (apply Nat.mod_upper_bound; lia).
  assert (Hq' : ((ncols - q) mod ncols < ncols)%nat) by (apply Nat.mod_upper_bound; lia).
  rewrite !Hent by (apply Nat.mod_upper_bound; lia).
  rewrite !lag_position by assumption.
  now rewrite (circular_autocorr_opposite nrows ncols _ Hz Hr p q Hp Hq).
Qed.

Lemma autocorr_grid_point_symmetric_witness :
  exists ac,
    autocorr_grid_of field_2x2 = Some ac
    /\ forall p q, (p < 2)%nat -> (q < 2)%nat ->
         at2 NaN ac ((p + 2 / 2) mod 2) ((q + 2 / 2) mod 2)
         = at2 NaN ac (((2 - p) mod 2 + 2 / 2) mod 2) (((2 - q) mod 2 + 2 / 2) mod 2).
Proof.
  apply (autocorr_grid_point_symmetric field_2x2 2 2);
    [split; [reflexivity | repeat constructor] | lia | lia].
Defined.

Lemma zero_lag_in_range (nrows ncols : nat) :
  (1 <= nrows)%nat -> (2 <= ncols)%nat ->
  (zero_lag_pos nrows ncols
   < Nat.min (nrows + (nrows * ncols + 1) / 2) (nrows * ncols))%nat
  <-> (nrows mod 2 = 1)%nat \/ (ncols / 2 < nrows)%nat.
Proof.
  intros Hr Hc. unfold zero_lag_pos.
  pose proof (Nat.div_mod_eq nrows 2) as Hm.
  pose proof (Nat.mod_upper_bound nrows 2 ltac:(lia)) as Hm2.
  pose proof (Nat.div_mod_eq ncols 2) as Hn.
  pose proof (Nat.mod_upper_bound ncols 2 ltac:(lia)) as Hn2.
  pose proof (Nat.div_mod_eq (nrows * ncols + 1) 2) as Hd.
  pose proof (Nat.mod_upper_bound (nrows * ncols + 1) 2 ltac:(lia)) as Hd2.
  set (m := (nrows / 2)%nat) in *. set (n := (ncols / 2)%nat) in *.
  set (e := (nrows mod 2)%nat) in *. set (f := (ncols mod 2)%nat) in *.
  set (d := ((nrows * ncols + 1) / 2)%nat) in *.
  set (rho := ((nrows * ncols + 1) mod 2)%nat) in *.
  assert (Hprod : (nrows * ncols = 4 * (m * n) + 2 * (m * f) + 2 * (e * n) + e * f)%nat) by nia.
  split.
  - intros H. destruct (Nat.eq_dec e 1%nat) as [E | E]; [now left | right].
    assert (E0 : e = 0%nat) by lia.
    assert (H1 : (m * ncols + n < nrows + d)%nat) by lia.
    clearbody m n e f d rho. subst e. nia.
  - clearbody m n e f d rho.
    intros [E | H]; apply Nat.min_glb_lt.
    + subst e. destruct (Nat.eq_dec f 0%nat) as [F | F]; [subst f | assert (f = 1%nat) by lia; subst f]; nia.
    + subst e. destruct (Nat.eq_dec f 0%nat) as [F | F]; [subst f | assert (f = 1%nat) by lia; subst f]; nia.
    + destruct (Nat.eq_dec e 0%nat) as [E | E]; [subst e | assert (e = 1%nat) by lia; subst e];
      (destruct (Nat.eq_dec f 0%nat) as [F | F]; [subst f | assert (f = 1%nat) by lia; subst f]); nia.
    + destruct (Nat.eq_dec e 0%nat) as [E | E]; [subst e | assert (e = 1%nat) by lia; subst e];
      (destruct (Nat.eq_dec f 0%nat) as [F | F]; [subst f | assert (f = 1%nat) by lia; subst f]); nia.
Qed.

Lemma in_ravel_at2 {X} (d : X) (g : grid X) (nrows ncols : nat) (x : X) :
  is_shape nrows ncols g -> In x (ravel g) ->
  exists i j, (i < nrows)%nat /\ (j < ncols)%nat /\ x = at2 d g i j.
Proof.
  intros Hg Hin. pose proof Hg as [Hrows _].
  unfold ravel in Hin. apply in_concat in Hin. destruct Hin as (row & Hrow & Hx).
  destruct (In_nth g row [] Hrow) as (i & Hi & Hnth).
  destruct (In_nth row x d Hx) as (j & Hj & Hnthj).
  exists i, j. rewrite Hrows in Hi. split; [exact Hi |]. split.
  - rewrite <- (row_length nrows ncols i g Hg Hi), Hnth. exact Hj.
  - unfold at2. now rewrite Hnth, Hnthj.
Qed.

(** X24 (cell 5): where the zero-lag entry lies in the flattened grid, and
    when the truncation keeps it.  In [np.ravel(autocorr_grid)] the
    zero-lag entry is at position [(nrows/2)*ncols + ncols/2]; the distance
    and autocorrelation vectors are cut at the same length; and on a grid
    of two columns or more the cut keeps the zero-lag entry exactly when
    the number of rows is odd or larger than half the number of columns.
    On a crop with an even number of rows that is at least twice as wide
    as it is tall, [acg] does not reach the zero-lag entry. *)
Theorem zero_lag_and_truncation (flat : grid pixel) (nrows ncols : nat) (pixsize : R) :
  is_shape nrows ncols flat -> (1 <= nrows)%nat -> (2 <= ncols)%nat ->
  exists ac,
    autocorr_grid_of flat = Some ac
    /\ nth (zero_lag_pos nrows ncols) (ravel ac) NaN
       = at2 NaN ac (nrows / 2) (ncols / 2)
    /\ length (rd_of nrows ncols pixsize) = length (acg_of nrows ncols pixsize ac)
    /\ ((zero_lag_pos nrows ncols < length (acg_of nrows ncols pixsize ac))%nat
        <-> (nrows mod 2 = 1)%nat \/ (ncols / 2 < nrows)%nat).
Proof.
  intros Hflat Hr Hc.
  destruct (fourier_autocorrelation_entries flat nrows ncols Hflat) as (ac & Hac & Hsh & _);
    [lia | lia |].
  exists ac. split; [exact Hac |]. split; [| split].
  - unfold zero_lag_pos.
    apply (nth_ravel NaN ac nrows ncols _ _ Hsh); apply Nat.div_lt; lia.
  - now apply length_rd_acg.
  - rewrite (length_acg_of nrows ncols pixsize ac Hsh).
    now apply zero_lag_in_range.
Qed.

Lemma zero_lag_and_truncation_witness :
  exists ac,
    autocorr_grid_of field_2x2 = Some ac
    /\ nth (zero_lag_pos 2 2) (ravel ac) NaN = at2 NaN ac (2 / 2) (2 / 2)
    /\ length (rd_of 2 2 30) = length (acg_of 2 2 30 ac)
    /\ ((zero_lag_pos 2 2 < length (acg_of 2 2 30 ac))%nat
        <-> (2 mod 2 = 1)%nat \/ (2 / 2 < 2)%nat).
Proof.
  apply (zero_lag_and_truncation field_2x2 2 2 30);
    [split; [reflexivity | repeat constructor] | lia | lia].
Defined.

(** [np.max] of a vector of finite numbers that holds its upper bound *)
Lemma np_max_attained (l : list fval) (m : R) :
  In (Fin m) l ->
  (forall x, In x l -> exists v, x = Fin v /\ v <= m) ->
  np_max l = inr (Fin m).
Proof.
  intros Hin Hall.
  set (unfin := fun x : fval => match x with Fin v => v | _ => 0 end).
  assert (Hl : l = map Fin (map unfin l)).
  { rewrite map_map. rewrite <- (map_id l) at 1. apply map_ext_in.
    intros x Hx. destruct (Hall x Hx) as (v & -> & _). reflexivity. }
  assert (Hm : In m (map unfin l)).
  { apply in_map_iff. exists (Fin m). now split. }
  assert (Hle : forall v, In v (map unfin l) -> v <= m).
  { intros v Hv. apply in_map_iff in Hv. destruct Hv as (x & <- & Hx).
    destruct (Hall x Hx) as (w & -> & Hw). exact Hw. }
  rewrite Hl. destruct (map unfin l) as [| x xs]; [contradiction |].
  rewrite np_max_Fin. do 2 f_equal.
  apply Rle_antisym.
  - apply Hle, fold_left_Rmax_in.
  - now apply fold_left_Rmax_all.
Qed.

(** X25 (cells 5 and 6): the maximum autocorrelation that cell 6 prints.
    When the field has a non-zero pixel and the truncation keeps the
    zero-lag entry (an odd number of rows, or more rows than half the
    number of columns), [maxacg = np.max(acg)] is the zero-lag entry: the
    sum of the squares of the valid pixels divided by the count of the
    non-zero pixels. *)
Theorem maxacg_is_mean_square (flat : grid pixel) (nrows ncols : nat) (pixsize : R) :
  is_shape nrows ncols flat -> (1 <= nrows)%nat -> (2 <= ncols)%nat ->
  (0 < count_nonzero (nan_to_zero flat))%nat ->
  (nrows mod 2 = 1)%nat \/ (ncols / 2 < nrows)%nat ->
  exists ac,
    autocorr_grid_of flat = Some ac
    /\ np_max (acg_of nrows ncols pixsize ac)
       = inr (Fin (sum_of_squares (zero_filled flat)
                   / INR (count_nonzero (nan_to_zero flat)))).
Proof.
  intros Hflat Hr Hc Hcount Hkeep.
  assert (Hr0 : (0 < nrows)%nat) by lia. assert (Hc0 : (0 < ncols)%nat) by lia.
  destruct (fourier_autocorrelation_entries flat nrows ncols Hflat Hr0 Hc0)
    as (ac & Hac & Hsh & Hent).
  pose proof (zero_filled_shape flat nrows ncols Hflat) as Hz.
  assert (Hn : 0 < INR (count_nonzero (nan_to_zero flat))) by (apply lt_0_INR; lia).
  set (m := sum_of_squares (zero_filled flat) / INR (count_nonzero (nan_to_zero flat))).
  assert (Hzero : at2 NaN ac (nrows / 2) (ncols / 2) = Fin m).
  { rewrite Hent by (apply Nat.div_lt; lia).
    assert (Hlag : forall n, (0 < n)%nat -> ((n / 2 + (n - n / 2)) mod n = 0)%nat).
    { intros n Hpos.
      assert (n / 2 <= n)%nat by (apply Nat.Div0.div_le_upper_bound; lia).
      replace (n / 2 + (n - n / 2))%nat with n by lia. apply Nat.Div0.mod_same. }
    rewrite !Hlag by assumption.
    rewrite (circular_autocorr_zero nrows ncols _ Hz Hr0).
    now apply fdiv_pos. }
  exists ac. split; [exact Hac |].
  apply np_max_attained.
  - assert (Hpos : (zero_lag_pos nrows ncols < length (acg_of nrows ncols pixsize ac))%nat).
    { rewrite (length_acg_of nrows ncols pixsize ac Hsh).
      now apply zero_lag_in_range. }
    rewrite <- Hzero.
    rewrite <- (nth_ravel NaN ac nrows ncols _ _ Hsh) by (apply Nat.div_lt; lia).
    fold (zero_lag_pos nrows ncols).
    replace (nth (zero_lag_pos nrows ncols) (ravel ac) NaN)
      with (nth (zero_lag_pos nrows ncols) (acg_of nrows ncols pixsize ac) NaN).
    + now apply nth_In.
    + unfold acg_of in *. rewrite nth_firstn.
      rewrite length_firstn in Hpos.
      destruct (Nat.ltb_spec (zero_lag_pos nrows ncols)
                  (rdlen nrows (length (rd_full nrows ncols pixsize)))); [reflexivity | lia].
  - intros x Hx. unfold acg_of in Hx. apply in_firstn in Hx.
    destruct (in_ravel_at2 NaN ac nrows ncols x Hsh Hx) as (i & j & Hi & Hj & ->).
    rewrite Hent by assumption. rewrite fdiv_pos by exact Hn.
    eexists. split; [reflexivity |].
    unfold m, Rdiv. apply Rmult_le_compat_r; [left; now apply Rinv_0_lt_compat |].
    eapply Rle_trans; [apply Rle_abs |].
    now apply (circular_autocorr_bound nrows ncols _ Hz Hr0).
Qed.

Lemma maxacg_is_mean_square_witness :
  exists ac,
    autocorr_grid_of field_2x2 = Some ac
    /\ np_max (acg_of 2 2 30 ac)
       = inr (Fin (sum_of_squares (zero_filled field_2x2)
                   / INR (count_nonzero (nan_to_zero field_2x2)))).
Proof.
  apply (maxacg_is_mean_square field_2x2 2 2 30);
    [split; [reflexivity | repeat constructor] | lia | lia
     | rewrite field_2x2_count; lia | right; simpl; lia].
Defined.

End AutocorrelationGrid.

(** ** Cell 5: the centre of the distances and the zero-lag entry *)

Section DistanceCentre.

Lemma at2_radial_dist (nrows ncols r c : nat) (pixsize : R) :
  (r < nrows)%nat -> (c < ncols)%nat ->
  at2 0 (radial_dist nrows ncols pixsize) r c
  = sqrt ((INR c - xcent ncols) ^ 2 + (INR r - ycent nrows) ^ 2) * pixsize.
Proof.
  intros Hr Hc. unfold at2. rewrite radial_dist_cells.
  rewrite (nth_map_seq _ nrows r [] Hr). now rewrite (nth_map_seq _ ncols c 0 Hc).
Qed.

Lemma half_plus_one_lt (n : nat) : (3 <= n)%nat -> (n / 2 + 1 < n)%nat.
Proof.
  intros H. pose proof (Nat.div_mod_eq n 2) as Hd.
  pose proof (Nat.mod_upper_bound n 2 ltac:(lia)). lia.
Qed.

Lemma lag_after_centre (n : nat) :
  (3 <= n)%nat -> ((n / 2 + 1 + (n - n / 2)) mod n = 1)%nat.
Proof.
  intros H.
  assert (n / 2 <= n)%nat by (apply Nat.Div0.div_le_upper_bound; lia).
  replace (n / 2 + 1 + (n - n / 2))%nat with (1 + 1 * n)%nat by lia.
  rewrite Nat.Div0.mod_add. apply Nat.mod_small. lia.
Qed.

(** X26 (cell 5): the centre of the distance grid is one pixel off the
    zero-lag entry.  On a grid of three rows and columns or more, the cell
    whose stored distance is 0 is the cell at row [nrows/2 + 1], column
    [ncols/2 + 1] and no other; what [autocorr_grid] holds there is the
    autocorrelation at a lag of one row and one column; the zero-lag entry
    at row [nrows/2], column [ncols/2] is stored with the distance
    [sqrt(2) * pixsize]. *)
Theorem distance_centre_is_lag_one (flat : grid pixel) (nrows ncols : nat)
  (pixsize : R) :
  is_shape nrows ncols flat -> (3 <= nrows)%nat -> (3 <= ncols)%nat -> 0 < pixsize ->
  exists ac,
    autocorr_grid_of flat = Some ac
    /\ at2 0 (radial_dist nrows ncols pixsize) (nrows / 2) (ncols / 2)
       = sqrt 2 * pixsize
    /\ at2 0 (radial_dist nrows ncols pixsize) (nrows / 2 + 1) (ncols / 2 + 1) = 0
    /\ at2 NaN ac (nrows / 2 + 1) (ncols / 2 + 1)
       = fdiv (Fin (circular_autocorr (zero_filled flat) 1 1))
              (Fin (INR (count_nonzero (nan_to_zero flat))))
    /\ forall r c, (r < nrows)%nat -> (c < ncols)%nat ->
         at2 0 (radial_dist nrows ncols pixsize) r c = 0 ->
         r = (nrows / 2 + 1)%nat /\ c = (ncols / 2 + 1)%nat.
Proof.
  intros Hflat Hr Hc Hp.
  destruct (fourier_autocorrelation_entries flat nrows ncols Hflat) as (ac & Hac & _ & Hent);
    [lia | lia |].
  pose proof (half_plus_one_lt nrows Hr) as Hr1.
  pose proof (half_plus_one_lt ncols Hc) as Hc1.
  exists ac. split; [exact Hac |]. split; [| split; [| split]].
  - rewrite at2_radial_dist by lia. rewrite xcent_nat, ycent_nat.
    f_equal. f_equal. ring.
  - rewrite at2_radial_dist by assumption. rewrite xcent_nat, ycent_nat, !plus_INR.
    match goal with
    | |- sqrt ?e * _ = _ => replace e with 0 by (simpl; ring)
    end.
    rewrite sqrt_0. ring.
  - rewrite Hent by assumption. now rewrite !lag_after_centre by assumption.
  - intros r c Hrr Hcc Hd. rewrite at2_radial_dist in Hd by assumption.
    rewrite xcent_nat, ycent_nat in Hd.
    apply Rmult_integral in Hd. destruct Hd as [Hd | Hd]; [| lra].
    set (x := INR c - (INR (ncols / 2) + 1)) in *.
    set (y := INR r - (INR (nrows / 2) + 1)) in *.
    assert (Hsum : x ^ 2 + y ^ 2 = 0).
    { apply sqrt_eq_0; [| exact Hd]. pose proof (pow2_ge_0 x). pose proof (pow2_ge_0 y). lra. }
    assert (Hx : x = 0) by (pose proof (pow2_ge_0 x); pose proof (pow2_ge_0 y); nra).
    assert (Hy : y = 0) by (pose proof (pow2_ge_0 x); pose proof (pow2_ge_0 y); nra).
    unfold x in Hx. unfold y in Hy.
    split; apply INR_eq; rewrite plus_INR; change (INR 1) with 1; lra.
Qed.

Lemma distance_centre_is_lag_one_witness :
  exists ac,
    autocorr_grid_of (constant_field 3 3 (Some 1)) = Some ac
    /\ at2 0 (radial_dist 3 3 30) (3 / 2) (3 / 2) = sqrt 2 * 30
    /\ at2 0 (radial_dist 3 3 30) (3 / 2 + 1) (3 / 2 + 1) = 0
    /\ at2 NaN ac (3 / 2 + 1) (3 / 2 + 1)
       = fdiv (Fin (circular_autocorr (zero_filled (constant_field 3 3 (Some 1))) 1 1))
              (Fin (INR (count_nonzero (nan_to_zero (constant_field 3 3 (Some 1))))))
    /\ forall r c, (r < 3)%nat -> (c < 3)%nat ->
         at2 0 (radial_dist 3 3 30) r c = 0 ->
         r = (3 / 2 + 1)%nat /\ c = (3 / 2 + 1)%nat.
Proof.
  apply (distance_centre_is_lag_one (constant_field 3 3 (Some 1)) 3 3 30);
    [split; [reflexivity | repeat constructor] | lia | lia | lra].
Defined.

End DistanceCentre.

(** ** The perturbed data sets *)

Section PerturbedData.

Lemma at2_matmul_rect (N n m : nat) (A B : grid R) (i j : nat) :
  is_shape N n A -> is_shape n m B -> (0 < n)%nat -> (i < N)%nat -> (j < m)%nat ->
  at2 0 (matmul A B) i j = sum_upto n (fun k => at2 0 A i k * at2 0 B k j).
Proof.
  intros HA HB Hn Hi Hj. unfold matmul.
  rewrite (ncols_of_shape n m B HB Hn).
  rewrite at2_matmul_cols;
    [| destruct HA as [-> _]; exact Hi
     | unfold transpose; now rewrite length_map, length_seq ].
  unfold transpose. rewrite (nth_map_seq _ m j []) by exact Hj.
  rewrite (dot_sum n).
  - apply sum_upto_ext. intros k Hk. f_equal.
    apply nth_column. destruct HB as [-> _]. exact Hk.
  - now apply (row_length N n i A).
  - unfold column. rewrite length_map. now destruct HB.
Qed.

Lemma matmul_rect_shape (N n m : nat) (A B : grid R) :
  is_shape N n A -> is_shape n m B -> (0 < n)%nat -> is_shape N m (matmul A B).
Proof.
  intros HA HB Hn. unfold matmul, matmul_cols.
  rewrite (ncols_of_shape n m B HB Hn). split.
  - rewrite length_map. now destruct HA.
  - apply List.Forall_forall. intros row Hrow. apply in_map_iff in Hrow.
    destruct Hrow as [r [<- _]]. unfold transpose.
    now rewrite !length_map, length_seq.
Qed.

(** the noise added to point [j] in data set [i] *)
Lemma at2_noise (N n : nat) (Z V : grid R) (i j : nat) :
  is_shape N n Z -> is_shape n n V -> (i < N)%nat -> (j < n)%nat ->
  at2 0 (noise Z V) j i = sum_upto n (fun k => at2 0 Z i k * at2 0 V k j).
Proof.
  intros HZ HV Hi Hj. assert (Hn : (0 < n)%nat) by lia.
  pose proof (matmul_rect_shape N n n Z V HZ HV Hn) as HX.
  unfold noise. cbv zeta.
  rewrite (ncols_of_shape N n _ HX) by lia.
  unfold at2, transpose. rewrite (nth_map_seq _ n j [] Hj).
  rewrite nth_column by (destruct HX as [-> _]; exact Hi).
  now apply (at2_matmul_rect N n n).
Qed.

Lemma at2_pha_pets (N n : nat) (Z V : grid R) (pha : list R) (i j : nat) :
  is_shape N n Z -> is_shape n n V -> length pha = n ->
  (i < N)%nat -> (j < n)%nat ->
  at2 0 (pha_pets Z V pha) j i
  = nth j pha 0 + sum_upto n (fun k => at2 0 Z i k * at2 0 V k j).
Proof.
  intros HZ HV Hpha Hi Hj. assert (Hn : (0 < n)%nat) by lia.
  rewrite <- (at2_noise N n Z V i j HZ HV Hi Hj).
  pose proof (matmul_rect_shape N n n Z V HZ HV Hn) as HX.
  unfold pha_pets, at2, grid_map2.
  assert (HNr : nrows_of Z = N) by now destruct HZ.
  rewrite HNr.
  assert (Hnoise : length (noise Z V) = n).
  { unfold noise. cbv zeta. rewrite (ncols_of_shape N n _ HX) by lia.
    unfold transpose. now rewrite length_map, length_seq. }
  assert (Hrow : length (nth j (noise Z V) []) = N).
  { unfold noise. cbv zeta. rewrite (ncols_of_shape N n _ HX) by lia.
    unfold transpose. rewrite (nth_map_seq _ n j [] Hj).
    unfold column. rewrite length_map. now destruct HX. }
  rewrite (nth_map_in _ _ j ([], []) [])
    by (rewrite length_combine; unfold manypha; rewrite length_map; lia).
  rewrite combine_nth by (unfold manypha; rewrite length_map; lia).
  cbn [fst snd].
  unfold manypha at 1. rewrite (nth_map_in _ pha j 0 []) by lia.
  rewrite (nth_map_in _ _ i (0, 0) 0)
    by (rewrite length_combine, length_map, length_seq; lia).
  rewrite combine_nth by (rewrite length_map, length_seq; lia).
  cbn [fst snd]. f_equal.
  now rewrite (nth_map_seq _ N i 0 Hi).
Qed.

Lemma sum_upto_last_only (n : nat) (f : nat -> R) :
  (forall k, (k < n)%nat -> f k = 0) -> sum_upto (S n) f = f n.
Proof.
  intros H. rewrite sum_upto_S.
  rewrite (sum_upto_ext n f (fun _ => 0)) by exact H.
  rewrite sum_upto_zero. ring.
Qed.

(** X27 (notebook "Make perturbed data sets"): the noise that is added to
    the phases.  Data set [i] gets at point [j] the phase [pha[j]] plus the
    sum over [k] of [Z[i][k] * V[k][j]].  With the lower-triangular factor
    that [np.linalg.cholesky] returns ([V @ V.T = vcm]; the comment of the
    notebook takes [V] for the upper factor with [V'V = vcm]), the noise of
    the last point is the single draw [Z[i][n-1]] times [V[n-1][n-1]], and
    the square of that factor is the variance [maxvar] less the squares of
    the other entries of the last row of [V]. *)
Theorem perturbation_of_last_point (maxvar alpha beta : R) (data : list (R * R))
  (pha : list R) (Z V : grid R) (N n : nat) :
  length data = S n -> length pha = S n -> is_shape N (S n) Z ->
  is_cholesky (S n) (covariance maxvar alpha beta (xs_of data) (ys_of data)) V ->
  (forall i j, (i < N)%nat -> (j < S n)%nat ->
     at2 0 (pha_pets Z V pha) j i
     = nth j pha 0 + sum_upto (S n) (fun k => at2 0 Z i k * at2 0 V k j))
  /\ (forall i, (i < N)%nat ->
        at2 0 (pha_pets Z V pha) n i = nth n pha 0 + at2 0 Z i n * at2 0 V n n)
  /\ at2 0 V n n * at2 0 V n n
     = maxvar - sum_upto n (fun k => at2 0 V n k * at2 0 V n k).
Proof.
  intros Hdata Hpha HZ Hchol.
  pose proof (chol_shape _ _ _ Hchol) as HV.
  split; [| split].
  - intros i j Hi Hj. now apply (at2_pha_pets N (S n)).
  - intros i Hi. rewrite (at2_pha_pets N (S n)) by (assumption || lia).
    f_equal. apply (sum_upto_last_only n (fun k => at2 0 Z i k * at2 0 V k n)).
    intros k Hk. rewrite (chol_lower _ _ _ Hchol k n) by lia. ring.
  - pose proof (chol_product _ _ _ Hchol n n ltac:(lia) ltac:(lia)) as Hp.
    rewrite covariance_entry in Hp by (rewrite Hdata; lia).
    rewrite distance_m_self in Hp. unfold expcos in Hp.
    replace (- alpha * 0) with 0 in Hp by ring.
    replace (beta * 0) with 0 in Hp by ring.
    rewrite exp_0, cos_0, sum_upto_S in Hp. lra.
Qed.

Lemma two_points_distance :
  distance_m (nth 0 two_points (0, 0)) (nth 1 two_points (0, 0)) = 5000.
Proof.
  unfold distance_m, two_points. cbn [nth fst snd].
  replace ((4 * 1000 - 0 * 1000) ^ 2) with (4000 * 4000) by ring.
  replace ((3 * 1000 - 0 * 1000) ^ 2 + 4000 * 4000) with (5000 * 5000) by ring.
  apply sqrt_square. lra.
Qed.

Lemma two_points_covariance (i j : nat) :
  (i < 2)%nat -> (j < 2)%nat ->
  at2 0 (covariance 1 (1 / 1000) 0 (xs_of two_points) (ys_of two_points)) i j
  = if Nat.eqb i j then 1 else exp (- 5).
Proof.
  intros Hi Hj. rewrite covariance_entry by (simpl; lia). unfold expcos.
  rewrite Rmult_0_l, cos_0.
  destruct i as [| [| i]], j as [| [| j]]; try lia; cbn [Nat.eqb].
  - rewrite distance_m_self. rewrite Rmult_0_r, exp_0. ring.
  - rewrite two_points_distance. replace (- (1 / 1000) * 5000) with (- 5) by field.
    ring.
  - rewrite distance_m_sym, two_points_distance.
    replace (- (1 / 1000) * 5000) with (- 5) by field. ring.
  - rewrite distance_m_self. rewrite Rmult_0_r, exp_0. ring.
Qed.

(** the factor of the covariance matrix of the two points *)
Lemma two_points_cholesky :
  is_cholesky 2 (covariance 1 (1 / 1000) 0 (xs_of two_points) (ys_of two_points))
              two_points_chol.
Proof.
  assert (Hc : 0 <= 1 - exp (- 5) * exp (- 5)).
  { pose proof (exp_pos (- 5)) as Hp.
    assert (Hle : exp (- 5) <= 1) by (apply exp_le_one; lra). nra. }
  split.
  - split; [reflexivity | repeat constructor].
  - intros i j Hij Hj. assert (i = 0%nat) by lia. assert (j = 1%nat) by lia.
    subst i j. reflexivity.
  - intros i j Hi Hj. rewrite two_points_covariance by assumption.
    unfold sum_upto, two_points_chol, at2.
    destruct i as [| [| i]], j as [| [| j]]; try lia; cbn; try ring.
    rewrite sqrt_sqrt by exact Hc. ring.
Qed.

Lemma perturbation_of_last_point_witness :
  (forall i j, (i < 1)%nat -> (j < 2)%nat ->
     at2 0 (pha_pets [[2; 3]] two_points_chol [5; 7]) j i
     = nth j [5; 7] 0
       + sum_upto 2 (fun k => at2 0 [[2; 3]] i k * at2 0 two_points_chol k j))
  /\ (forall i, (i < 1)%nat ->
        at2 0 (pha_pets [[2; 3]] two_points_chol [5; 7]) 1 i
        = nth 1 [5; 7] 0 + at2 0 [[2; 3]] i 1 * at2 0 two_points_chol 1 1)
  /\ at2 0 two_points_chol 1 1 * at2 0 two_points_chol 1 1
     = 1 - sum_upto 1 (fun k => at2 0 two_points_chol 1 k * at2 0 two_points_chol 1 k).
Proof.
  apply (perturbation_of_last_point 1 (1 / 1000) 0 two_points [5; 7] [[2; 3]]
           two_points_chol 1 1).
  - reflexivity.
  - reflexivity.
  - split; [reflexivity | repeat constructor].
  - exact two_points_cholesky.
Defined.

End PerturbedData.
